(** * Timeline: extent calculation, lane layout, extent transforms, inertia

    A shallow embedding of the timeline component (the [Timeline] React
    component with its helpers [calculateExtent], [calculateNewPan],
    [calculateNewZoom], the [layout] effect, and the [useInertia] hook).

    Modelling conventions.
    - A JavaScript [Date] is its time value, a whole number of milliseconds
      ([Z]); [new Date(x)] truncates a fractional [x] toward zero, as
      TimeClip does.
    - Numbers are modelled twice.  The layout, the calendar and the
      ordering properties of the transforms read them as exact rationals
      ([Q]), with valid dates and an extent of non-zero span understood.
      What depends on the values computed (the bounds a pan or a zoom
      returns, the velocities of an inertia run) is stated over [Double]:
      binary64 numbers with rounding to nearest, ties to even, gradual
      underflow, overflow to the infinities, signed zeros and NaN, where a
      Date may be an Invalid Date ([None]).
    - Calendar functions follow ECMAScript's [DayFromYear], [TimeFromYear]
      and [YearFromTime]; the local time zone is taken to be UTC.
    - Arrays that the code mutates in place live in an explicit heap, so
      that aliasing between the caller's data and the component is visible.
    - Record fields keep the source names; where two interfaces share a
      field name the collection and extent fields carry a short prefix, and
      [end] is written [end_]. *)

From Stdlib Require Import ZArith QArith Qround Qabs Qpower.
From Stdlib Require Import List Ascii String Bool Lia Lqa Permutation Sorted.
From Stdlib Require OrderedTypeEx.
From Stdlib Require Floats.SpecFloat.
Import ListNotations.
Open Scope Z_scope.

(** ** JavaScript numbers *)

Module Num.

(** [a < b] on numbers. *)
Definition ltb (a b : Q) : bool := negb (Qle_bool b a).

(** [Math.max(a, b)]. *)
Definition max (a b : Q) : Q := if Qle_bool a b then b else a.

(** [Math.abs(a)]. *)
Definition abs (a : Q) : Q := if Qle_bool 0 a then a else Qopp a.

(** ToIntegerOrInfinity on a finite number: truncation toward zero. *)
Definition trunc (q : Q) : Z := if Qle_bool 0 q then Qfloor q else Qceiling q.

End Num.

(** ** Dates *)

Definition Date := Z.

(** [new Date(value)]: the time value is clipped to a whole millisecond. *)
Definition newDate (value : Q) : Date := Num.trunc value.

Module Calendar.

Definition msPerDay : Z := 86400000.

Definition Day (t : Z) : Z := t / msPerDay.

Definition DayFromYear (y : Z) : Z :=
  365 * (y - 1970) + (y - 1969) / 4 - (y - 1901) / 100 + (y - 1601) / 400.

Definition TimeFromYear (y : Z) : Z := msPerDay * DayFromYear y.

(** The largest [y] with [TimeFromYear y <= t], found from an estimate
    that is never off by more than one year. *)
Definition YearFromTime (t : Z) : Z :=
  let d := Day t in
  let y0 := 1970 + (d * 400) / 146097 in
  if DayFromYear (y0 + 1) <=? d then y0 + 1
  else if DayFromYear y0 <=? d then y0
  else y0 - 1.

(** [date.getFullYear()]. *)
Definition getFullYear (d : Date) : Z := YearFromTime d.

(** A year that [new Date(year, 0, 1)] reads as it is written. *)
Definition plainYear (y : Z) : Prop := y < 0 \/ 99 < y.

(** [new Date(year, 0, 1)]: years 0..99 denote 1900..1999. *)
Definition newDateYear (year : Z) : Date :=
  if (0 <=? year) && (year <=? 99) then TimeFromYear (1900 + year)
  else TimeFromYear year.

End Calendar.

(** ** Data model *)

Record Event := {
  title : string;
  start : Date;
  end_ : option Date;
  color : option string
}.

Record EventCollection := {
  events : list Event;
  ec_title : string
}.

Record TimelineExtent := {
  ext_start : Date;
  ext_end : Date
}.

Record PositionedEvent := {
  left : Q;
  eventWidth : Q;
  displayWidth : Q;
  textWidth : Q;
  height : Q;
  top : Q;
  event : Event;
  lane : nat
}.

Record PositionEventCollection := {
  positionedEvents : list PositionedEvent;
  pec_title : string
}.

Definition dotSize : Q := 16.
Definition textPadding : Q := 3.
Definition halfDotSize : Q := dotSize / 2.

(** Exceptions raised by the runtime. *)
Inductive JsError := TypeError.

Inductive result (A : Type) :=
| Ok (a : A)
| Throw (e : JsError).
Arguments Ok {A} a.
Arguments Throw {A} e.

(** ** calculateExtent *)

(** [end || start]: a present end is kept, a Date object being truthy. *)
Definition endOrStart (ev : Event) : Date :=
  match end_ ev with
  | Some e => e
  | None => start ev
  end.

(** One step of the [reduce] in [calculateExtent]. *)
Definition extentStep (acc : TimelineExtent) (ev : Event) : TimelineExtent :=
  {| ext_start := if start ev <? ext_start acc then start ev else ext_start acc;
     ext_end := if ext_end acc <? endOrStart ev then endOrStart ev
                else ext_end acc |}.

(** The [reduce] over all events, seeded with the first event's start. *)
Definition reduceExtent (e0 : Event) (evs : list Event) : TimelineExtent :=
  fold_left extentStep evs {| ext_start := start e0; ext_end := start e0 |}.

Definition calculateExtent (collection : list EventCollection)
  : result TimelineExtent :=
  let evs := flat_map events collection in
  match evs with
  | [] => Throw TypeError (* events[0] is undefined: reading .start throws *)
  | e0 :: _ =>
      let extent := reduceExtent e0 evs in
      if 20 <? Calendar.getFullYear (ext_end extent)
               - Calendar.getFullYear (ext_start extent)
      then Ok {| ext_start := ext_start extent;
                 ext_end := Calendar.newDateYear
                              (Calendar.getFullYear (ext_start extent) + 20) |}
      else Ok extent
  end.

(** ** Extent transforms *)

(** The transforms in exact arithmetic, for the properties that do not
    depend on rounding; [Double.calculateNewPan] and
    [Double.calculateNewZoom] below are the same functions on binary64
    numbers. *)
Definition calculateNewPan (offsetWidth : Z) (delta : Q) (s e : Date)
  : TimelineExtent :=
  let scale := (inject_Z offsetWidth / inject_Z (e - s))%Q in
  {| ext_start := newDate (inject_Z s - delta / scale)%Q;
     ext_end := newDate (inject_Z e - delta / scale)%Q |}.

Definition calculateNewZoom (delta center : Q) (s e : Date) : TimelineExtent :=
  let scale := (1 + delta / 1000)%Q in
  {| ext_start :=
       newDate (inject_Z s - inject_Z (e - s) * center * (scale - 1))%Q;
     ext_end :=
       newDate (inject_Z e + inject_Z (e - s) * (1 - center) * (scale - 1))%Q |}.

(** The extent update made by [onDrag] while the pointer is down:
    [state.delta = [panDelta, zoomDelta]], [state.xy[0] = x]. *)
Definition onDragExtent (offsetWidth : Z) (panDelta zoomDelta x : Q)
    (extent : TimelineExtent) : TimelineExtent :=
  let panned :=
    calculateNewPan offsetWidth panDelta (ext_start extent) (ext_end extent) in
  calculateNewZoom (zoomDelta * 2)%Q (x / inject_Z offsetWidth)%Q
    (ext_start panned) (ext_end panned).

(** ** Sorting the collections *)

(** Truthiness of an optional string: [undefined] and [""] are falsy. *)
Definition truthy (c : option string) : bool :=
  match c with
  | Some s => negb (String.eqb s EmptyString)
  | None => false
  end.

(** [a < b] on [string | undefined] operands that are both truthy. *)
Definition color_ltb (a b : option string) : bool :=
  match a, b with
  | Some x, Some y => String.ltb x y
  | _, _ => false
  end.

(** The comparator handed to [events.sort]. *)
Definition compareEvents (a b : Event) : Z :=
  if truthy (color a) && truthy (color b) && color_ltb (color a) (color b)
  then -1
  else if truthy (color a) && truthy (color b) && color_ltb (color b) (color a)
  then 1
  else if start a <? start b then -1
  else if start b <? start a then 1
  else 0.

(** [Array.prototype.sort] as a stable insertion sort.  Where the
    comparator is a consistent ordering of the array every stable sort
    returns this order; where it is not, ECMAScript leaves the order to
    the implementation. *)
Fixpoint sortInsert (cmp : Event -> Event -> Z) (x : Event) (l : list Event)
  : list Event :=
  match l with
  | [] => [x]
  | y :: ys => if cmp x y <=? 0 then x :: y :: ys else y :: sortInsert cmp x ys
  end.

Fixpoint sort (cmp : Event -> Event -> Z) (l : list Event) : list Event :=
  match l with
  | [] => []
  | x :: xs => sortInsert cmp x (sort cmp xs)
  end.

(** Arrays of events are heap objects; a collection object refers to its
    events array. *)
Definition ArrayRef := nat.
Definition Heap := ArrayRef -> list Event.

Definition heap_set (h : Heap) (r : ArrayRef) (v : list Event) : Heap :=
  fun r' => if Nat.eqb r' r then v else h r'.

Record EventCollectionObj := {
  obj_events : ArrayRef;
  obj_title : string
}.

Definition load (h : Heap) (c : EventCollectionObj) : EventCollection :=
  {| events := h (obj_events c); ec_title := obj_title c |}.

(** The [sortedCollection] memo: [collection.map] builds new collection
    objects, but [events.sort] sorts each events array in place and
    returns that same array. *)
Fixpoint sortedCollection (h : Heap) (collection : list EventCollectionObj)
  : Heap * list EventCollectionObj :=
  match collection with
  | [] => (h, [])
  | c :: rest =>
      let h1 := heap_set h (obj_events c) (sort compareEvents (h (obj_events c))) in
      let (h2, rest') := sortedCollection h1 rest in
      (h2, {| obj_events := obj_events c; obj_title := obj_title c |} :: rest')
  end.

(** ** Layout *)

(** The text-measurement cache ([measuredTextCache]), holding widths. *)
Definition TextCache := list (string * Q).

Fixpoint cache_get (cache : TextCache) (text : string) : option Q :=
  match cache with
  | [] => None
  | (k, v) :: rest => if String.eqb k text then Some v else cache_get rest text
  end.

Section Layout.

(** [canvasContext.measureText(text).width]. *)
Variable measure : string -> Q.

Definition measureText (cache : TextCache) (text : string) : Q * TextCache :=
  match cache_get cache text with
  | Some cached => (cached, cache)
  | None => let metrics := measure text in (metrics, (text, metrics) :: cache)
  end.

(** [a.color === b.color] on [string | undefined]. *)
Definition color_eqb (a b : option string) : bool :=
  match a, b with
  | Some x, Some y => String.eqb x y
  | None, None => true
  | _, _ => false
  end.

Definition coloredLanes (placed : list PositionedEvent) : list nat :=
  nodup Nat.eq_dec
    (map lane (filter (fun x => truthy (color (event x))) placed)).

(** [Array.from({ length }).find((_, i) => !coloredLanes.has(i))]:
    [find] yields the element that passes the test, and every element of
    the array is [undefined]; so the value is [undefined] whether or not
    an index passes. *)
Definition nextNonColoredLane (placed : list PositionedEvent) : option nat :=
  let lanes := coloredLanes placed in
  match find (fun i => negb (existsb (Nat.eqb i) lanes))
             (seq 0 (List.length lanes + 1)) with
  | Some _ => None
  | None => None
  end.

(** The initial value of [lane]. *)
Definition preferredLane (placed : list PositionedEvent) (ev : Event) : nat :=
  match find (fun x => color_eqb (color (event x)) (color ev)) placed with
  | Some x => lane x
  | None =>
      match nextNonColoredLane placed with
      | Some l => l
      | None => 0%nat
      end
  end.

(** The condition of the [while] loop. *)
Definition conflicts (placed : list PositionedEvent) (l dw : Q) (ln : nat)
  : bool :=
  existsb (fun p => Nat.eqb (lane p) ln
                    && Num.ltb (left p) (l + dw)%Q
                    && Num.ltb l (left p + displayWidth p)%Q) placed.

(** The events on lane [ln] or above. *)
Definition fromLane (ln : nat) (placed : list PositionedEvent)
  : list PositionedEvent :=
  filter (fun p => Nat.leb ln (lane p)) placed.

(** The [while] loop, [lane++] until no placed event conflicts. *)
Fixpoint scanLane (fuel : nat) (placed : list PositionedEvent) (l dw : Q)
    (ln : nat) : option nat :=
  match fuel with
  | O => None
  | S fuel' =>
      if conflicts placed l dw ln then scanLane fuel' placed l dw (S ln)
      else Some ln
  end.

Variable extent : TimelineExtent.
Variable scale : Q.

(** The body of the loop over the events of one collection. *)
Definition placeEvent (cache : TextCache) (placed : list PositionedEvent)
    (ev : Event) : option (TextCache * list PositionedEvent) :=
  let l :=
    (inject_Z (start ev - ext_start extent) * scale - halfDotSize + 1)%Q in
  let ew :=
    (inject_Z (endOrStart ev - start ev) * scale + halfDotSize - 1)%Q in
  let (textSize, cache') := measureText cache (title ev) in
  let dw :=
    Num.max (Num.max dotSize ew) (dotSize + textSize + 2 * textPadding)%Q in
  match scanLane (S (List.length placed)) placed l dw (preferredLane placed ev) with
  | None => None
  | Some ln =>
      Some (cache',
            placed ++ [ {| left := l;
                           displayWidth := dw;
                           eventWidth := Num.max dotSize ew;
                           textWidth := textSize;
                           height := dotSize;
                           top := (inject_Z (Z.of_nat ln)
                                   * (dotSize + textPadding * 2))%Q;
                           event := ev;
                           lane := ln |} ])
  end.

Fixpoint placeEvents (cache : TextCache) (placed : list PositionedEvent)
    (evs : list Event) : option (TextCache * list PositionedEvent) :=
  match evs with
  | [] => Some (cache, placed)
  | ev :: rest =>
      match placeEvent cache placed ev with
      | None => None
      | Some (cache', placed') => placeEvents cache' placed' rest
      end
  end.

(** The loop over the collections. *)
Fixpoint placeCollections (cache : TextCache) (cs : list EventCollection)
  : option (TextCache * list PositionEventCollection) :=
  match cs with
  | [] => Some (cache, [])
  | c :: rest =>
      match placeEvents cache [] (events c) with
      | None => None
      | Some (cache', placed) =>
          match placeCollections cache' rest with
          | None => None
          | Some (cache'', out) =>
              Some (cache'',
                    {| positionedEvents := placed; pec_title := ec_title c |}
                    :: out)
          end
      end
  end.

End Layout.

Inductive LayoutOutcome :=
| Skipped
| Positioned (cache : TextCache) (eventPositions : list PositionEventCollection)
| OutOfFuel.

(** The [layout] function of the layout effect; [width] and [height] are
    the container's [offsetWidth] and [offsetHeight]. *)
Definition layout (measure : string -> Q) (cache : TextCache)
    (extent : TimelineExtent) (width height : Z)
    (sorted : list EventCollection) : LayoutOutcome :=
  if (width =? 0) || (height =? 0) then Skipped
  else
    let scale := (inject_Z width / inject_Z (ext_end extent - ext_start extent))%Q in
    match placeCollections measure extent scale cache sorted with
    | None => OutOfFuel
    | Some (cache', out) => Positioned cache' out
    end.

(** One render followed by its layout effect, on the caller's collection
    objects: the memo sorts, then [layout] reads the sorted arrays. *)
Definition layoutPass (measure : string -> Q) (cache : TextCache)
    (extent : TimelineExtent) (width height : Z)
    (h : Heap) (collection : list EventCollectionObj) : Heap * LayoutOutcome :=
  let (h', sorted) := sortedCollection h collection in
  (h', layout measure cache extent width height (map (load h') sorted)).

(** ** useInertia *)

Module Inertia.

Definition TimerId := nat.

Record state := {
  intervalId : option TimerId;   (* intervalId.current *)
  timers : list TimerId;         (* intervals set and not yet cleared *)
  nextId : TimerId;              (* the id window.setInterval returns next *)
  velocity : Q;                  (* the velocity state *)
  calls : list (TimerId * Q)     (* callback invocations, latest first *)
}.

Definition init : state :=
  {| intervalId := None; timers := []; nextId := 1%nat; velocity := 0;
     calls := [] |}.

(** [clearInterval(id)]; clearing [null] or a dead id does nothing. *)
Definition clearInterval (id : option TimerId) (ts : list TimerId)
  : list TimerId :=
  match id with
  | Some t => filter (fun t' => negb (Nat.eqb t' t)) ts
  | None => ts
  end.

Definition beginInertia (initialVelocity : Q) (s : state) : state :=
  {| intervalId := Some (nextId s);
     timers := nextId s :: timers s;
     nextId := S (nextId s);
     velocity := initialVelocity;
     calls := calls s |}.

Definition endInertia (s : state) : state :=
  match intervalId s with
  | Some t =>
      {| intervalId := None;
         timers := clearInterval (Some t) (timers s);
         nextId := nextId s;
         velocity := velocity s;
         calls := calls s |}
  | None => s
  end.

(** The interval handler of timer [t] runs: the state updater invokes the
    callback with the current velocity, then stops or decays. *)
Definition fire (t : TimerId) (s : state) : state :=
  let called := (t, velocity s) :: calls s in
  if Num.ltb (Num.abs (velocity s)) (1 # 10) then
    {| intervalId := None;
       timers := clearInterval (intervalId s) (timers s);
       nextId := nextId s;
       velocity := 0;
       calls := called |}
  else
    {| intervalId := intervalId s;
       timers := timers s;
       nextId := nextId s;
       velocity := (velocity s * (95 # 100))%Q;
       calls := called |}.

(** What can happen to a controller: its two functions are called, or
    the scheduler runs the handler of an interval; a cleared interval
    never runs. *)
Inductive action :=
| Begin (initialVelocity : Q)
| End
| Tick (t : TimerId).

Definition step (s : state) (a : action) : state :=
  match a with
  | Begin v => beginInertia v s
  | End => endInertia s
  | Tick t => if existsb (Nat.eqb t) (timers s) then fire t s else s
  end.

Definition run (acts : list action) (s : state) : state :=
  fold_left step acts s.

(** Every [Begin] of the trace happens while no run is recorded. *)
Fixpoint guarded (acts : list action) (s : state) : bool :=
  match acts with
  | [] => true
  | a :: rest =>
      match a, intervalId s with
      | Begin _, Some _ => false
      | _, _ => guarded rest (step s a)
      end
  end.

(** The trace calls [beginInertia] nowhere. *)
Definition noBegin (acts : list action) : bool :=
  forallb (fun a => match a with Begin _ => false | _ => true end) acts.

(** Interval ids in use are ids that [setInterval] has handed out. *)
Definition wf (s : state) : Prop :=
  Forall (fun t => (t < nextId s)%nat) (timers s)
  /\ Forall (fun c => (fst c < nextId s)%nat) (calls s).

(** The only live interval, if any, is the recorded one. *)
Definition single (s : state) : Prop :=
  timers s = match intervalId s with Some t => [t] | None => [] end.

(** The invocations of the callback made by timer [t]. *)
Definition callsOf (t : TimerId) (s : state) : list (TimerId * Q) :=
  filter (fun c => Nat.eqb (fst c) t) (calls s).

(** Interval [t] is dead and has made no call. *)
Definition silent (t : TimerId) (s : state) : Prop :=
  ~ In t (timers s) /\ (t < nextId s)%nat /\ callsOf t s = [].

End Inertia.

(** ** Binary64 arithmetic *)

(** The Number type: a finite number is given by the rational it denotes,
    and every operation rounds its exact result to the nearest number of
    53 significant bits, the even one of two that are equally near. *)
Module Double.
Local Open Scope Q_scope.

(** The exponent of the leading bit of a number other than zero:
    [2 ^ ilog2 x <= |x| < 2 ^ (ilog2 x + 1)]. *)
Definition ilog2 (x : Q) : Z :=
  let l := (Z.log2 (Z.abs (Qnum x)) - Z.log2 (Zpos (Qden x)))%Z in
  if Qle_bool (2 ^ l) (Qabs x) then l else (l - 1)%Z.

(** The exponent of the unit in the last place: 53 significant bits, and
    no exponent below that of the subnormal numbers. *)
Definition ulpExp (x : Q) : Z := Z.max (ilog2 x - 52) (-1074).

(** The nearest integer, the even one of two that are equally near. *)
Definition nearestEven (y : Q) : Z :=
  let f := Qfloor y in
  match Qcompare (y - inject_Z f) (1 # 2) with
  | Lt => f
  | Gt => (f + 1)%Z
  | Eq => if Z.even f then f else (f + 1)%Z
  end.

(** Rounding to nearest, ties to even, with the exponent unbounded
    above. *)
Definition rnd (x : Q) : Q :=
  if Qeq_bool x 0 then 0
  else Qred (inject_Z (nearestEven (x / 2 ^ ulpExp x)) * 2 ^ ulpExp x).

(** A Number value: a finite number given by the rational it denotes
    ([Fin 0] is +0), -0, an infinity, or NaN. *)
Inductive double :=
| Fin (q : Q)
| NegZero
| Inf (negative : bool)
| NaN.

Definition zero (negative : bool) : double :=
  if negative then NegZero else Fin 0.

(** The result of an operation whose exact value [x] is not zero: the
    rounding of [x], an infinity when that is [2^1024] or more in
    magnitude, a zero of the sign of [x] when it is zero. *)
Definition round (x : Q) : double :=
  let y := rnd x in
  if Qle_bool (2 ^ 1024) (Qabs y) then Inf (negb (Qle_bool 0 x))
  else if Qeq_bool y 0 then zero (negb (Qle_bool 0 x))
  else Fin y.

(** The Number value of a numeric literal or of an integer. *)
Definition ofQ (x : Q) : double := if Qeq_bool x 0 then Fin 0 else round x.
Definition ofZ (z : Z) : double := ofQ (inject_Z z).

Definition finite (a : double) : bool :=
  match a with
  | Fin _ | NegZero => true
  | _ => false
  end.

(** The rational a finite number denotes. *)
Definition val (a : double) : Q :=
  match a with
  | Fin q => q
  | _ => 0
  end.

Definition isZero (a : double) : bool :=
  match a with
  | Fin q => Qeq_bool q 0
  | NegZero => true
  | _ => false
  end.

(** The sign bit. *)
Definition sign (a : double) : bool :=
  match a with
  | Fin q => negb (Qle_bool 0 q)
  | NegZero => true
  | Inf n => n
  | NaN => false
  end.

(** Unary minus. *)
Definition opp (a : double) : double :=
  match a with
  | Fin q => if Qeq_bool q 0 then NegZero else Fin (- q)
  | NegZero => Fin 0
  | Inf n => Inf (negb n)
  | NaN => NaN
  end.

(** [a + b]. *)
Definition add (a b : double) : double :=
  match a, b with
  | NaN, _ | _, NaN => NaN
  | Inf n, Inf m => if Bool.eqb n m then Inf n else NaN
  | Inf n, _ => Inf n
  | _, Inf m => Inf m
  | NegZero, NegZero => NegZero
  | _, _ =>
      let x := val a + val b in
      if Qeq_bool x 0 then Fin 0 else round x
  end.

(** [a - b]. *)
Definition sub (a b : double) : double := add a (opp b).

(** [a * b]. *)
Definition mul (a b : double) : double :=
  match a, b with
  | NaN, _ | _, NaN => NaN
  | Inf n, _ => if isZero b then NaN else Inf (xorb n (sign b))
  | _, Inf m => if isZero a then NaN else Inf (xorb (sign a) m)
  | _, _ =>
      let x := val a * val b in
      if Qeq_bool x 0 then zero (xorb (sign a) (sign b)) else round x
  end.

(** [a / b]. *)
Definition div (a b : double) : double :=
  match a, b with
  | NaN, _ | _, NaN => NaN
  | Inf n, Inf m => NaN
  | Inf n, _ => Inf (xorb n (sign b))
  | _, Inf m => zero (xorb (sign a) m)
  | _, _ =>
      if isZero b then
        if isZero a then NaN else Inf (xorb (sign a) (sign b))
      else
        let x := val a / val b in
        if Qeq_bool x 0 then zero (xorb (sign a) (sign b)) else round x
  end.

(** [a < b]; false when an operand is NaN. *)
Definition ltb (a b : double) : bool :=
  match a, b with
  | NaN, _ | _, NaN => false
  | Inf n, Inf m => n && negb m
  | Inf n, _ => n
  | _, Inf m => negb m
  | _, _ => negb (Qle_bool (val b) (val a))
  end.

(** [a !== b] on numbers. *)
Definition neqb (a b : double) : bool :=
  match a, b with
  | NaN, _ | _, NaN => true
  | Inf n, Inf m => negb (Bool.eqb n m)
  | Inf _, _ | _, Inf _ => true
  | _, _ => negb (Qeq_bool (val a) (val b))
  end.

(** [Math.abs(a)]. *)
Definition abs (a : double) : double :=
  match a with
  | Fin q => Fin (Qabs q)
  | NegZero => Fin 0
  | Inf _ => Inf false
  | NaN => NaN
  end.

(** [Math.max(a, b)]: NaN when an operand is NaN, and +0 above -0. *)
Definition max (a b : double) : double :=
  match a, b with
  | NaN, _ | _, NaN => NaN
  | _, _ =>
      if ltb a b then b
      else if ltb b a then a
      else if sign a then b else a
  end.

(** A Date: its time value, a whole number of milliseconds within
    8.64e15 of the epoch, or no time value (Invalid Date). *)
Definition JsDate := option Z.

Definition maxTime : Z := 8640000000000000.

(** [date.getTime()]. *)
Definition getTime (d : JsDate) : double :=
  match d with
  | Some t => ofZ t
  | None => NaN
  end.

(** [new Date(value)]: TimeClip, which truncates toward zero. *)
Definition newDate (value : double) : JsDate :=
  match value with
  | Fin q =>
      if Qle_bool (Qabs q) (inject_Z maxTime) then Some (Num.trunc q) else None
  | NegZero => Some 0%Z
  | _ => None
  end.

Record TimelineExtent := {
  ext_start : JsDate;
  ext_end : JsDate
}.

Definition calculateNewPan (offsetWidth : Z) (delta : double) (s e : JsDate)
  : TimelineExtent :=
  let scale := div (ofZ offsetWidth) (sub (getTime e) (getTime s)) in
  {| ext_start := newDate (sub (getTime s) (div delta scale));
     ext_end := newDate (sub (getTime e) (div delta scale)) |}.

Definition calculateNewZoom (delta center : double) (s e : JsDate)
  : TimelineExtent :=
  let scale := add (ofZ 1) (div delta (ofZ 1000)) in
  {| ext_start :=
       newDate (sub (getTime s)
                  (mul (mul (sub (getTime e) (getTime s)) center)
                     (sub scale (ofZ 1))));
     ext_end :=
       newDate (add (getTime e)
                  (mul (mul (sub (getTime e) (getTime s))
                          (sub (ofZ 1) center))
                     (sub scale (ofZ 1)))) |}.

(** The extent update made by [handleWheel]. *)
Definition handleWheel (offsetWidth : Z) (deltaY clientX : double)
    (extent : TimelineExtent) : TimelineExtent :=
  if neqb deltaY (ofZ 0) then
    calculateNewZoom deltaY (div clientX (ofZ offsetWidth))
      (ext_start extent) (ext_end extent)
  else extent.

(** The extent update made by [onDrag] while the pointer is down. *)
Definition onDragExtent (offsetWidth : Z) (panDelta zoomDelta x : double)
    (extent : TimelineExtent) : TimelineExtent :=
  let panned :=
    calculateNewPan offsetWidth panDelta (ext_start extent) (ext_end extent) in
  calculateNewZoom (mul zoomDelta (ofZ 2)) (div x (ofZ offsetWidth))
    (ext_start panned) (ext_end panned).


(** ** Vocabulary of the properties of the arithmetic *)

(** [n] is an integer nearest to [y], and the even one if two are. *)
Definition isNearest (y : Q) (n : Z) : Prop :=
  Qabs (inject_Z n - y) < 1 # 2
  \/ (Qabs (inject_Z n - y) == 1 # 2 /\ Z.even n = true).

(** The unit roundoff, [2^-53]. *)
Definition u : Q := 1 # 9007199254740992.

(** An allowance for the error of a rounding below the normal range. *)
Definition tiny : Q := 1 # 1152921504606846976.

(** A finite number that is a value of the Number type. *)
Definition isNumber (a : double) : Prop := rnd (val a) == val a.

(** A time value within the range of Date. *)
Definition validTime (t : Z) : Prop := (Z.abs t <= maxTime)%Z.

(** The rounding allowance of a zoom, in milliseconds: [2^-48] of the
    magnitudes involved. *)
Definition zoomTolerance (s e : Z) (D : Q) : Q :=
  (1 + Qabs (inject_Z s) + Qabs (inject_Z e)) * (1 + Qabs D)
  / 281474976710656.

(** The rounding allowance of a pan, in milliseconds: [2^-50] of the
    magnitudes involved. *)
Definition panTolerance (s e : Z) (S : Q) : Q :=
  (1 + Qabs (inject_Z s) + Qabs (inject_Z e) + Qabs S) / 1125899906842624.

(** Both bounds are within one millisecond and the allowance of a pair of
    instants. *)
Definition within (p : Q * Q) (s e : Z) (tolerance : Q) : Prop :=
  Qabs (inject_Z s - fst p) < 1 + tolerance
  /\ Qabs (inject_Z e - snd p) < 1 + tolerance.

End Double.

(** ** Binary64 arithmetic against the Standard Library's IEEE 754 *)

Module Conformance.
Import Double.

(** A Number value as a [spec_float] of 53 bits of precision and maximal
    exponent 1024. *)
Definition toSpecFloat (a : double) : SpecFloat.spec_float :=
  match a with
  | Fin q =>
      let q' := Qred q in
      SpecFloat.binary_normalize 53 1024 (Qnum q') (- Z.log2 (Zpos (Qden q'))) false
  | NegZero => SpecFloat.S754_zero true
  | Inf n => SpecFloat.S754_infinity n
  | NaN => SpecFloat.S754_nan
  end.

Definition sameFloat (a b : SpecFloat.spec_float) : bool :=
  match a, b with
  | SpecFloat.S754_zero s, SpecFloat.S754_zero t => Bool.eqb s t
  | SpecFloat.S754_infinity s, SpecFloat.S754_infinity t => Bool.eqb s t
  | SpecFloat.S754_nan, SpecFloat.S754_nan => true
  | SpecFloat.S754_finite s m e, SpecFloat.S754_finite t n f =>
      Bool.eqb s t && Pos.eqb m n && Z.eqb e f
  | _, _ => false
  end.

(** Numbers of every kind: literals of the program, zeros, infinities, NaN,
    the largest and the smallest magnitudes, the ends of the range of
    Date. *)
Definition samples : list double :=
  [ ofQ (1 # 10); ofQ (95 # 100); ofZ 3; ofZ (-7); ofQ (1 # 3); ofZ 1000;
    ofZ 0; NegZero; Inf false; Inf true; NaN;
    ofQ (2 ^ 1023)%Q; ofQ (- 2 ^ 1023 * (3 # 2))%Q;
    ofQ (1 # (2 ^ 1074)%positive); ofQ (3 # (2 ^ 1074)%positive);
    ofZ 8640000000000000; ofZ (2 ^ 53 - 1);
    ofQ (-9999998037543719 # 10000000000000) ].

(** An operation gives on every pair of samples what its specification
    gives. *)
Definition agree (f : double -> double -> double)
    (g : SpecFloat.spec_float -> SpecFloat.spec_float -> SpecFloat.spec_float)
  : bool :=
  forallb (fun p => sameFloat (toSpecFloat (f (fst p) (snd p)))
                      (g (toSpecFloat (fst p)) (toSpecFloat (snd p))))
    (list_prod samples samples).

Definition agreeLtb : bool :=
  forallb (fun p => Bool.eqb (ltb (fst p) (snd p))
                      (SpecFloat.SFltb (toSpecFloat (fst p)) (toSpecFloat (snd p))))
    (list_prod samples samples).

Definition agreeUnary : bool :=
  forallb (fun a => sameFloat (toSpecFloat (opp a)) (SpecFloat.SFopp (toSpecFloat a))
                    && sameFloat (toSpecFloat (abs a))
                         (SpecFloat.SFabs (toSpecFloat a)))
    samples.

End Conformance.

(** ** useInertia on Number values *)

Module DoubleInertia.
Import Double.

Definition TimerId := Inertia.TimerId.

Record state := {
  intervalId : option TimerId;        (* intervalId.current *)
  timers : list TimerId;              (* intervals set and not yet cleared *)
  nextId : TimerId;                   (* the id window.setInterval returns next *)
  velocity : double;                  (* the velocity state *)
  calls : list (TimerId * double)     (* callback invocations, latest first *)
}.

Definition init : state :=
  {| intervalId := None; timers := []; nextId := 1%nat; velocity := ofZ 0;
     calls := [] |}.

Definition beginInertia (initialVelocity : double) (s : state) : state :=
  {| intervalId := Some (nextId s);
     timers := nextId s :: timers s;
     nextId := S (nextId s);
     velocity := initialVelocity;
     calls := calls s |}.

Definition endInertia (s : state) : state :=
  match intervalId s with
  | Some t =>
      {| intervalId := None;
         timers := Inertia.clearInterval (Some t) (timers s);
         nextId := nextId s;
         velocity := velocity s;
         calls := calls s |}
  | None => s
  end.

(** The interval handler of timer [t] runs: the state updater invokes the
    callback with the current velocity, then stops or decays. *)
Definition fire (t : TimerId) (s : state) : state :=
  let called := (t, velocity s) :: calls s in
  if ltb (abs (velocity s)) (ofQ (1 # 10)) then
    {| intervalId := None;
       timers := Inertia.clearInterval (intervalId s) (timers s);
       nextId := nextId s;
       velocity := ofZ 0;
       calls := called |}
  else
    {| intervalId := intervalId s;
       timers := timers s;
       nextId := nextId s;
       velocity := mul (velocity s) (ofQ (95 # 100));
       calls := called |}.

Inductive action :=
| Begin (initialVelocity : double)
| End
| Tick (t : TimerId).

Definition step (s : state) (a : action) : state :=
  match a with
  | Begin v => beginInertia v s
  | End => endInertia s
  | Tick t => if existsb (Nat.eqb t) (timers s) then fire t s else s
  end.

Definition run (acts : list action) (s : state) : state :=
  fold_left step acts s.

End DoubleInertia.

(** The velocity handed to the callback by the tick of index [n] of a run
    that began with velocity [v]: each product is rounded. *)
Fixpoint decayed (v : Double.double) (n : nat) : Double.double :=
  match n with
  | O => v
  | S n' => Double.mul (decayed v n') (Double.ofQ (95 # 100))
  end.

(** The test that ends a run. *)
Definition belowThreshold (v : Double.double) : bool :=
  Double.ltb (Double.abs v) (Double.ofQ (1 # 10)).

(** ** The specification's wording, for comparison with the code *)

Module Spec.

(** The longest that twenty consecutive calendar years can last:
    [20 * 365] days and five leap days. *)
Definition capMs : Z := 7305 * Calendar.msPerDay.

(** [zoom] as the specification gives it, for a sensitivity [K]. *)
Definition zoom (K deltaUnits center : Q) (s e : Q) : Q * Q :=
  let factor := (1 + deltaUnits / K)%Q in
  let span := (e - s)%Q in
  ((s - span * center * (factor - 1))%Q,
   (e + span * (1 - center) * (factor - 1))%Q).

(** The whole-millisecond extent that holds a pair of instants. *)
Definition toExtent (p : Q * Q) : TimelineExtent :=
  {| ext_start := newDate (fst p); ext_end := newDate (snd p) |}.

(** The half-open overlap test on two positioned events. *)
Definition overlap (a b : PositionedEvent) : Prop :=
  (left a < left b + displayWidth b /\ left b < left a + displayWidth a)%Q.

(** No two events that share a lane overlap. *)
Definition NoOverlap (placed : list PositionedEvent) : Prop :=
  forall i j a b,
    i <> j ->
    nth_error placed i = Some a ->
    nth_error placed j = Some b ->
    lane a = lane b ->
    ~ overlap a b.

End Spec.

(** ** Further parts of the component *)



(** ** Vocabulary of the further properties *)

(** Every width held by the cache is the measured width of its text. *)
Definition cacheSound (measure : string -> Q) (cache : TextCache) : Prop :=
  forall text w, cache_get cache text = Some w -> w = measure text.

(** [cache'] answers as [cache] does wherever [cache] answers. *)
Definition cacheExtends (cache cache' : TextCache) : Prop :=
  forall text w, cache_get cache text = Some w -> cache_get cache' text = Some w.

(** Some placed event is on lane [ln]. *)
Definition occupied (placed : list PositionedEvent) (ln : nat) : Prop :=
  exists p, In p placed /\ lane p = ln.

(** The lanes in use are exactly the lanes below some bound. *)
Definition compactLanes (placed : list PositionedEvent) : Prop :=
  forall p ln, In p placed -> (ln < lane p)%nat -> occupied placed ln.

(** The sort comparator puts [a] no later than [b]. *)
Definition notAfter (a b : Event) : Prop := compareEvents a b <= 0.

(** The order by colour, then by start. *)
Definition byColorThenStart (a b : Event) : Prop :=
  color_ltb (color a) (color b) = true
  \/ (color a = color b /\ start a <= start b).

(** The order by start. *)
Definition byStart (a b : Event) : Prop := start a <= start b.

(** ** CSVToArray *)

(** The part of regular expressions that [objPattern] uses, matched by
    backtracking as ECMAScript prescribes: a matcher takes the state
    reached and the continuation that has to succeed after it. *)
Module Regex.

Inductive re :=
| Chr (p : ascii -> bool)   (* a character or character class *)
| Bol                       (* ^ *)
| Eps                       (* the empty pattern *)
| Seq (a b : re)
| Alt (a b : re)            (* a|b *)
| Star (a : re)             (* a*, greedy *)
| Grp (n : nat) (a : re).   (* the capturing group of number n *)

(** a? *)
Definition Opt (a : re) : re := Alt a Eps.

Record mstate := {
  pos : nat;                      (* the index of the next character *)
  rest : list ascii;              (* the input from that index on *)
  caps : list (nat * list ascii)  (* the captures, the latest first *)
}.

Definition advance (st : mstate) (tl : list ascii) : mstate :=
  {| pos := S (pos st); rest := tl; caps := caps st |}.

Definition setCap (n : nat) (text : list ascii) (st : mstate) : mstate :=
  {| pos := pos st; rest := rest st; caps := (n, text) :: caps st |}.

Fixpoint getCap (n : nat) (cs : list (nat * list ascii)) : option (list ascii) :=
  match cs with
  | [] => None
  | (n', text) :: tl => if Nat.eqb n' n then Some text else getCap n tl
  end.

(** The numbers of the groups of a pattern. *)
Fixpoint groups (r : re) : list nat :=
  match r with
  | Chr _ | Bol | Eps => []
  | Seq a b | Alt a b => groups a ++ groups b
  | Star a => groups a
  | Grp n a => n :: groups a
  end.

(** An iteration of a repetition starts with the captures of the groups
    inside it undefined. *)
Definition clearCaps (ns : list nat) (st : mstate) : mstate :=
  {| pos := pos st; rest := rest st;
     caps := filter (fun c => negb (existsb (Nat.eqb (fst c)) ns)) (caps st) |}.

Fixpoint m (r : re) (st : mstate) (k : mstate -> option mstate)
  : option mstate :=
  match r with
  | Chr p =>
      match rest st with
      | c :: tl => if p c then k (advance st tl) else None
      | [] => None
      end
  | Bol => if Nat.eqb (pos st) 0 then k st else None
  | Eps => k st
  | Seq a b => m a st (fun st' => m b st' k)
  | Alt a b =>
      match m a st k with
      | Some res => Some res
      | None => m b st k
      end
  | Star a =>
      (fix loop (n : nat) (st : mstate) {struct n} : option mstate :=
         match n with
         | O => k st
         | S n' =>
             match m a (clearCaps (groups a) st)
                     (fun st' => if Nat.eqb (pos st') (pos st) then None
                                 else loop n' st') with
             | Some res => Some res
             | None => k st
             end
         end) (List.length (rest st)) st
  | Grp n a =>
      m a st (fun st' => k (setCap n (firstn (pos st' - pos st) (rest st)) st'))
  end.

(** The search of [exec]: the first index, from [i] on, at which the
    pattern matches. *)
Fixpoint execFrom (r : re) (i : nat) (input : list ascii) : option mstate :=
  match m r {| pos := i; rest := input; caps := [] |} Some with
  | Some st => Some st
  | None =>
      match input with
      | [] => None
      | _ :: tl => execFrom r (S i) tl
      end
  end.

(** [pattern.exec(s)] for a pattern with the [g] flag whose [lastIndex] is
    [lastIndex]: the state at the end of the match, whose [pos] is the new
    [lastIndex]; or [None] for [null]. *)
Definition exec (r : re) (s : list ascii) (lastIndex : nat) : option mstate :=
  if Nat.ltb (List.length s) lastIndex then None
  else execFrom r lastIndex (skipn lastIndex s).

End Regex.

Definition comma : ascii := ","%char.
Definition dquote : ascii := "034"%char.
Definition CR : ascii := "013"%char.
Definition LF : ascii := "010"%char.

Definition isChar (c : ascii) : ascii -> bool := Ascii.eqb c.
Definition isNot (cs : list ascii) : ascii -> bool :=
  fun c => negb (existsb (Ascii.eqb c) cs).

(** The pattern that [CSVToArray] builds for the delimiter [","], in its
    three parts; its flag [i] changes nothing, no letter occurring in it.
    Group 1: a delimiter, a line end, or the start of the input. *)
Definition delimiterPattern : Regex.re :=
  Regex.Alt (Regex.Chr (isChar comma))
    (Regex.Alt (Regex.Seq (Regex.Opt (Regex.Chr (isChar CR))) (Regex.Chr (isChar LF)))
       (Regex.Alt (Regex.Chr (isChar CR)) Regex.Bol)).

(** A quoted value, whose text is group 2. *)
Definition quotedPattern : Regex.re :=
  Regex.Seq (Regex.Chr (isChar dquote))
    (Regex.Seq
       (Regex.Grp 2
          (Regex.Seq (Regex.Star (Regex.Chr (isNot [dquote])))
             (Regex.Star
                (Regex.Seq (Regex.Chr (isChar dquote))
                   (Regex.Seq (Regex.Chr (isChar dquote))
                      (Regex.Star (Regex.Chr (isNot [dquote]))))))))
       (Regex.Chr (isChar dquote))).

(** A plain value, group 3. *)
Definition plainPattern : Regex.re :=
  Regex.Grp 3 (Regex.Star (Regex.Chr (isNot [dquote; comma; CR; LF]))).

Definition objPattern : Regex.re :=
  Regex.Seq (Regex.Grp 1 delimiterPattern) (Regex.Alt quotedPattern plainPattern).

(** [text.replace(new RegExp(two double quotes, 'g'), one double quote)]. *)
Fixpoint unescape (text : list ascii) : list ascii :=
  match text with
  | a :: tl1 =>
      match tl1 with
      | b :: tl => if isChar dquote a && isChar dquote b then dquote :: unescape tl
                   else a :: unescape tl1
      | [] => [a]
      end
  | [] => []
  end.

(** A row of the result; a value is [undefined] when a quoted field is
    empty. *)
Definition Row := list (option string).

(** The loop of [CSVToArray].  [data] is never empty: it is kept as the
    rows before the last and the last row.  Running out of [fuel] stands
    for a loop that is still running. *)
Fixpoint csvLoop (fuel : nat) (csv : list ascii) (lastIndex : nat)
    (front : list Row) (last : Row) : option (list Row) :=
  match fuel with
  | O => None
  | S fuel' =>
      match Regex.exec objPattern csv lastIndex with
      | None => Some (front ++ [last])
      | Some st =>
          let matchedDelimiter :=
            match Regex.getCap 1 (Regex.caps st) with
            | Some d => d
            | None => []
            end in
          let newRow :=
            negb (Nat.eqb (List.length matchedDelimiter) 0)
            && negb (String.eqb (string_of_list_ascii matchedDelimiter)
                       (string_of_list_ascii [comma])) in
          let matchedValue :=
            match Regex.getCap 2 (Regex.caps st) with
            | Some (c :: text) =>
                Some (string_of_list_ascii (unescape (c :: text)))
            | _ => option_map string_of_list_ascii (Regex.getCap 3 (Regex.caps st))
            end in
          if newRow
          then csvLoop fuel' csv (Regex.pos st) (front ++ [last]) [matchedValue]
          else csvLoop fuel' csv (Regex.pos st) front (last ++ [matchedValue])
      end
  end.

Definition CSVToArray (fuel : nat) (csv : string) : option (list Row) :=
  csvLoop fuel (list_ascii_of_string csv) 0 [] [].

(** ** Vocabulary of the properties of CSVToArray *)

(** [st'] is [st] after some characters have been consumed. *)
Definition reach (st st' : Regex.mstate) : Prop :=
  exists pre,
    Regex.rest st = pre ++ Regex.rest st'
    /\ Regex.pos st' = (Regex.pos st + List.length pre)%nat.

(** Patterns that consume a character whenever they match past the start
    of the input. *)
Fixpoint consuming (r : Regex.re) : bool :=
  match r with
  | Regex.Chr _ | Regex.Bol => true
  | Regex.Eps | Regex.Star _ => false
  | Regex.Seq a b => consuming a || consuming b
  | Regex.Alt a b => consuming a && consuming b
  | Regex.Grp _ a => consuming a
  end.

(** A text without double quote, comma or line end. *)
Definition plain (f : list ascii) : Prop :=
  Forall (fun c => isNot [dquote; comma; CR; LF] c = true) f.

(** A field as a text holds it: written as it stands, or between double
    quotes with each double quote of it doubled. *)
Inductive Cell :=
| PlainCell (text : list ascii)
| QuotedCell (text : list ascii).

Fixpoint escape (text : list ascii) : list ascii :=
  match text with
  | [] => []
  | c :: tl => if isChar dquote c then dquote :: dquote :: escape tl
               else c :: escape tl
  end.

Definition cellText (c : Cell) : list ascii :=
  match c with
  | PlainCell f => f
  | QuotedCell body => dquote :: escape body ++ [dquote]
  end.

(** A field written as it stands is plain; between double quotes any text
    may stand. *)
Definition wellFormed (c : Cell) : Prop :=
  match c with
  | PlainCell f => plain f
  | QuotedCell _ => True
  end.

(** The value of a field: its text, but [undefined] for the empty text
    between double quotes. *)
Definition cellValue (c : Cell) : option string :=
  match c with
  | PlainCell f => Some (string_of_list_ascii f)
  | QuotedCell [] => None
  | QuotedCell body => Some (string_of_list_ascii body)
  end.

(** The fields of a line after the first, each after a comma. *)
Fixpoint moreFields (cs : list Cell) : list ascii :=
  match cs with
  | [] => []
  | c :: cs' => comma :: cellText c ++ moreFields cs'
  end.

Definition line (row : list Cell) : list ascii :=
  match row with
  | [] => []
  | c :: cs => cellText c ++ moreFields cs
  end.

(** The line ends of a text: line feeds, or carriage returns with line
    feeds. *)
Definition lineEnd (eol : list ascii) : Prop := eol = [LF] \/ eol = [CR; LF].

(** The lines of a text after the first, each after a line end. *)
Fixpoint moreLines (eol : list ascii) (rows : list (list Cell)) : list ascii :=
  match rows with
  | [] => []
  | row :: rows' => eol ++ line row ++ moreLines eol rows'
  end.

(** The text of a table: fields joined by commas, lines by line ends. *)
Definition csvText (eol : list ascii) (rows : list (list Cell)) : list ascii :=
  match rows with
  | [] => []
  | row :: rows' => line row ++ moreLines eol rows'
  end.

(** What may follow a field: the end of the text, a comma or a line
    end. *)
Definition fieldEnd (more : list ascii) : Prop :=
  more = []
  \/ exists tl, more = comma :: tl \/ more = LF :: tl \/ more = CR :: LF :: tl.

(** Runs of text, each after two double quotes. *)
Fixpoint doubled (us : list (list ascii)) : list ascii :=
  match us with
  | [] => []
  | u :: us' => dquote :: dquote :: u ++ doubled us'
  end.

(** The part of the quoted value that is repeated: two double quotes and
    a run without double quote. *)
Definition escapedRun : Regex.re :=
  Regex.Seq (Regex.Chr (isChar dquote))
    (Regex.Seq (Regex.Chr (isChar dquote))
       (Regex.Star (Regex.Chr (isNot [dquote])))).

(** Either no row is complete yet, or the complete rows after the first
    and the row in progress hold a value each. *)
Definition filled (front : list Row) (last : Row) : Prop :=
  front = [] \/ (Forall (fun row => row <> []) (tl front) /\ last <> []).

(** The loop that matches a repetition, by itself. *)
Definition starLoop (a : Regex.re) (k : Regex.mstate -> option Regex.mstate)
  : nat -> Regex.mstate -> option Regex.mstate :=
  fix loop (n : nat) (st : Regex.mstate) {struct n} : option Regex.mstate :=
    match n with
    | O => k st
    | S n' =>
        match Regex.m a (Regex.clearCaps (Regex.groups a) st)
                (fun st' => if Nat.eqb (Regex.pos st') (Regex.pos st) then None
                            else loop n' st') with
        | Some res => Some res
        | None => k st
        end
    end.

(** The inputs on which the first match is empty: nothing at all, or an
    opening double quote that no double quote follows. *)
Definition stuck (csv : list ascii) : Prop :=
  csv = [] \/ exists t, csv = dquote :: t /\ ~ In dquote t.

(** ** Sample inputs *)

(** A text measure of seven pixels a character. *)
Definition sampleMeasure (text : string) : Q :=
  inject_Z (7 * Z.of_nat (String.length text)).

Definition sampleExtent : TimelineExtent :=
  {| ext_start := 0; ext_end := 1000 |}.

Definition sampleEvents : list Event :=
  [ {| title := "alpha"; start := 0; end_ := Some 300; color := Some "blue"%string |};
    {| title := "beta"; start := 100; end_ := Some 400; color := Some "blue"%string |};
    {| title := "gamma"; start := 20; end_ := None; color := None |};
    {| title := "alpha"; start := 700; end_ := None; color := None |} ].

Definition sampleSorted : list EventCollection :=
  [ {| events := sampleEvents; ec_title := "first" |};
    {| events := []; ec_title := "second" |} ].

(** * Properties *)

(** ** Calendar *)

Module CalendarFacts.
Import Calendar.

Lemma DayFromYear_nested y :
  DayFromYear y
  = 365 * (y - 1970) + (y - 1969) / 4 - ((y - 1969) / 4 + 17) / 25
    + (((y - 1969) / 4 + 17) / 25 + 3) / 4.
Proof.
  unfold DayFromYear.
  assert (H100 : (y - 1901) / 100 = ((y - 1969) / 4 + 17) / 25).
  { replace (y - 1901) with (y - 1969 + 17 * 4) by lia.
    replace 100 with (4 * 25) by reflexivity.
    rewrite <- Z.div_div by lia. now rewrite Z.div_add by lia. }
  assert (H400 : (y - 1601) / 400 = ((y - 1901) / 100 + 3) / 4).
  { replace (y - 1601) with (y - 1901 + 3 * 100) by lia.
    replace 400 with (100 * 4) by reflexivity.
    rewrite <- Z.div_div by lia. now rewrite Z.div_add by lia. }
  rewrite H400, H100. reflexivity.
Qed.

Lemma DayFromYear_lt y1 y2 :
  y1 < y2 -> DayFromYear y1 + 365 * (y2 - y1) <= DayFromYear y2.
Proof.
  rewrite !DayFromYear_nested. intros. Z.div_mod_to_equations. lia.
Qed.

Lemma DayFromYear_twenty y : DayFromYear (y + 20) - DayFromYear y <= 7305.
Proof.
  rewrite !DayFromYear_nested. Z.div_mod_to_equations. lia.
Qed.

Lemma DayFromYear_estimate d :
  DayFromYear (1970 + d * 400 / 146097 - 1) <= d
  /\ d < DayFromYear (1970 + d * 400 / 146097 + 2).
Proof.
  rewrite !DayFromYear_nested. Z.div_mod_to_equations. lia.
Qed.

Lemma TimeFromYear_lt y1 y2 : y1 < y2 -> TimeFromYear y1 < TimeFromYear y2.
Proof.
  intros H. pose proof (DayFromYear_lt _ _ H).
  unfold TimeFromYear, msPerDay. lia.
Qed.

Lemma TimeFromYear_twenty y :
  TimeFromYear (y + 20) - TimeFromYear y <= Spec.capMs.
Proof.
  pose proof (DayFromYear_twenty y).
  unfold TimeFromYear, Spec.capMs, msPerDay. lia.
Qed.

(** [getFullYear] returns the calendar year that contains the instant. *)
Lemma getFullYear_spec t :
  TimeFromYear (getFullYear t) <= t < TimeFromYear (getFullYear t + 1).
Proof.
  unfold getFullYear, YearFromTime, TimeFromYear, Day.
  set (d := t / msPerDay).
  assert (Hd : msPerDay * d <= t < msPerDay * (d + 1)).
  { unfold d, msPerDay. Z.div_mod_to_equations. lia. }
  set (y0 := 1970 + d * 400 / 146097).
  destruct (DayFromYear_estimate d) as [Hlo Hhi]. fold y0 in Hlo, Hhi.
  clearbody d y0. unfold msPerDay in *.
  destruct (Z.leb_spec (DayFromYear (y0 + 1)) d) as [H1 | H1].
  - replace (y0 + 1 + 1) with (y0 + 2) by lia. lia.
  - destruct (Z.leb_spec (DayFromYear y0) d) as [H0 | H0].
    + lia.
    + replace (y0 - 1 + 1) with y0 by lia. lia.
Qed.

Lemma getFullYear_TimeFromYear y : getFullYear (TimeFromYear y) = y.
Proof.
  pose proof (getFullYear_spec (TimeFromYear y)) as [Hlo Hhi].
  destruct (Z.lt_trichotomy (getFullYear (TimeFromYear y)) y) as [H | [H | H]].
  - assert (getFullYear (TimeFromYear y) + 1 <= y) by lia.
    destruct (Z.eq_dec (getFullYear (TimeFromYear y) + 1) y) as [E | E].
    + rewrite E in Hhi. lia.
    + assert (L : getFullYear (TimeFromYear y) + 1 < y) by lia.
      apply TimeFromYear_lt in L. lia.
  - exact H.
  - apply TimeFromYear_lt in H. lia.
Qed.

End CalendarFacts.

(** ** calculateExtent *)

Module ExtentFacts.
Import Calendar CalendarFacts.

Lemma fold_extentStep_start evs : forall acc,
  let r := fold_left extentStep evs acc in
  ext_start r <= ext_start acc
  /\ (forall ev, In ev evs -> ext_start r <= start ev)
  /\ (ext_start r = ext_start acc \/ exists ev, In ev evs /\ start ev = ext_start r).
Proof.
  induction evs as [| ev evs IH]; intros acc; cbn.
  - repeat split; [lia | tauto | now left].
  - destruct (IH (extentStep acc ev)) as (H1 & H2 & H3).
    assert (Hs : ext_start (extentStep acc ev) = Z.min (start ev) (ext_start acc)).
    { cbn. destruct (Z.ltb_spec (start ev) (ext_start acc)); lia. }
    rewrite Hs in *. repeat split.
    + lia.
    + intros ev' [<- | Hin]; [lia | auto].
    + destruct H3 as [H3 | (ev' & Hin & E)].
      * destruct (Z.min_spec (start ev) (ext_start acc)) as [[_ E] | [_ E]].
        -- right. exists ev. split; [now left | lia].
        -- left. lia.
      * right. exists ev'. split; [now right | exact E].
Qed.

Lemma fold_extentStep_end evs : forall acc,
  let r := fold_left extentStep evs acc in
  ext_end acc <= ext_end r
  /\ (forall ev, In ev evs -> endOrStart ev <= ext_end r).
Proof.
  induction evs as [| ev evs IH]; intros acc; cbn.
  - split; [lia | tauto].
  - destruct (IH (extentStep acc ev)) as (H1 & H2).
    assert (He : ext_end (extentStep acc ev) = Z.max (endOrStart ev) (ext_end acc)).
    { cbn. destruct (Z.ltb_spec (ext_end acc) (endOrStart ev)); lia. }
    rewrite He in *. split.
    + lia.
    + intros ev' [<- | Hin]; [lia | auto].
Qed.

(** The reduced extent starts at the earliest start, which is the start
    of one of the events, and ends no earlier than it starts. *)
Lemma reduceExtent_spec e0 rest :
  let r := reduceExtent e0 (e0 :: rest) in
  (forall ev, In ev (e0 :: rest) -> ext_start r <= start ev)
  /\ (exists ev, In ev (e0 :: rest) /\ start ev = ext_start r)
  /\ (forall ev, In ev (e0 :: rest) -> endOrStart ev <= ext_end r)
  /\ ext_start r <= ext_end r.
Proof.
  unfold reduceExtent.
  pose proof (fold_extentStep_start (e0 :: rest)
                {| ext_start := start e0; ext_end := start e0 |}) as (S1 & S2 & S3).
  pose proof (fold_extentStep_end (e0 :: rest)
                {| ext_start := start e0; ext_end := start e0 |}) as (E1 & E2).
  cbv zeta. repeat split.
  - exact S2.
  - destruct S3 as [S3 | S3]; [| exact S3].
    exists e0. split; [now left | now rewrite S3].
  - exact E2.
  - cbn [ext_start ext_end] in S1, E1. lia.
Qed.

Lemma newDateYear_plain y : plainYear y -> newDateYear y = TimeFromYear y.
Proof.
  unfold plainYear, newDateYear. intros H.
  destruct (Z.leb_spec 0 y), (Z.leb_spec y 99); cbn; try reflexivity; lia.
Qed.

Lemma newDateYear_after t : t < newDateYear (getFullYear t + 20).
Proof.
  pose proof (getFullYear_spec t) as [_ Hhi].
  assert (H1 : TimeFromYear (getFullYear t + 1) < TimeFromYear (getFullYear t + 20))
    by (apply TimeFromYear_lt; lia).
  unfold newDateYear.
  destruct ((0 <=? getFullYear t + 20) && (getFullYear t + 20 <=? 99)) eqn:E.
  - assert (H2 : TimeFromYear (getFullYear t + 20)
                 < TimeFromYear (1900 + (getFullYear t + 20)))
      by (apply TimeFromYear_lt; lia).
    lia.
  - lia.
Qed.

End ExtentFacts.

(** C3. [calculateExtent] throws exactly when the collections hold no event
    at all (the runtime's TypeError on reading [events[0].start], which is
    the failure on empty input); nothing is returned in that case, and any
    input with at least one event yields an extent. *)
Theorem calculateExtent_throws_iff_empty (collection : list EventCollection) :
  match calculateExtent collection with
  | Throw e => e = TypeError /\ flat_map events collection = []
  | Ok _ => flat_map events collection <> []
  end.
Proof.
  unfold calculateExtent.
  destruct (flat_map events collection) as [| e0 rest] eqn:E.
  - split; reflexivity.
  - destruct (20 <? _); discriminate.
Qed.

(** C4, as stated, fails: an event running from 2000-01-02 to 2020-12-30
    spans 7668 days, more than any twenty calendar years, yet the two
    calendar years differ by exactly 20, so nothing is clamped and the
    returned extent keeps the whole span. *)
Lemma calculateExtent_cap_counterexample :
  let ev := {| title := "span"; start := 946771200000;
               end_ := Some 1609286400000; color := None |} in
  let collection := [ {| events := [ev]; ec_title := "row" |} ] in
  Calendar.getFullYear (start ev) = 2000
  /\ Calendar.getFullYear (endOrStart ev) = 2020
  /\ endOrStart ev - start ev = 7668 * Calendar.msPerDay
  /\ Spec.capMs < endOrStart ev - start ev
  /\ calculateExtent collection
     = Ok {| ext_start := start ev; ext_end := endOrStart ev |}
  /\ ~ (endOrStart ev - start ev <= Spec.capMs).
Proof.
  cbv zeta. repeat split; try (vm_compute; congruence).
Qed.

(** C4, amended.  The extent always starts at the earliest start.  The cap
    is decided on calendar years: when the year of the latest end exceeds
    the year [Y] of the earliest start by more than 20, the end becomes
    [new Date(Y + 20, 0, 1)]; for a year [Y + 20] outside 0..99 that is the
    first instant of year [Y + 20], so the extent ends after it starts and
    lasts at most twenty calendar years.  When the years differ by at most
    20 the end is left as reduced. *)
Theorem calculateExtent_clamps_by_calendar_year
    (collection : list EventCollection) (ext : TimelineExtent) :
  calculateExtent collection = Ok ext ->
  exists e0 rest,
    flat_map events collection = e0 :: rest
    /\ (forall ev, In ev (e0 :: rest) -> ext_start ext <= start ev)
    /\ (exists ev, In ev (e0 :: rest) /\ start ev = ext_start ext)
    /\ let raw := reduceExtent e0 (e0 :: rest) in
       let Y := Calendar.getFullYear (ext_start ext) in
       (20 < Calendar.getFullYear (ext_end raw) - Y ->
          ext_end ext = Calendar.newDateYear (Y + 20)
          /\ (Calendar.plainYear (Y + 20) ->
                ext_end ext = Calendar.TimeFromYear (Y + 20)
                /\ Calendar.TimeFromYear Y <= ext_start ext < ext_end ext
                /\ ext_end ext - ext_start ext <= Spec.capMs))
       /\ (Calendar.getFullYear (ext_end raw) - Y <= 20 ->
             ext_end ext = ext_end raw).
Proof.
  unfold calculateExtent.
  destruct (flat_map events collection) as [| e0 rest] eqn:E; [discriminate |].
  intros H. exists e0, rest. split; [reflexivity |].
  destruct (ExtentFacts.reduceExtent_spec e0 rest) as (Hmin & Hex & _ & _).
  set (raw := reduceExtent e0 (e0 :: rest)) in *.
  assert (Hs : ext_start ext = ext_start raw).
  { destruct (20 <? _) in H; inversion H; reflexivity. }
  rewrite Hs. split; [assumption |]. split; [assumption |].
  cbv zeta. fold raw.
  destruct (Z.ltb_spec 20 (Calendar.getFullYear (ext_end raw)
                            - Calendar.getFullYear (ext_start raw))) as [Hgt | Hle];
    inversion H; subst ext; cbn [ext_start ext_end] in *; split; try lia.
  - intros _. split; [reflexivity |]. intros Hplain.
    rewrite (ExtentFacts.newDateYear_plain _ Hplain).
    pose proof (CalendarFacts.getFullYear_spec (ext_start raw)) as [Hlo Hhi].
    pose proof (CalendarFacts.TimeFromYear_twenty
                  (Calendar.getFullYear (ext_start raw))).
    assert (Calendar.TimeFromYear (Calendar.getFullYear (ext_start raw) + 1)
            < Calendar.TimeFromYear (Calendar.getFullYear (ext_start raw) + 20))
      by (apply CalendarFacts.TimeFromYear_lt; lia).
    repeat split; lia.
Qed.

Lemma calculateExtent_clamps_by_calendar_year_witness :
  let collection :=
    [ {| events := [ {| title := "first"; start := 962409600000;
                        end_ := None; color := None |} ];
         ec_title := "a" |};
      {| events := [ {| title := "last"; start := 2556144000000;
                        end_ := None; color := None |} ];
         ec_title := "b" |} ] in
  let ext := {| ext_start := 962409600000; ext_end := 1577836800000 |} in
  calculateExtent collection = Ok ext
  /\ ext_end ext = Calendar.TimeFromYear 2020
  /\ ext_end ext - ext_start ext <= Spec.capMs.
Proof.
  cbv zeta.
  match goal with |- ?c = Ok ?e /\ _ =>
    assert (H : c = Ok e) by (vm_compute; reflexivity) end.
  split; [exact H |].
  destruct (calculateExtent_clamps_by_calendar_year _ _ H)
    as (e0 & rest & Hfl & _ & _ & Hgt & _).
  cbn in Hfl. inversion Hfl; subst e0 rest; clear Hfl.
  destruct Hgt as [_ Hplain]; [vm_compute; reflexivity |].
  destruct Hplain as (He & _ & Hcap); [right; vm_compute; reflexivity |].
  split; [exact He | exact Hcap].
Defined.

(** ** Truncation to whole milliseconds *)

Module TruncFacts.
Local Open Scope Q_scope.

Lemma trunc_comp x y : x == y -> Num.trunc x = Num.trunc y.
Proof.
  intros E. unfold Num.trunc. rewrite (Qleb_comp 0 0 (Qeq_refl 0) x y E).
  destruct (Qle_bool 0 y); [now apply Qfloor_comp | now apply Qceiling_comp].
Qed.

Lemma trunc_Z z : Num.trunc (inject_Z z) = z.
Proof.
  unfold Num.trunc. destruct (Qle_bool 0 (inject_Z z));
    [apply Qfloor_Z | apply Qceiling_Z].
Qed.

Lemma trunc_le x y : x <= y -> (Num.trunc x <= Num.trunc y)%Z.
Proof.
  intros H. unfold Num.trunc.
  destruct (Qle_bool 0 x) eqn:Ex, (Qle_bool 0 y) eqn:Ey.
  - now apply Qfloor_resp_le.
  - apply Qle_bool_iff in Ex.
    assert (Qle_bool 0 y = true) by (apply Qle_bool_iff; lra). congruence.
  - assert (Hx : x <= 0).
    { destruct (Qlt_le_dec x 0) as [L | L]; [lra |].
      apply Qle_bool_iff in L. congruence. }
    apply Qle_bool_iff in Ey.
    apply Qceiling_resp_le in Hx. apply Qfloor_resp_le in Ey.
    change (Qceiling 0) with 0%Z in Hx. change (Qfloor 0) with 0%Z in Ey. lia.
  - now apply Qceiling_resp_le.
Qed.

(** Truncation moves a number by less than one. *)
Lemma trunc_near x :
  x - 1 < inject_Z (Num.trunc x) /\ inject_Z (Num.trunc x) < x + 1.
Proof.
  unfold Num.trunc. destruct (Qle_bool 0 x).
  - pose proof (Qfloor_le x). pose proof (Qlt_floor x) as L.
    rewrite inject_Z_plus in L. change (inject_Z 1) with 1 in L. lra.
  - pose proof (Qle_ceiling x). pose proof (Qceiling_lt x) as L.
    unfold Z.sub in L. rewrite inject_Z_plus, inject_Z_opp in L.
    change (inject_Z 1) with 1 in L. lra.
Qed.

End TruncFacts.

(** ** Binary64 arithmetic: rounding *)

Module PowFacts.
Local Open Scope Q_scope.

Lemma two_neq : ~ 2 == 0.
Proof. discriminate. Qed.

Lemma pow2_pos e : 0 < 2 ^ e.
Proof. apply Qpower_0_lt. reflexivity. Qed.

Lemma pow2_add a b : 2 ^ (a + b) == 2 ^ a * 2 ^ b.
Proof. apply Qpower_plus, two_neq. Qed.

Lemma pow2_le a b : (a <= b)%Z -> 2 ^ a <= 2 ^ b.
Proof. intros H. apply Qpower_le_compat_l; [exact H | discriminate]. Qed.

Lemma pow2_lt a b : (a < b)%Z -> 2 ^ a < 2 ^ b.
Proof. intros H. apply Qpower_lt_compat_l; [exact H | reflexivity]. Qed.

Lemma pow2_lt_inv a b : 2 ^ a < 2 ^ b -> (a < b)%Z.
Proof. intros H. apply (Qpower_lt_compat_l_inv 2); [exact H | reflexivity]. Qed.

Lemma pow2_Z n : (0 <= n)%Z -> 2 ^ n == inject_Z (2 ^ n).
Proof. intros H. symmetry. apply (Zpower_Qpower 2 n H). Qed.

Lemma pow2_succ a : 2 ^ (a + 1) == 2 * 2 ^ a.
Proof. rewrite pow2_add. change (2 ^ 1) with 2. ring. Qed.

Lemma pow2_pred a : 2 ^ (a - 1) == 2 ^ a / 2.
Proof.
  unfold Z.sub. rewrite pow2_add. change (2 ^ (- (1))) with (/ 2). reflexivity.
Qed.

End PowFacts.

Module LogFacts.
Import Double PowFacts.
Local Open Scope Q_scope.

Lemma Qabs_num_den x : Qabs x * inject_Z (Zpos (Qden x)) == inject_Z (Z.abs (Qnum x)).
Proof.
  destruct x as [n d]. unfold Qabs, Qeq, Qmult, inject_Z. cbn. lia.
Qed.

Lemma num_pos x : ~ x == 0 -> (0 < Z.abs (Qnum x))%Z.
Proof.
  destruct x as [n d]. unfold Qeq. cbn. lia.
Qed.

Lemma ilog2_spec x :
  ~ x == 0 -> 2 ^ ilog2 x <= Qabs x /\ Qabs x < 2 ^ (ilog2 x + 1).
Proof.
  intros Hx. unfold ilog2.
  set (n := Z.abs (Qnum x)). set (d := Zpos (Qden x)).
  set (a := Z.log2 n). set (b := Z.log2 d).
  assert (Hn : (0 < n)%Z) by (now apply num_pos).
  assert (Hd : (0 < d)%Z) by reflexivity.
  destruct (Z.log2_spec n Hn) as [Ln Un]. fold a in Ln, Un.
  destruct (Z.log2_spec d Hd) as [Ld Ud]. fold b in Ld, Ud.
  assert (Ha : (0 <= a)%Z) by apply Z.log2_nonneg.
  assert (Hb : (0 <= b)%Z) by apply Z.log2_nonneg.
  pose proof (Qabs_num_den x) as E. fold n d in E.
  assert (Ln' : 2 ^ a <= inject_Z n) by (rewrite pow2_Z by lia; now rewrite <- Zle_Qle).
  assert (Un' : inject_Z n < 2 ^ (a + 1))
    by (rewrite (pow2_Z (a + 1)) by lia; rewrite <- Zlt_Qlt;
        now rewrite <- Z.add_1_r in Un).
  assert (Ld' : 2 ^ b <= inject_Z d) by (rewrite pow2_Z by lia; now rewrite <- Zle_Qle).
  assert (Ud' : inject_Z d < 2 ^ (b + 1))
    by (rewrite (pow2_Z (b + 1)) by lia; rewrite <- Zlt_Qlt;
        now rewrite <- Z.add_1_r in Ud).
  pose proof (Qabs_nonneg x) as Hnn.
  pose proof (pow2_pos b) as Pb.
  assert (Hlow : 2 ^ (a - b - 1) < Qabs x).
  { (* 2^(a-b-1) * 2^(b+1) = 2^a <= n = |x| d < |x| 2^(b+1) *)
    assert (P : 0 < 2 ^ (b + 1)) by apply pow2_pos.
    apply (Qmult_lt_r _ _ _ P).
    rewrite <- pow2_add. replace (a - b - 1 + (b + 1))%Z with a by lia.
    apply Qle_lt_trans with (inject_Z n); [exact Ln' |].
    rewrite <- E.
    assert (Hpos : 0 < Qabs x).
    { destruct (Qlt_le_dec 0 (Qabs x)) as [L | L]; [exact L |].
      exfalso. assert (Z0 : Qabs x == 0) by lra.
      rewrite Z0 in E. rewrite Qmult_0_l in E.
      assert (inject_Z 0 < inject_Z n) by (now rewrite <- Zlt_Qlt).
      change (inject_Z 0) with 0 in H. lra. }
    apply Qmult_lt_l; assumption. }
  assert (Hup : Qabs x < 2 ^ (a - b + 1)).
  { apply (Qmult_lt_r _ _ _ Pb).
    rewrite <- pow2_add. replace (a - b + 1 + b)%Z with (a + 1)%Z by lia.
    apply Qle_lt_trans with (inject_Z n); [| exact Un'].
    rewrite <- E. nra. }
  destruct (Qle_bool (2 ^ (a - b)) (Qabs x)) eqn:C.
  - apply Qle_bool_iff in C. split; assumption.
  - split.
    + apply Qlt_le_weak. exact Hlow.
    + replace (a - b - 1 + 1)%Z with (a - b)%Z by lia.
      destruct (Qlt_le_dec (Qabs x) (2 ^ (a - b))) as [L | L]; [exact L |].
      apply Qle_bool_iff in L. congruence.
Qed.

End LogFacts.

Module RoundFacts.
Import Double PowFacts LogFacts.
Local Open Scope Q_scope.

Lemma ilog2_unique x l :
  2 ^ l <= Qabs x -> Qabs x < 2 ^ (l + 1) -> ilog2 x = l.
Proof.
  intros L U.
  assert (Hx : ~ x == 0).
  { intros E. rewrite E in L. change (Qabs 0) with 0 in L.
    pose proof (pow2_pos l). lra. }
  destruct (ilog2_spec x Hx) as [L' U'].
  assert (A : (ilog2 x < l + 1)%Z) by (apply pow2_lt_inv; lra).
  assert (B : (l < ilog2 x + 1)%Z) by (apply pow2_lt_inv; lra).
  lia.
Qed.

Lemma ilog2_comp x y : x == y -> ~ x == 0 -> ilog2 x = ilog2 y.
Proof.
  intros E Hx. symmetry. destruct (ilog2_spec x Hx) as [L U].
  apply ilog2_unique; now rewrite <- E.
Qed.

Lemma ilog2_opp x : ~ x == 0 -> ilog2 (- x) = ilog2 x.
Proof.
  intros Hx. destruct (ilog2_spec x Hx) as [L U].
  apply ilog2_unique; now rewrite Qabs_opp.
Qed.

Lemma ilog2_mono x y :
  ~ x == 0 -> Qabs x <= Qabs y -> (ilog2 x <= ilog2 y)%Z.
Proof.
  intros Hx H.
  assert (Hy : ~ y == 0).
  { intros E. rewrite E in H. change (Qabs 0) with 0 in H.
    destruct (ilog2_spec x Hx) as [L _]. pose proof (pow2_pos (ilog2 x)). lra. }
  destruct (ilog2_spec x Hx) as [L _]. destruct (ilog2_spec y Hy) as [_ U].
  assert (A : (ilog2 x < ilog2 y + 1)%Z) by (apply pow2_lt_inv; lra).
  lia.
Qed.

(** ** Rounding to the nearest integer *)

Lemma nearestEven_spec y : isNearest y (nearestEven y).
Proof.
  unfold isNearest, nearestEven.
  pose proof (Qfloor_le y) as Lf. pose proof (Qlt_floor y) as Uf.
  rewrite inject_Z_plus in Uf. change (inject_Z 1) with 1 in Uf.
  destruct (Qcompare_spec (y - inject_Z (Qfloor y)) (1 # 2)) as [E | L | G].
  - destruct (Z.even (Qfloor y)) eqn:Ev.
    + right. split; [| exact Ev]. apply Qabs_case; intros; lra.
    + right. split.
      * rewrite inject_Z_plus. change (inject_Z 1) with 1.
        apply Qabs_case; intros; lra.
      * rewrite Z.even_add, Ev. reflexivity.
  - left. apply Qabs_case; intros; lra.
  - left. rewrite inject_Z_plus. change (inject_Z 1) with 1.
    apply Qabs_case; intros; lra.
Qed.

Lemma near_Z_eq (n m : Z) :
  inject_Z n - inject_Z m < 1 -> inject_Z m - inject_Z n < 1 -> n = m.
Proof.
  intros A B.
  assert (A' : inject_Z n < inject_Z (m + 1))
    by (rewrite inject_Z_plus; change (inject_Z 1) with 1; lra).
  assert (B' : inject_Z m < inject_Z (n + 1))
    by (rewrite inject_Z_plus; change (inject_Z 1) with 1; lra).
  rewrite <- Zlt_Qlt in A', B'. lia.
Qed.

Lemma isNearest_unique y n m : isNearest y n -> isNearest y m -> n = m.
Proof.
  intros Hn Hm.
  destruct (Z.eq_dec n m) as [E | NE]; [exact E | exfalso].
  assert (Dn : Qabs (inject_Z n - y) <= 1 # 2) by (destruct Hn as [? | [? _]]; lra).
  assert (Dm : Qabs (inject_Z m - y) <= 1 # 2) by (destruct Hm as [? | [? _]]; lra).
  apply Qabs_Qle_condition in Dn, Dm.
  assert (C : (n = m + 1 \/ m = n + 1)%Z).
  { assert (A : inject_Z n <= inject_Z (m + 1))
      by (rewrite inject_Z_plus; change (inject_Z 1) with 1; lra).
    assert (B : inject_Z m <= inject_Z (n + 1))
      by (rewrite inject_Z_plus; change (inject_Z 1) with 1; lra).
    rewrite <- Zle_Qle in A, B. lia. }
  assert (Tn : Qabs (inject_Z n - y) == 1 # 2 /\ Qabs (inject_Z m - y) == 1 # 2).
  { destruct C as [-> | ->]; rewrite inject_Z_plus in *;
      change (inject_Z 1) with 1 in *;
      split; apply Qabs_case; intros; lra. }
  destruct Tn as [Tn Tm].
  destruct Hn as [Hn | [_ En]]; [lra |].
  destruct Hm as [Hm | [_ Em]]; [lra |].
  destruct C as [-> | ->]; rewrite Z.even_add in *;
    [rewrite Em in En | rewrite En in Em]; discriminate.
Qed.

Lemma nearestEven_comp x y : x == y -> nearestEven x = nearestEven y.
Proof.
  intros E. apply (isNearest_unique y); [| apply nearestEven_spec].
  pose proof (nearestEven_spec x) as H. unfold isNearest in *.
  now rewrite <- E.
Qed.

Lemma nearestEven_Z n : nearestEven (inject_Z n) = n.
Proof.
  apply (isNearest_unique (inject_Z n)); [apply nearestEven_spec |].
  left. setoid_replace (inject_Z n - inject_Z n) with 0 by ring. reflexivity.
Qed.

Lemma nearestEven_opp y : nearestEven (- y) = (- nearestEven y)%Z.
Proof.
  apply (isNearest_unique (- y)); [apply nearestEven_spec |].
  pose proof (nearestEven_spec y) as H. unfold isNearest in *.
  rewrite inject_Z_opp.
  setoid_replace (- inject_Z (nearestEven y) - - y)
    with (- (inject_Z (nearestEven y) - y)) by ring.
  rewrite Qabs_opp, Z.even_opp. exact H.
Qed.

Lemma nearestEven_err y : Qabs (inject_Z (nearestEven y) - y) <= 1 # 2.
Proof. destruct (nearestEven_spec y) as [H | [H _]]; lra. Qed.

Lemma nearestEven_mono x y : x <= y -> (nearestEven x <= nearestEven y)%Z.
Proof.
  intros H.
  destruct (Z.le_gt_cases (nearestEven x) (nearestEven y)) as [L | G];
    [exact L | exfalso].
  pose proof (nearestEven_err x) as Ex. pose proof (nearestEven_err y) as Ey.
  apply Qabs_Qle_condition in Ex, Ey.
  assert (G' : inject_Z (nearestEven y) + 1 <= inject_Z (nearestEven x)).
  { change 1 with (inject_Z 1). rewrite <- inject_Z_plus, <- Zle_Qle. lia. }
  assert (E : x == y) by lra.
  apply nearestEven_comp in E. lia.
Qed.

End RoundFacts.

Module RndFacts.
Import Double PowFacts LogFacts RoundFacts.
Local Open Scope Q_scope.

Lemma u_pow : u == 2 ^ (-53).
Proof. reflexivity. Qed.

Lemma rnd_0 x : x == 0 -> rnd x = 0.
Proof. intros E. unfold rnd. apply Qeq_bool_iff in E. now rewrite E. Qed.

Lemma rnd_eq x :
  ~ x == 0 ->
  rnd x == inject_Z (nearestEven (x / 2 ^ ulpExp x)) * 2 ^ ulpExp x.
Proof.
  intros Hx. unfold rnd. destruct (Qeq_bool x 0) eqn:E.
  - apply Qeq_bool_iff in E. contradiction.
  - apply Qred_correct.
Qed.

Lemma ulpExp_comp x y : x == y -> ~ x == 0 -> ulpExp x = ulpExp y.
Proof. intros E Hx. unfold ulpExp. now rewrite (ilog2_comp x y E Hx). Qed.

Lemma rnd_comp x y : x == y -> rnd x == rnd y.
Proof.
  intros E. destruct (Qeq_dec x 0) as [Zx | NZ].
  - assert (Zy : y == 0) by lra.
    rewrite (rnd_0 x Zx), (rnd_0 y Zy). reflexivity.
  - assert (NZy : ~ y == 0) by (intros Zy; apply NZ; lra).
    rewrite (rnd_eq x NZ), (rnd_eq y NZy), <- (ulpExp_comp x y E NZ).
    generalize (2 ^ ulpExp x). intros p.
    assert (E2 : x / p == y / p) by (now rewrite E).
    now rewrite (nearestEven_comp _ _ E2).
Qed.

#[global] Instance rnd_wd : Proper (Qeq ==> Qeq) rnd.
Proof. intros x y E. now apply rnd_comp. Qed.

Lemma rnd_opp x : rnd (- x) == - rnd x.
Proof.
  destruct (Qeq_dec x 0) as [Zx | NZ].
  - assert (Zy : - x == 0) by lra.
    rewrite (rnd_0 x Zx), (rnd_0 (- x) Zy). reflexivity.
  - assert (NZ' : ~ - x == 0) by (intros E; apply NZ; lra).
    rewrite (rnd_eq x NZ), (rnd_eq (- x) NZ').
    assert (Eu : ulpExp (- x) = ulpExp x)
      by (unfold ulpExp; now rewrite ilog2_opp).
    rewrite Eu.
    assert (E2 : - x / 2 ^ ulpExp x == - (x / 2 ^ ulpExp x))
      by (field; pose proof (pow2_pos (ulpExp x)); lra).
    rewrite (nearestEven_comp _ _ E2), nearestEven_opp, inject_Z_opp. ring.
Qed.

(** The error of a rounding is at most half a unit in the last place. *)
Lemma rnd_err_ulp x :
  ~ x == 0 -> Qabs (rnd x - x) <= 2 ^ ulpExp x / 2.
Proof.
  intros NZ. rewrite (rnd_eq x NZ).
  set (p := 2 ^ ulpExp x). assert (P : 0 < p) by apply pow2_pos.
  pose proof (nearestEven_err (x / p)) as H.
  set (n := inject_Z (nearestEven (x / p))) in *.
  assert (E : n * p - x == (n - x / p) * p) by (field; lra).
  rewrite E, Qabs_Qmult, (Qabs_pos p) by lra.
  assert (0 <= Qabs (n - x / p)) by apply Qabs_nonneg.
  set (a := Qabs (n - x / p)) in *.
  unfold Qdiv. change (/ 2) with (1 # 2). nra.
Qed.

(** In the normal range the relative error is at most [2^-53]. *)
Lemma rnd_err_rel x :
  2 ^ (-1022) <= Qabs x -> Qabs (rnd x - x) <= u * Qabs x.
Proof.
  intros H.
  assert (NZ : ~ x == 0).
  { intros E. rewrite E in H. change (Qabs 0) with 0 in H.
    pose proof (pow2_pos (-1022)). lra. }
  destruct (ilog2_spec x NZ) as [L U].
  assert (Hl : (-1022 <= ilog2 x)%Z).
  { assert (A : (-1022 < ilog2 x + 1)%Z) by (apply pow2_lt_inv; lra). lia. }
  pose proof (rnd_err_ulp x NZ) as E.
  unfold ulpExp in E. rewrite Z.max_l in E by lia.
  replace (ilog2 x - 52)%Z with (ilog2 x + -52)%Z in E by lia.
  rewrite pow2_add in E. change (2 ^ (-52)) with (1 # 4503599627370496) in E.
  unfold u. unfold Qdiv in E. change (/ 2) with (1 # 2) in E.
  pose proof (pow2_pos (ilog2 x)). nra.
Qed.

(** Below the normal range the error is at most half the least positive
    number. *)
Lemma rnd_err x : Qabs (rnd x - x) <= u * Qabs x + 2 ^ (-1075).
Proof.
  pose proof (Qabs_nonneg x) as Hn. pose proof (pow2_pos (-1075)) as Pt.
  destruct (Qeq_dec x 0) as [Zx | NZ].
  - rewrite (rnd_0 x Zx). setoid_replace (0 - x) with 0 by lra.
    change (Qabs 0) with 0. unfold u. nra.
  - destruct (Z.le_gt_cases (-1022) (ilog2 x)) as [Hl | Hl].
    + assert (H : 2 ^ (-1022) <= Qabs x).
      { destruct (ilog2_spec x NZ) as [L _].
        pose proof (pow2_le _ _ Hl). lra. }
      pose proof (rnd_err_rel x H). lra.
    + pose proof (rnd_err_ulp x NZ) as E.
      unfold ulpExp in E. rewrite Z.max_r in E by lia.
      change (2 ^ (-1074) / 2) with (2 ^ (-1075)) in E.
      unfold u. nra.
Qed.

Lemma rnd_nonneg x : 0 <= x -> 0 <= rnd x.
Proof.
  intros H. destruct (Qeq_dec x 0) as [Zx | NZ].
  - rewrite (rnd_0 x Zx). lra.
  - rewrite (rnd_eq x NZ). pose proof (pow2_pos (ulpExp x)) as P.
    apply Qmult_le_0_compat; [| lra].
    change 0 with (inject_Z 0). rewrite <- Zle_Qle, <- (nearestEven_Z 0).
    apply nearestEven_mono. change (inject_Z 0) with 0.
    apply Qle_shift_div_l; [exact P | lra].
Qed.

Lemma rnd_mono_pos x y : 0 < x -> x <= y -> rnd x <= rnd y.
Proof.
  intros Hx H.
  assert (NZx : ~ x == 0) by lra. assert (NZy : ~ y == 0) by lra.
  assert (Al : (ilog2 x <= ilog2 y)%Z).
  { apply ilog2_mono; [exact NZx |]. rewrite !Qabs_pos by lra. exact H. }
  rewrite (rnd_eq x NZx), (rnd_eq y NZy).
  set (ex := ulpExp x). set (ey := ulpExp y).
  pose proof (pow2_pos ex) as Px. pose proof (pow2_pos ey) as Py.
  destruct (Z.eq_dec ex ey) as [E | NE].
  - rewrite E. apply Qmult_le_compat_r; [| lra].
    rewrite <- Zle_Qle. apply nearestEven_mono.
    apply Qmult_le_compat_r; [exact H |]. apply Qinv_le_0_compat. lra.
  - assert (Lt : (ex + 1 <= ey)%Z) by (unfold ex, ey, ulpExp in *; lia).
    assert (Ey : ey = (ilog2 y - 52)%Z) by (unfold ex, ey, ulpExp in *; lia).
    assert (Ex : (ilog2 x - 52 <= ex)%Z) by (unfold ex, ulpExp; lia).
    destruct (ilog2_spec x NZx) as [_ Ux]. destruct (ilog2_spec y NZy) as [Ly _].
    rewrite Qabs_pos in Ux, Ly by lra.
    (* rnd x <= 2^(ex+53) <= 2^(ey+52) <= rnd y *)
    apply Qle_trans with (2 ^ (ex + 53)).
    + rewrite (Z.add_comm ex 53), pow2_add.
      apply Qmult_le_compat_r; [| lra].
      rewrite (pow2_Z 53) by lia. rewrite <- Zle_Qle.
      rewrite <- (nearestEven_Z (2 ^ 53)). apply nearestEven_mono.
      rewrite <- (pow2_Z 53) by lia.
      apply Qle_shift_div_r; [exact Px |]. rewrite <- pow2_add.
      assert (2 ^ (ilog2 x + 1) <= 2 ^ (53 + ex)) by (apply pow2_le; lia).
      lra.
    + apply Qle_trans with (2 ^ (ey + 52)); [apply pow2_le; lia |].
      rewrite (Z.add_comm ey 52), pow2_add.
      apply Qmult_le_compat_r; [| lra].
      rewrite (pow2_Z 52) by lia. rewrite <- Zle_Qle.
      rewrite <- (nearestEven_Z (2 ^ 52)). apply nearestEven_mono.
      rewrite <- (pow2_Z 52) by lia.
      apply Qle_shift_div_l; [exact Py |]. rewrite <- pow2_add.
      replace (52 + ey)%Z with (ilog2 y) by lia. exact Ly.
Qed.

(** Rounding is monotone. *)
Lemma rnd_mono x y : x <= y -> rnd x <= rnd y.
Proof.
  intros H.
  destruct (Qlt_le_dec 0 x) as [Px | Nx].
  - now apply rnd_mono_pos.
  - destruct (Qlt_le_dec y 0) as [Ny | Py].
    + assert (A : rnd (- y) <= rnd (- x)) by (apply rnd_mono_pos; lra).
      rewrite !rnd_opp in A. lra.
    + pose proof (rnd_nonneg y Py).
      assert (B : 0 <= rnd (- x)) by (apply rnd_nonneg; lra).
      rewrite rnd_opp in B. lra.
Qed.

(** A number with at most 53 significant bits above the least exponent is
    its own rounding. *)
Lemma rnd_exact x k j :
  x == inject_Z k * 2 ^ j -> (Z.abs k < 2 ^ 53)%Z -> (-1074 <= j)%Z ->
  rnd x == x.
Proof.
  intros E Hk Hj.
  destruct (Qeq_dec x 0) as [Zx | NZ]; [rewrite (rnd_0 x Zx); lra |].
  rewrite (rnd_eq x NZ).
  set (e := ulpExp x). pose proof (pow2_pos e) as Pe. pose proof (pow2_pos j) as Pj.
  assert (Le : (e <= j)%Z).
  { destruct (Z.le_gt_cases e j) as [L | G]; [exact L | exfalso].
    assert (Ee : e = (ilog2 x - 52)%Z) by (unfold e, ulpExp in *; lia).
    destruct (ilog2_spec x NZ) as [L _].
    assert (Ax : Qabs x == Qabs (inject_Z k) * 2 ^ j)
      by (rewrite E, Qabs_Qmult, (Qabs_pos (2 ^ j)) by lra; reflexivity).
    rewrite Ax in L.
    assert (Hk' : Qabs (inject_Z k) < 2 ^ 53).
    { rewrite (pow2_Z 53) by lia. unfold inject_Z at 1. unfold Qabs.
      change (Z.abs k # 1) with (inject_Z (Z.abs k)). now rewrite <- Zlt_Qlt. }
    assert (B : 2 ^ ilog2 x < 2 ^ (53 + j)).
    { rewrite pow2_add. pose proof (Qabs_nonneg (inject_Z k)). nra. }
    apply pow2_lt_inv in B. lia. }
  assert (Ex : x / 2 ^ e == inject_Z (k * 2 ^ (j - e))).
  { rewrite E, inject_Z_mult, <- (pow2_Z (j - e)) by lia.
    unfold Z.sub. rewrite pow2_add, Qpower_opp. field. lra. }
  rewrite (nearestEven_comp _ _ Ex), nearestEven_Z, <- Ex. field. lra.
Qed.

Lemma rnd_Z n : (Z.abs n <= 2 ^ 53)%Z -> rnd (inject_Z n) == inject_Z n.
Proof.
  intros H. destruct (Z.eq_dec (Z.abs n) (2 ^ 53)) as [E | NE].
  - apply (rnd_exact _ (n / 2) 1).
    + change (2 ^ 1) with 2. change 2 with (inject_Z 2).
      rewrite <- inject_Z_mult. apply inject_Z_injective.
      assert (n = 2 ^ 53 \/ n = - 2 ^ 53)%Z as [-> | ->] by lia; reflexivity.
    + assert (n = 2 ^ 53 \/ n = - 2 ^ 53)%Z as [-> | ->] by lia; reflexivity.
    + lia.
  - apply (rnd_exact _ n 0); [change (2 ^ 0) with 1; ring | lia | lia].
Qed.

End RndFacts.


Module DoubleFacts.
Import Double PowFacts LogFacts RoundFacts RndFacts.
Local Open Scope Q_scope.

Lemma zero_val n : val (zero n) == 0.
Proof. destruct n; reflexivity. Qed.

Lemma zero_finite n : finite (zero n) = true.
Proof. destruct n; reflexivity. Qed.

(** A finite result is the rounding of the exact value. *)
Lemma round_val x : finite (round x) = true -> val (round x) == rnd x.
Proof.
  unfold round. destruct (Qle_bool (2 ^ 1024) (Qabs (rnd x))); [discriminate |].
  destruct (Qeq_bool (rnd x) 0) eqn:E; intros _.
  - apply Qeq_bool_iff in E. now rewrite zero_val, E.
  - reflexivity.
Qed.

(** A result that is not finite is an infinity: the rounding has reached
    [2^1024]. *)
Lemma round_overflow x :
  finite (round x) = false ->
  2 ^ 1024 <= Qabs (rnd x) /\ round x = Inf (negb (Qle_bool 0 x)).
Proof.
  unfold round. destruct (Qle_bool (2 ^ 1024) (Qabs (rnd x))) eqn:E.
  - intros _. apply Qle_bool_iff in E. now split.
  - destruct (Qeq_bool (rnd x) 0); [now rewrite zero_finite | discriminate].
Qed.

(** A rounding that stays below [2^1024] is finite. *)
Lemma round_finite x : Qabs (rnd x) < 2 ^ 1024 -> finite (round x) = true.
Proof.
  intros H. destruct (finite (round x)) eqn:F; [reflexivity |].
  apply round_overflow in F. lra.
Qed.

Lemma ofQ_val x : finite (ofQ x) = true -> val (ofQ x) == rnd x.
Proof.
  unfold ofQ. destruct (Qeq_bool x 0) eqn:E.
  - intros _. apply Qeq_bool_iff in E. now rewrite (rnd_0 x E).
  - apply round_val.
Qed.

Lemma rnd_abs_le x b k j :
  Qabs x <= b -> b == inject_Z k * 2 ^ j -> (Z.abs k < 2 ^ 53)%Z ->
  (-1074 <= j)%Z -> Qabs (rnd x) <= b.
Proof.
  intros H Eb Hk Hj. apply Qabs_Qle_condition in H.
  pose proof (rnd_exact b k j Eb Hk Hj) as Rb.
  assert (Rb' : rnd (- b) == - b) by (rewrite rnd_opp, Rb; reflexivity).
  apply Qabs_Qle_condition. split.
  - rewrite <- Rb'. apply rnd_mono. lra.
  - rewrite <- Rb. apply rnd_mono. lra.
Qed.

(** Integers of magnitude up to [2^53] are Number values. *)
Lemma ofZ_val z :
  (Z.abs z <= 2 ^ 53)%Z -> finite (ofZ z) = true /\ val (ofZ z) == inject_Z z.
Proof.
  intros H. pose proof (rnd_Z z H) as R.
  assert (F : finite (ofZ z) = true).
  { unfold ofZ, ofQ. destruct (Qeq_bool (inject_Z z) 0); [reflexivity |].
    apply round_finite. rewrite R.
    apply Qle_lt_trans with (2 ^ 53); [| apply pow2_lt; lia].
    rewrite (pow2_Z 53) by lia. unfold inject_Z at 1. unfold Qabs.
    change (Z.abs z # 1) with (inject_Z (Z.abs z)). now rewrite <- Zle_Qle. }
  split; [exact F |]. now rewrite (ofQ_val _ F).
Qed.

Lemma opp_val a : val (opp a) == - val a.
Proof.
  destruct a as [q | | n |]; cbn; try reflexivity.
  destruct (Qeq_bool q 0) eqn:E; cbn; [| reflexivity].
  apply Qeq_bool_iff in E. lra.
Qed.

Lemma opp_finite a : finite (opp a) = finite a.
Proof.
  destruct a as [q | | n |]; cbn; try reflexivity.
  destruct (Qeq_bool q 0); reflexivity.
Qed.

Lemma add_finite_val a b :
  finite a = true -> finite b = true -> finite (add a b) = true ->
  val (add a b) == rnd (val a + val b).
Proof.
  intros Fa Fb.
  assert (G : forall x, finite (if Qeq_bool x 0 then Fin 0 else round x) = true ->
                        val (if Qeq_bool x 0 then Fin 0 else round x) == rnd x).
  { intros x. destruct (Qeq_bool x 0) eqn:E.
    - intros _. apply Qeq_bool_iff in E. now rewrite (rnd_0 x E).
    - apply round_val. }
  destruct a as [p | | n |], b as [q | | m |]; try discriminate; cbn [add val].
  - apply G.
  - apply G.
  - apply G.
  - intros _. rewrite rnd_0; reflexivity.
Qed.

Lemma add_spec a b :
  finite (add a b) = true ->
  finite a = true /\ finite b = true /\ val (add a b) == rnd (val a + val b).
Proof.
  intros F.
  assert (Fa : finite a = true /\ finite b = true).
  { destruct a as [p | | n |], b as [q | | m |]; cbn in *; try (split; reflexivity);
      try discriminate.
    destruct (Bool.eqb n m); discriminate. }
  destruct Fa as [Fa Fb]. repeat split; try assumption.
  now apply add_finite_val.
Qed.

Lemma sub_spec a b :
  finite (sub a b) = true ->
  finite a = true /\ finite b = true /\ val (sub a b) == rnd (val a - val b).
Proof.
  unfold sub. intros F. destruct (add_spec a (opp b) F) as (Fa & Fb & V).
  rewrite opp_finite in Fb. repeat split; try assumption.
  rewrite V. apply rnd_comp. rewrite opp_val. reflexivity.
Qed.

Lemma mul_spec a b :
  finite (mul a b) = true ->
  finite a = true /\ finite b = true /\ val (mul a b) == rnd (val a * val b).
Proof.
  intros F.
  assert (G : forall x s, finite (if Qeq_bool x 0 then zero s else round x) = true ->
                          val (if Qeq_bool x 0 then zero s else round x) == rnd x).
  { intros x s. destruct (Qeq_bool x 0) eqn:E.
    - intros _. apply Qeq_bool_iff in E. now rewrite (rnd_0 x E), zero_val.
    - apply round_val. }
  destruct a as [p | | n |], b as [q | | m |]; cbn [mul] in F |- *;
    try discriminate;
    try (destruct (isZero _); discriminate);
    (split; [reflexivity | split; [reflexivity |]]); now apply G.
Qed.

Lemma isZero_val a : finite a = true -> (isZero a = true <-> val a == 0).
Proof.
  destruct a as [q | | n |]; cbn; try discriminate; intros _.
  - apply Qeq_bool_iff.
  - split; reflexivity.
Qed.

(** A finite quotient has a finite dividend; its divisor is an infinity,
    the quotient being a zero, or finite and not zero. *)
Lemma div_spec a b :
  finite (div a b) = true ->
  finite a = true
  /\ ((finite b = true /\ ~ val b == 0 /\ val (div a b) == rnd (val a / val b))
      \/ (exists m, b = Inf m) /\ val (div a b) == 0).
Proof.
  intros F.
  assert (G : forall x s, finite (if Qeq_bool x 0 then zero s else round x) = true ->
                          val (if Qeq_bool x 0 then zero s else round x) == rnd x).
  { intros x s. destruct (Qeq_bool x 0) eqn:E.
    - intros _. apply Qeq_bool_iff in E. now rewrite (rnd_0 x E), zero_val.
    - apply round_val. }
  assert (H : forall a b, finite a = true -> finite b = true ->
                finite (div a b) = true ->
                ~ val b == 0 /\ val (div a b) == rnd (val a / val b)).
  { intros a' b' Fa Fb F'.
    assert (E : div a' b'
                = if isZero b' then
                    if isZero a' then NaN else Inf (xorb (sign a') (sign b'))
                  else if Qeq_bool (val a' / val b') 0
                       then zero (xorb (sign a') (sign b'))
                       else round (val a' / val b')).
    { destruct a' as [p | | n |], b' as [q | | m |]; try discriminate; reflexivity. }
    rewrite E in F' |- *. destruct (isZero b') eqn:Zb.
    - destruct (isZero a'); discriminate.
    - split; [| now apply G].
      intros V. apply (isZero_val b' Fb) in V. congruence. }
  assert (Fa : finite a = true).
  { destruct a as [p | | n |]; try reflexivity; destruct b; discriminate. }
  split; [exact Fa |].
  destruct b as [q | | m |].
  - left. split; [reflexivity |]. now apply H.
  - left. split; [reflexivity |]. now apply H.
  - right. split; [eauto |].
    destruct a as [p | | n |]; try discriminate; cbn; apply zero_val.
  - destruct a; discriminate.
Qed.

(** A valid Date comes from a finite value within the range of time
    values, truncated. *)
Lemma newDate_spec x t :
  newDate x = Some t ->
  finite x = true /\ t = Num.trunc (val x)
  /\ Qabs (val x) <= inject_Z maxTime.
Proof.
  destruct x as [q | | n |]; cbn; try discriminate.
  - destruct (Qle_bool (Qabs q) (inject_Z maxTime)) eqn:E; [| discriminate].
    intros H. inversion H. apply Qle_bool_iff in E. now repeat split.
  - intros H. inversion H. repeat split. change (Qabs 0) with 0.
    change 0 with (inject_Z 0). rewrite <- Zle_Qle. discriminate.
Qed.

Lemma getTime_val t :
  (Z.abs t <= maxTime)%Z ->
  finite (getTime (Some t)) = true /\ val (getTime (Some t)) == inject_Z t.
Proof.
  intros H. apply ofZ_val. unfold maxTime in H.
  assert (8640000000000000 < 2 ^ 53)%Z by reflexivity. lia.
Qed.

Lemma extent_inj a b c d :
  {| ext_start := a; ext_end := b |} = {| ext_start := c; ext_end := d |} ->
  a = c /\ b = d.
Proof. intros H. now inversion H. Qed.

End DoubleFacts.


Module PanDouble.
Import Double PowFacts RndFacts DoubleFacts.
Local Open Scope Q_scope.

(** What a pan that yields valid Dates has computed: one finite shift
    [v], taken from both bounds, each difference rounded and truncated. *)
Lemma pan_inv w d s e s' e' :
  calculateNewPan w d (Some s) (Some e)
  = {| ext_start := Some s'; ext_end := Some e' |} ->
  (Z.abs s <= maxTime)%Z -> (Z.abs e <= maxTime)%Z ->
  exists sh,
    sh = div d (div (ofZ w) (sub (getTime (Some e)) (getTime (Some s))))
    /\ finite sh = true
    /\ s' = Num.trunc (rnd (inject_Z s - val sh))
    /\ e' = Num.trunc (rnd (inject_Z e - val sh))
    /\ Qabs (rnd (inject_Z s - val sh)) <= inject_Z maxTime
    /\ Qabs (rnd (inject_Z e - val sh)) <= inject_Z maxTime.
Proof.
  intros H Vs Ve. unfold calculateNewPan in H.
  set (sh := div d (div (ofZ w) (sub (getTime (Some e)) (getTime (Some s))))) in *.
  apply extent_inj in H. destruct H as [Hs He].
  apply newDate_spec in Hs, He.
  destruct Hs as (Fs & Ts & Bs). destruct He as (Fe & Te & Be).
  destruct (sub_spec _ _ Fs) as (_ & Fsh & Vs').
  destruct (sub_spec _ _ Fe) as (_ & _ & Ve').
  destruct (getTime_val s Vs) as [_ Gs]. destruct (getTime_val e Ve) as [_ Ge].
  assert (Rs : val (sub (getTime (Some s)) sh) == rnd (inject_Z s - val sh)).
  { rewrite Vs'. apply rnd_comp. now rewrite Gs. }
  assert (Re : val (sub (getTime (Some e)) sh) == rnd (inject_Z e - val sh)).
  { rewrite Ve'. apply rnd_comp. now rewrite Ge. }
  exists sh. split; [reflexivity |]. split; [exact Fsh |].
  split; [rewrite Ts; now apply TruncFacts.trunc_comp |].
  split; [rewrite Te; now apply TruncFacts.trunc_comp |].
  split; [now rewrite <- Rs | now rewrite <- Re].
Qed.

Lemma pan_order w d s e s' e' :
  calculateNewPan w d (Some s) (Some e)
  = {| ext_start := Some s'; ext_end := Some e' |} ->
  (Z.abs s <= maxTime)%Z -> (Z.abs e <= maxTime)%Z ->
  (s <= e)%Z -> (s' <= e')%Z.
Proof.
  intros H Vs Ve L.
  destruct (pan_inv _ _ _ _ _ _ H Vs Ve) as (sh & _ & _ & -> & -> & _).
  apply TruncFacts.trunc_le, rnd_mono. rewrite Zle_Qle in L. lra.
Qed.

(** A rounding within the range of time values lies between the
    integers around the exact value, and so does its truncation. *)
Lemma rnd_between x :
  Qabs (rnd x) <= inject_Z maxTime ->
  (Qfloor x <= Num.trunc (rnd x) <= Qceiling x)%Z.
Proof.
  intros B. apply Qabs_Qle_condition in B.
  assert (M : inject_Z maxTime < 2 ^ 53) by reflexivity.
  assert (R53 : rnd (2 ^ 53) == 2 ^ 53).
  { rewrite (pow2_Z 53) by lia. apply rnd_Z. reflexivity. }
  assert (Ux : x < 2 ^ 53).
  { destruct (Qlt_le_dec x (2 ^ 53)) as [L | G]; [exact L |].
    apply rnd_mono in G. lra. }
  assert (Lx : - 2 ^ 53 < x).
  { destruct (Qlt_le_dec (- 2 ^ 53) x) as [L | G]; [exact L |].
    apply rnd_mono in G. rewrite rnd_opp in G. lra. }
  pose proof (Qfloor_le x) as Fl. pose proof (Qlt_floor x) as Fu.
  pose proof (Qle_ceiling x) as Cl. pose proof (Qceiling_lt x) as Cu.
  rewrite (pow2_Z 53) in Ux, Lx by lia.
  assert (Hf : (Z.abs (Qfloor x) <= 2 ^ 53)%Z).
  { rewrite inject_Z_plus in Fu. change (inject_Z 1) with 1 in Fu.
    assert (A : inject_Z (Qfloor x) < inject_Z (2 ^ 53)) by lra.
    assert (B' : inject_Z (- 2 ^ 53 - 1) < inject_Z (Qfloor x)).
    { unfold Z.sub. rewrite inject_Z_plus, inject_Z_opp.
      change (inject_Z (- (1))) with (- (1)). lra. }
    rewrite <- Zlt_Qlt in A, B'. lia. }
  assert (Hc : (Z.abs (Qceiling x) <= 2 ^ 53)%Z).
  { unfold Z.sub in Cu. rewrite inject_Z_plus in Cu.
    change (inject_Z (- (1))) with (- (1)) in Cu.
    assert (A : inject_Z (Qceiling x) < inject_Z (2 ^ 53 + 1)).
    { rewrite inject_Z_plus. change (inject_Z 1) with 1. lra. }
    assert (B' : inject_Z (- 2 ^ 53) < inject_Z (Qceiling x))
      by (rewrite inject_Z_opp; lra).
    rewrite <- Zlt_Qlt in A, B'. lia. }
  split.
  - rewrite <- (TruncFacts.trunc_Z (Qfloor x)) at 1.
    apply TruncFacts.trunc_le. rewrite <- (rnd_Z _ Hf). now apply rnd_mono.
  - rewrite <- (TruncFacts.trunc_Z (Qceiling x)) at 1.
    apply TruncFacts.trunc_le. rewrite <- (rnd_Z _ Hc). now apply rnd_mono.
Qed.

Lemma floor_plus_Z x n : Qfloor (x + inject_Z n) = (Qfloor x + n)%Z.
Proof.
  pose proof (Qfloor_le x) as A. pose proof (Qlt_floor x) as B.
  pose proof (Qfloor_le (x + inject_Z n)) as C.
  pose proof (Qlt_floor (x + inject_Z n)) as D.
  rewrite inject_Z_plus in B, D. change (inject_Z 1) with 1 in B, D.
  apply RoundFacts.near_Z_eq; rewrite inject_Z_plus; lra.
Qed.

Lemma ceiling_plus_Z x n : Qceiling (x + inject_Z n) = (Qceiling x + n)%Z.
Proof.
  unfold Qceiling.
  assert (E : - (x + inject_Z n) == - x + inject_Z (- n))
    by (rewrite inject_Z_opp; ring).
  rewrite (Qfloor_comp _ _ E), floor_plus_Z. lia.
Qed.

Lemma ceiling_floor x : (Qceiling x <= Qfloor x + 1)%Z.
Proof.
  pose proof (Qlt_floor x) as B. pose proof (Qceiling_lt x) as C.
  rewrite inject_Z_plus in B. change (inject_Z 1) with 1 in B.
  unfold Z.sub in C. rewrite inject_Z_plus in C.
  change (inject_Z (- (1))) with (- (1)) in C.
  assert (A : inject_Z (Qceiling x) < inject_Z (Qfloor x + 2)).
  { rewrite inject_Z_plus. change (inject_Z 2) with 2. lra. }
  rewrite <- Zlt_Qlt in A. lia.
Qed.

Lemma pan_span w d s e s' e' :
  calculateNewPan w d (Some s) (Some e)
  = {| ext_start := Some s'; ext_end := Some e' |} ->
  (Z.abs s <= maxTime)%Z -> (Z.abs e <= maxTime)%Z ->
  (Z.abs ((e' - s') - (e - s)) <= 1)%Z.
Proof.
  intros H Vs Ve.
  destruct (pan_inv _ _ _ _ _ _ H Vs Ve) as (sh & _ & _ & -> & -> & Bs & Be).
  set (x := inject_Z s - val sh) in *.
  pose proof (rnd_between x Bs) as [Ls Us].
  pose proof (rnd_between (inject_Z e - val sh) Be) as [Le Ue].
  assert (Ey : inject_Z e - val sh == x + inject_Z (e - s)).
  { unfold x, Z.sub. rewrite inject_Z_plus, inject_Z_opp. ring. }
  rewrite (Qfloor_comp _ _ Ey), floor_plus_Z in Le.
  rewrite (Qceiling_comp _ _ Ey), ceiling_plus_Z in Ue.
  pose proof (ceiling_floor x). pose proof (Qle_floor_ceiling x). lia.
Qed.

End PanDouble.


Module ErrorFacts.
Import Double PowFacts RndFacts.
Local Open Scope Q_scope.

Lemma rnd_err' x : Qabs (rnd x - x) <= u * Qabs x + tiny.
Proof.
  pose proof (rnd_err x) as H.
  assert (T : 2 ^ (-1075) <= tiny).
  { change tiny with (2 ^ (-60)). apply pow2_le. lia. }
  lra.
Qed.

Lemma abs_mul_le a b A B :
  Qabs a <= A -> Qabs b <= B -> Qabs (a * b) <= A * B.
Proof.
  intros Ha Hb. rewrite Qabs_Qmult.
  pose proof (Qabs_nonneg a). pose proof (Qabs_nonneg b). nra.
Qed.

Lemma abs_add_le a b A B :
  Qabs a <= A -> Qabs b <= B -> Qabs (a + b) <= A + B.
Proof. intros Ha Hb. pose proof (Qabs_triangle a b). lra. Qed.

Lemma abs_sub_le a b A B :
  Qabs a <= A -> Qabs b <= B -> Qabs (a - b) <= A + B.
Proof.
  intros Ha Hb. unfold Qminus. apply abs_add_le; [exact Ha |].
  now rewrite Qabs_opp.
Qed.

(** The rounding of a number bounded by [B]. *)
Lemma rnd_bound x B :
  Qabs x <= B ->
  Qabs (rnd x - x) <= u * B + tiny /\ Qabs (rnd x) <= B + (u * B + tiny).
Proof.
  intros H. pose proof (rnd_err' x) as E.
  assert (E1 : Qabs (rnd x - x) <= u * B + tiny) by (unfold u in *; lra).
  split; [exact E1 |].
  setoid_replace (rnd x) with (x + (rnd x - x)) by ring.
  apply abs_add_le; [exact H | exact E1].
Qed.

(** The factor less one, [scale - 1], where [scale = 1 + delta / 1000]
    and [D] is the exact [delta / 1000]. *)
Lemma factor_error D :
  let m1 := rnd (rnd (1 + rnd D) - 1) in
  Qabs (m1 - D) <= 4 * u * (1 + Qabs D)
  /\ Qabs m1 <= (9 # 8) * (1 + Qabs D).
Proof.
  cbv zeta. set (aD := Qabs D). assert (HD : 0 <= aD) by apply Qabs_nonneg.
  destruct (rnd_bound D aD (Qle_refl _)) as [E1 B1].
  set (t1 := rnd D) in *.
  assert (B2 : Qabs (1 + t1) <= 1 + (aD + (u * aD + tiny))).
  { apply abs_add_le; [now compute | exact B1]. }
  destruct (rnd_bound (1 + t1) _ B2) as [E2 _].
  set (sc := rnd (1 + t1)) in *.
  assert (B3 : Qabs (sc - 1)
               <= (u * (1 + (aD + (u * aD + tiny))) + tiny) + (aD + (u * aD + tiny))).
  { setoid_replace (sc - 1) with ((sc - (1 + t1)) + t1) by ring.
    apply abs_add_le; assumption. }
  destruct (rnd_bound (sc - 1) _ B3) as [E3 _].
  set (m1 := rnd (sc - 1)) in *.
  assert (Em : Qabs (m1 - D) <= 4 * u * (1 + aD)).
  { setoid_replace (m1 - D) with ((m1 - (sc - 1)) + ((sc - (1 + t1)) + (t1 - D)))
      by ring.
    eapply Qle_trans.
    - apply abs_add_le; [exact E3 |]. apply abs_add_le; [exact E2 | exact E1].
    - unfold u, tiny. lra. }
  split; [exact Em |].
  setoid_replace m1 with ((m1 - D) + D) by ring.
  eapply Qle_trans; [apply abs_add_le; [exact Em | apply Qle_refl] |].
  fold aD. unfold u. lra.
Qed.

(** The product [span * weight * (scale - 1)], where [g] is the computed
    weight, [w] the exact one, [X] the exact span and [D] the exact
    [delta / 1000]. *)
Lemma product_error D w g X :
  Qabs w <= 1 -> Qabs (g - w) <= u ->
  let m1 := rnd (rnd (1 + rnd D) - 1) in
  let a2 := rnd (rnd (rnd X * g) * m1) in
  Qabs (a2 - X * w * D) <= 10 * u * (1 + Qabs X) * (1 + Qabs D)
  /\ Qabs a2 <= 2 * (1 + Qabs X) * (1 + Qabs D).
Proof.
  intros Hw Hg. cbv zeta.
  destruct (factor_error D) as [Em Bm]. cbv zeta in Em, Bm.
  set (m1 := rnd (rnd (1 + rnd D) - 1)) in *.
  set (aD := Qabs D) in *. set (aX := Qabs X).
  assert (HD : 0 <= aD) by apply Qabs_nonneg.
  assert (HX : 0 <= aX) by apply Qabs_nonneg.
  destruct (rnd_bound X aX (Qle_refl _)) as [E0 B0].
  set (sp := rnd X) in *.
  assert (Bg : Qabs g <= 1 + u).
  { setoid_replace g with ((g - w) + w) by ring.
    eapply Qle_trans; [apply abs_add_le; [exact Hg | exact Hw] |]. lra. }
  pose proof (abs_mul_le _ _ _ _ B0 Bg) as B4.
  destruct (rnd_bound (sp * g) _ B4) as [E4 Ba1].
  set (a1 := rnd (sp * g)) in *.
  pose proof (abs_mul_le _ _ _ _ Ba1 Bm) as B5.
  destruct (rnd_bound (a1 * m1) _ B5) as [E5 Ba2].
  set (a2 := rnd (a1 * m1)) in *.
  assert (Dec : a2 - X * w * D
                == (a2 - a1 * m1) + (a1 - sp * g) * m1
                   + sp * g * (m1 - D) + (X * (g - w) + (sp - X) * g) * D)
    by ring.
  assert (T1 : Qabs ((a1 - sp * g) * m1)
               <= (u * ((aX + (u * aX + tiny)) * (1 + u)) + tiny)
                  * ((9 # 8) * (1 + aD)))
    by (apply abs_mul_le; assumption).
  assert (T2 : Qabs (sp * g * (m1 - D))
               <= ((aX + (u * aX + tiny)) * (1 + u)) * (4 * u * (1 + aD)))
    by (apply abs_mul_le; assumption).
  assert (T3 : Qabs ((X * (g - w) + (sp - X) * g) * D)
               <= (aX * u + (u * aX + tiny) * (1 + u)) * aD).
  { apply abs_mul_le; [| apply Qle_refl].
    apply abs_add_le; apply abs_mul_le; try assumption; apply Qle_refl. }
  split.
  - rewrite Dec. eapply Qle_trans.
    + apply abs_add_le; [apply abs_add_le; [apply abs_add_le |] |];
        [exact E5 | exact T1 | exact T2 | exact T3].
    + unfold u, tiny. nra.
  - eapply Qle_trans; [exact Ba2 |]. unfold u, tiny. nra.
Qed.

End ErrorFacts.


Module ZoomDouble.
Import Double PowFacts RndFacts DoubleFacts ErrorFacts.
Local Open Scope Q_scope.

Lemma rnd_err_le1 x : Qabs x <= 1 -> Qabs (rnd x - x) <= u.
Proof.
  intros H. destruct (Qlt_le_dec (Qabs x) (2 ^ (-1022))) as [S | N].
  - pose proof (Qabs_nonneg x) as Hn.
    destruct (Qeq_dec x 0) as [Zx | NZ].
    + rewrite (rnd_0 x Zx). setoid_replace (0 - x) with 0 by lra. now compute.
    + pose proof (rnd_err_ulp x NZ) as E.
      destruct (LogFacts.ilog2_spec x NZ) as [L _].
      assert (Hl : (ilog2 x < -1022)%Z) by (apply pow2_lt_inv; lra).
      unfold ulpExp in E. rewrite Z.max_r in E by lia.
      change (2 ^ (-1074) / 2) with (2 ^ (-1075)) in E.
      assert (T : 2 ^ (-1075) <= u)
        by (rewrite u_pow; apply pow2_le; lia).
      lra.
  - pose proof (rnd_err_rel x N). unfold u in *. nra.
Qed.

Lemma trunc_abs x b :
  Qabs x <= inject_Z b -> (Z.abs (Num.trunc x) <= b)%Z.
Proof.
  intros H. apply Qabs_Qle_condition in H. destruct H as [L U].
  apply TruncFacts.trunc_le in L, U.
  rewrite <- inject_Z_opp in L. rewrite TruncFacts.trunc_Z in L, U. lia.
Qed.

(** The truncation of an approximation of [a]. *)
Lemma trunc_within x a t :
  Qabs (x - a) <= t -> Qabs (inject_Z (Num.trunc x) - a) < 1 + t.
Proof.
  intros H. apply Qabs_Qle_condition in H.
  destruct (TruncFacts.trunc_near x) as [L U].
  apply Qabs_Qlt_condition. split; lra.
Qed.



Lemma one_val : finite (ofZ 1) = true /\ val (ofZ 1) == 1.
Proof. apply (ofZ_val 1). discriminate. Qed.

Lemma thousand_val : finite (ofZ 1000) = true /\ val (ofZ 1000) == 1000.
Proof. apply (ofZ_val 1000). discriminate. Qed.

(** The value of [scale - 1]. *)
Lemma factor_val delta :
  finite (sub (add (ofZ 1) (div delta (ofZ 1000))) (ofZ 1)) = true ->
  val (sub (add (ofZ 1) (div delta (ofZ 1000))) (ofZ 1))
  == rnd (rnd (1 + rnd (val delta / 1000)) - 1).
Proof.
  intros F. destruct one_val as [_ V1]. destruct thousand_val as [FK VK].

  destruct (sub_spec _ _ F) as (Fsc & _ & V). rewrite V.
  destruct (add_spec _ _ Fsc) as (_ & Ft & Vsc).
  destruct (div_spec _ _ Ft) as (_ & [(_ & _ & Vt) | ((m & Em) & _)]).
  - apply rnd_comp. rewrite Vsc, V1. apply Qplus_comp; [| reflexivity].
    apply rnd_comp. apply Qplus_comp; [reflexivity |].
    rewrite Vt. apply rnd_comp. now rewrite VK.
  - rewrite Em in FK. destruct (Bool.diff_false_true FK).
Qed.

Lemma span_val s e :
  (Z.abs s <= maxTime)%Z -> (Z.abs e <= maxTime)%Z ->
  finite (sub (getTime (Some e)) (getTime (Some s))) = true ->
  val (sub (getTime (Some e)) (getTime (Some s))) == rnd (inject_Z (e - s)).
Proof.
  intros Vs Ve F. destruct (sub_spec _ _ F) as (_ & _ & V).
  destruct (getTime_val s Vs) as [_ Gs]. destruct (getTime_val e Ve) as [_ Ge].
  rewrite V. apply rnd_comp. rewrite Gs, Ge.
  unfold Z.sub. now rewrite inject_Z_plus, inject_Z_opp.
Qed.

Lemma tolerance_bound (s e : Z) S D :
  Qabs S <= Qabs (inject_Z s) + Qabs (inject_Z e) ->
  10 * u * (1 + Qabs (inject_Z (e - s))) * (1 + Qabs D)
  + (u * (Qabs S + 2 * (1 + Qabs (inject_Z (e - s))) * (1 + Qabs D)) + tiny)
  <= zoomTolerance s e D.
Proof.
  intros HS. unfold zoomTolerance.
  assert (HX : Qabs (inject_Z (e - s)) <= Qabs (inject_Z s) + Qabs (inject_Z e)).
  { unfold Z.sub. rewrite inject_Z_plus, inject_Z_opp.
    pose proof (Qabs_triangle (inject_Z e) (- inject_Z s)) as T.
    rewrite Qabs_opp in T. lra. }
  pose proof (Qabs_nonneg (inject_Z s)). pose proof (Qabs_nonneg (inject_Z e)).
  pose proof (Qabs_nonneg D). pose proof (Qabs_nonneg S).
  pose proof (Qabs_nonneg (inject_Z (e - s))).
  set (aS := Qabs S) in *. set (aX := Qabs (inject_Z (e - s))) in *.
  set (a := Qabs (inject_Z s)) in *. set (b := Qabs (inject_Z e)) in *.
  set (aD := Qabs D) in *.
  unfold Qdiv. change (/ 281474976710656) with (1 # 281474976710656).
  unfold u, tiny. nra.
Qed.

(** The bounds of a zoom that yields valid Dates are the stated ones up to
    the truncation and the allowance. *)
Lemma zoom_within delta center s e s' e' :
  (Z.abs s <= maxTime)%Z -> (Z.abs e <= maxTime)%Z ->
  0 <= val center <= 1 ->
  calculateNewZoom delta center (Some s) (Some e)
  = {| ext_start := Some s'; ext_end := Some e' |} ->
  let D := val delta / 1000 in
  let c := val center in
  Qabs (inject_Z s' - (inject_Z s - inject_Z (e - s) * c * D))
  < 1 + zoomTolerance s e D
  /\ Qabs (inject_Z e' - (inject_Z e + inject_Z (e - s) * (1 - c) * D))
     < 1 + zoomTolerance s e D.
Proof.
  intros Vs Ve Hc H D c. unfold calculateNewZoom in H.
  apply extent_inj in H. destruct H as [Hs He].
  apply newDate_spec in Hs, He.
  destruct Hs as (Fs & Ts & _). destruct He as (Fe & Te & _).
  destruct (getTime_val s Vs) as [_ Gs]. destruct (getTime_val e Ve) as [_ Ge].
  destruct one_val as [_ V1].
  split.
  - destruct (sub_spec _ _ Fs) as (_ & Fa2 & Vns).
    destruct (mul_spec _ _ Fa2) as (Fa1 & Fm1 & Va2).
    destruct (mul_spec _ _ Fa1) as (Fsp & _ & Va1).
    pose proof (factor_val delta Fm1) as Vm1.
    pose proof (span_val s e Vs Ve Fsp) as Vsp.
    fold D in Vm1.
    assert (Hw : Qabs c <= 1) by (apply Qabs_Qle_condition; unfold c; lra).
    assert (Hg : Qabs (c - c) <= u)
      by (apply Qabs_Qle_condition; unfold u; split; lra).
    destruct (product_error D c c (inject_Z (e - s)) Hw Hg) as [Ep Bp].
    cbv zeta in Ep, Bp.
    set (a2 := rnd (rnd (rnd (inject_Z (e - s)) * c)
                      * rnd (rnd (1 + rnd D) - 1))) in *.
    assert (Ea2 : val (mul (mul (sub (getTime (Some e)) (getTime (Some s))) center)
                       (sub (add (ofZ 1) (div delta (ofZ 1000))) (ofZ 1)))
                  == a2).
    { rewrite Va2. unfold a2. apply rnd_comp.
      apply Qmult_comp; [| exact Vm1].
      rewrite Va1. apply rnd_comp. apply Qmult_comp; [exact Vsp | reflexivity]. }
    rewrite Ts. apply trunc_within.
    rewrite Vns. rewrite (rnd_comp _ (inject_Z s - a2)) by (now rewrite Gs, Ea2).
    assert (Bsa : Qabs (inject_Z s - a2)
                  <= Qabs (inject_Z s)
                     + 2 * (1 + Qabs (inject_Z (e - s))) * (1 + Qabs D))
      by (apply abs_sub_le; [apply Qle_refl | exact Bp]).
    destruct (rnd_bound _ _ Bsa) as [Er _].
    setoid_replace (rnd (inject_Z s - a2)
                    - (inject_Z s - inject_Z (e - s) * c * D))
      with ((rnd (inject_Z s - a2) - (inject_Z s - a2))
            - (a2 - inject_Z (e - s) * c * D)) by ring.
    eapply Qle_trans; [apply abs_sub_le; [exact Er | exact Ep] |].
    pose proof (tolerance_bound s e (inject_Z s) D) as T.
    pose proof (Qabs_nonneg (inject_Z e)). lra.
  - destruct (add_spec _ _ Fe) as (_ & Fb2 & Vne).
    destruct (mul_spec _ _ Fb2) as (Fb1 & Fm1 & Vb2).
    destruct (mul_spec _ _ Fb1) as (Fsp & Foc & Vb1).
    pose proof (factor_val delta Fm1) as Vm1.
    pose proof (span_val s e Vs Ve Fsp) as Vsp.
    fold D in Vm1.
    destruct (sub_spec _ _ Foc) as (_ & _ & Voc).
    assert (Voc' : val (sub (ofZ 1) center) == rnd (1 - c))
      by (rewrite Voc; apply rnd_comp; now rewrite V1).
    assert (Hw : Qabs (1 - c) <= 1) by (apply Qabs_Qle_condition; unfold c; lra).
    pose proof (rnd_err_le1 _ Hw) as Hg.
    destruct (product_error D (1 - c) (rnd (1 - c)) (inject_Z (e - s)) Hw Hg)
      as [Ep Bp].
    cbv zeta in Ep, Bp.
    set (b2 := rnd (rnd (rnd (inject_Z (e - s)) * rnd (1 - c))
                      * rnd (rnd (1 + rnd D) - 1))) in *.
    assert (Eb2 : val (mul (mul (sub (getTime (Some e)) (getTime (Some s)))
                              (sub (ofZ 1) center))
                       (sub (add (ofZ 1) (div delta (ofZ 1000))) (ofZ 1)))
                  == b2).
    { rewrite Vb2. unfold b2. apply rnd_comp.
      apply Qmult_comp; [| exact Vm1].
      rewrite Vb1. apply rnd_comp. apply Qmult_comp; [exact Vsp | exact Voc']. }
    rewrite Te. apply trunc_within.
    rewrite Vne. rewrite (rnd_comp _ (inject_Z e + b2)) by (now rewrite Ge, Eb2).
    assert (Bsa : Qabs (inject_Z e + b2)
                  <= Qabs (inject_Z e)
                     + 2 * (1 + Qabs (inject_Z (e - s))) * (1 + Qabs D))
      by (apply abs_add_le; [apply Qle_refl | exact Bp]).
    destruct (rnd_bound _ _ Bsa) as [Er _].
    setoid_replace (rnd (inject_Z e + b2)
                    - (inject_Z e + inject_Z (e - s) * (1 - c) * D))
      with ((rnd (inject_Z e + b2) - (inject_Z e + b2))
            + (b2 - inject_Z (e - s) * (1 - c) * D)) by ring.
    eapply Qle_trans; [apply abs_add_le; [exact Er | exact Ep] |].
    pose proof (tolerance_bound s e (inject_Z e) D) as T.
    pose proof (Qabs_nonneg (inject_Z s)). lra.
Qed.

End ZoomDouble.


Module PanError.
Import Double PowFacts RndFacts DoubleFacts ErrorFacts ZoomDouble.
Local Open Scope Q_scope.

Lemma rnd_nonzero x : 2 ^ (-1022) <= Qabs x -> ~ rnd x == 0.
Proof.
  intros H E. pose proof (rnd_err_rel x H) as R. rewrite E in R.
  setoid_replace (0 - x) with (- x) in R by ring. rewrite Qabs_opp in R.
  pose proof (pow2_pos (-1022)). unfold u in R. lra.
Qed.

(** The shift [delta / scale] of a pan, where [scale = width / span], for
    a span [X] that is not zero; [S] is the exact [delta * X / width]. *)
Lemma shift_error d X w :
  1 <= Qabs X -> Qabs X <= 2 ^ 55 -> 1 <= w ->
  let scale := rnd (w / rnd X) in
  let S := d * X / w in
  ~ rnd X == 0 /\ ~ scale == 0
  /\ Qabs (rnd (d / scale) - S) <= 4 * u * Qabs S + tiny.
Proof.
  intros HX1 HX2 Hw. cbv zeta.
  assert (P1 : 2 ^ (-1022) <= 1) by (change 1 with (2 ^ 0); apply pow2_le; lia).
  assert (NX : 2 ^ (-1022) <= Qabs X) by lra.
  pose proof (rnd_err_rel X NX) as E0. pose proof (rnd_nonzero X NX) as Nsp.
  set (sp := rnd X) in *.
  assert (Bsp : Qabs sp <= 2 ^ 56).
  { setoid_replace sp with (X + (sp - X)) by ring.
    eapply Qle_trans; [apply abs_add_le; [apply Qle_refl | exact E0] |].
    change (2 ^ 56) with (2 * 2 ^ 55). unfold u. lra. }
  assert (Psp : 0 < Qabs sp).
  { destruct (Qlt_le_dec 0 (Qabs sp)) as [L | G]; [exact L | exfalso].
    pose proof (Qabs_nonneg sp). apply Nsp.
    assert (Z0 : Qabs sp == 0) by lra.
    destruct (Qabs_Qle_condition sp 0) as [C _].
    assert (C' : Qabs sp <= 0) by lra. apply C in C'. lra. }
  assert (Aws : Qabs (w / sp) * Qabs sp == w).
  { rewrite <- Qabs_Qmult.
    setoid_replace (w / sp * sp) with w by (field; exact Nsp).
    apply Qabs_pos. lra. }
  assert (Nws : 2 ^ (-1022) <= Qabs (w / sp)).
  { assert (L : 2 ^ (-56) <= Qabs (w / sp)).
    { apply (Qmult_le_r _ _ (Qabs sp) Psp). rewrite Aws.
      apply Qle_trans with (2 ^ (-56) * 2 ^ 56).
      - apply Qmult_le_compat_nonneg; split;
          [apply Qlt_le_weak, pow2_pos | apply Qle_refl
          | apply Qabs_nonneg | exact Bsp].
      - rewrite <- pow2_add. change (2 ^ (-56 + 56)) with 1. exact Hw. }
    assert (2 ^ (-1022) <= 2 ^ (-56)) by (apply pow2_le; lia). lra. }
  pose proof (rnd_err_rel _ Nws) as E1. pose proof (rnd_nonzero _ Nws) as Nsc.
  set (scale := rnd (w / sp)) in *.
  split; [exact Nsp |]. split; [exact Nsc |].
  set (q := d / scale). set (S := d * X / w).
  assert (Nw : ~ w == 0) by lra.
  (* rho = sp * scale / w - 1 *)
  assert (Hrho : Qabs (sp * (scale - w / sp) / w) <= u).
  { unfold Qdiv at 1. rewrite !Qabs_Qmult, Qabs_Qinv, (Qabs_pos w) by lra.
    pose proof (Qabs_nonneg (scale - w / sp)).
    apply Qle_shift_div_r; [lra |].
    rewrite (Qmult_comm (Qabs sp)).
    apply Qle_trans with (u * Qabs (w / sp) * Qabs sp).
    - apply Qmult_le_compat_r; [exact E1 | apply Qabs_nonneg].
    - rewrite <- Qmult_assoc, Aws. apply Qle_refl. }
  assert (Hd0 : Qabs (d * (sp - X) / w) <= u * Qabs S).
  { unfold S. unfold Qdiv. rewrite !Qabs_Qmult, Qabs_Qinv, (Qabs_pos w) by lra.
    pose proof (Qabs_nonneg d). pose proof (Qinv_lt_0_compat w ltac:(lra)).
    set (iw := / w) in *. set (ad := Qabs d) in *.
    pose proof (Qabs_nonneg (sp - X)).
    assert (K : 0 <= ad * iw) by nra.
    setoid_replace (ad * Qabs (sp - X) * iw) with ((ad * iw) * Qabs (sp - X))
      by ring.
    setoid_replace (u * (ad * Qabs X * iw)) with ((ad * iw) * (u * Qabs X))
      by ring.
    set (k := ad * iw) in *. nra. }
  assert (Eq : q - S == d * (sp - X) / w - q * (sp * (scale - w / sp) / w)).
  { unfold q, S. field. repeat split; assumption. }
  assert (Bq : Qabs (q - S) <= u * Qabs S + Qabs q * u).
  { rewrite Eq. apply abs_sub_le; [exact Hd0 |].
    apply abs_mul_le; [apply Qle_refl | exact Hrho]. }
  assert (Aq : Qabs q <= (9 # 8) * Qabs S).
  { assert (T : Qabs q <= Qabs S + Qabs (q - S)).
    { setoid_replace q with (S + (q - S)) at 1 by ring. apply Qabs_triangle. }
    pose proof (Qabs_nonneg S). pose proof (Qabs_nonneg q).
    unfold u in *. lra. }
  pose proof (rnd_err' q) as Er.
  setoid_replace (rnd q - S) with ((rnd q - q) + (q - S)) by ring.
  eapply Qle_trans; [apply abs_add_le; [exact Er | exact Bq] |].
  pose proof (Qabs_nonneg S). unfold u in *. lra.
Qed.

End PanError.


Module PanWithin.
Import Double PowFacts RndFacts DoubleFacts ErrorFacts ZoomDouble PanError.
Local Open Scope Q_scope.

Lemma add_finite_fwd a b :
  finite a = true -> finite b = true ->
  Qabs (rnd (val a + val b)) < 2 ^ 1024 -> finite (add a b) = true.
Proof.
  intros Fa Fb H.
  assert (G : finite (if Qeq_bool (val a + val b) 0 then Fin 0
                      else round (val a + val b)) = true).
  { destruct (Qeq_bool (val a + val b) 0); [reflexivity |].
    now apply round_finite. }
  destruct a as [p | | n |], b as [q | | m |]; try discriminate;
    try exact G; reflexivity.
Qed.

Lemma sub_finite_fwd a b :
  finite a = true -> finite b = true ->
  Qabs (rnd (val a - val b)) < 2 ^ 1024 -> finite (sub a b) = true.
Proof.
  intros Fa Fb H. unfold sub. apply add_finite_fwd; [exact Fa | |].
  - now rewrite opp_finite.
  - rewrite (rnd_comp _ (val a - val b)); [exact H |].
    rewrite opp_val. reflexivity.
Qed.

Lemma div_finite_eq a b :
  finite a = true -> finite b = true ->
  div a b
  = if isZero b then
      if isZero a then NaN else Inf (xorb (sign a) (sign b))
    else if Qeq_bool (val a / val b) 0
         then zero (xorb (sign a) (sign b))
         else round (val a / val b).
Proof.
  intros Fa Fb.
  destruct a as [p | | n |], b as [q | | m |]; try discriminate; reflexivity.
Qed.

Lemma div_finite_fwd a b :
  finite a = true -> finite b = true -> ~ val b == 0 ->
  Qabs (rnd (val a / val b)) < 2 ^ 1024 -> finite (div a b) = true.
Proof.
  intros Fa Fb Nb H. rewrite (div_finite_eq a b Fa Fb).
  destruct (isZero b) eqn:Zb.
  - apply (isZero_val b Fb) in Zb. contradiction.
  - destruct (Qeq_bool (val a / val b) 0); [apply zero_finite |].
    now apply round_finite.
Qed.

Lemma inject_Z_abs z : Qabs (inject_Z z) == inject_Z (Z.abs z).
Proof. reflexivity. Qed.

Lemma valid_span s e :
  (Z.abs s <= maxTime)%Z -> (Z.abs e <= maxTime)%Z ->
  Qabs (inject_Z (e - s)) <= 2 ^ 55.
Proof.
  intros Vs Ve. rewrite inject_Z_abs, (pow2_Z 55) by lia. rewrite <- Zle_Qle.
  unfold maxTime in *. assert (2 * 8640000000000000 < 2 ^ 55)%Z by reflexivity.
  lia.
Qed.

Lemma small_finite x : Qabs x <= 2 ^ 56 -> Qabs (rnd x) < 2 ^ 1024.
Proof.
  intros H. apply Qle_lt_trans with (2 ^ 56); [| apply pow2_lt; lia].
  apply (rnd_abs_le x (2 ^ 56) 1 56); [exact H | ring | reflexivity | lia].
Qed.

(** The shift that a pan computes, when it is finite. *)
Lemma shift_val w d s e :
  (0 < w <= 2 ^ 53)%Z -> (Z.abs s <= maxTime)%Z -> (Z.abs e <= maxTime)%Z ->
  let sh := div d (div (ofZ w) (sub (getTime (Some e)) (getTime (Some s)))) in
  let S := val d * inject_Z (e - s) / inject_Z w in
  finite sh = true -> Qabs (val sh - S) <= 4 * u * Qabs S + tiny.
Proof.
  intros Hw Vs Ve sh S F.
  destruct (getTime_val s Vs) as [Fgs Gs]. destruct (getTime_val e Ve) as [Fge Ge].
  destruct (ofZ_val w) as [Fw Vw]; [lia |].
  pose proof (valid_span s e Vs Ve) as HX.
  assert (EX : val (getTime (Some e)) - val (getTime (Some s)) == inject_Z (e - s)).
  { rewrite Gs, Ge. unfold Z.sub. now rewrite inject_Z_plus, inject_Z_opp. }
  assert (Fsp : finite (sub (getTime (Some e)) (getTime (Some s))) = true).
  { apply sub_finite_fwd; [exact Fge | exact Fgs |].
    rewrite (rnd_comp _ _ EX). apply small_finite.
    assert (2 ^ 55 <= 2 ^ 56) by (apply pow2_le; lia). lra. }
  pose proof (span_val s e Vs Ve Fsp) as Vsp.
  set (sp := sub (getTime (Some e)) (getTime (Some s))) in *.
  assert (W1 : 1 <= inject_Z w).
  { change 1 with (inject_Z 1). rewrite <- Zle_Qle. lia. }
  destruct (Z.eq_dec (e - s) 0) as [X0 | XN].
  - (* an empty span: the scale is an infinity and the shift a zero *)
    assert (Zsp : isZero sp = true).
    { apply (isZero_val sp Fsp). rewrite Vsp, X0. now rewrite rnd_0. }
    assert (Nw : isZero (ofZ w) = false).
    { destruct (isZero (ofZ w)) eqn:Zw; [| reflexivity].
      apply (isZero_val _ Fw) in Zw. rewrite Vw in Zw. lra. }
    assert (Esc : exists m, div (ofZ w) sp = Inf m).
    { rewrite (div_finite_eq _ _ Fw Fsp), Zsp, Nw. eauto. }
    destruct Esc as (m & Esc). unfold sh in F |- *. rewrite Esc in F |- *.
    destruct (div_spec _ _ F) as (_ & [(Ff & _) | (_ & V0)]); [discriminate |].
    assert (ES : S == 0).
    { unfold S. rewrite X0. change (inject_Z 0) with 0. field. lra. }
    rewrite V0, ES. setoid_replace (0 - 0) with 0 by ring.
    change (Qabs 0) with 0. unfold u, tiny. lra.
  - assert (HX1 : 1 <= Qabs (inject_Z (e - s))).
    { rewrite inject_Z_abs. change 1 with (inject_Z 1). rewrite <- Zle_Qle. lia. }
    destruct (shift_error (val d) (inject_Z (e - s)) (inject_Z w) HX1 HX W1)
      as (Nsp & Nsc & Err).
    cbv zeta in Nsc, Err.
    assert (Nsp' : ~ val sp == 0) by (now rewrite Vsp).
    assert (Esc : val (ofZ w) / val sp == inject_Z w / rnd (inject_Z (e - s)))
      by (now rewrite Vw, Vsp).
    assert (Fsc : finite (div (ofZ w) sp) = true).
    { apply div_finite_fwd; [exact Fw | exact Fsp | exact Nsp' |].
      rewrite (rnd_comp _ _ Esc).
      apply Qle_lt_trans with (2 ^ 53); [| apply pow2_lt; lia].
      apply (rnd_abs_le _ (2 ^ 53) 1 53); [| ring | reflexivity | lia].
      (* |w / sp| <= w <= 2^53 as |sp| >= 1 *)
      assert (Asp : 1 <= Qabs (rnd (inject_Z (e - s)))).
      { assert (R1 : rnd 1 == 1) by (apply (rnd_Z 1); discriminate).
        apply Qabs_case; intros Sg.
        - revert HX1. apply Qabs_case; intros Sx HX1.
          + rewrite <- R1. now apply rnd_mono.
          + pose proof (rnd_mono _ _ Sx) as M. rewrite (rnd_0 0) in M by reflexivity.
            assert (Z0 : rnd (inject_Z (e - s)) == 0) by lra. contradiction.
        - revert HX1. apply Qabs_case; intros Sx HX1.
          + pose proof (rnd_mono _ _ Sx) as M. rewrite (rnd_0 0) in M by reflexivity.
            assert (Z0 : rnd (inject_Z (e - s)) == 0) by lra. contradiction.
          + assert (M : rnd (inject_Z (e - s)) <= rnd (- (1))) by (apply rnd_mono; lra).
            rewrite rnd_opp, R1 in M. lra. }
      unfold Qdiv. rewrite Qabs_Qmult, Qabs_Qinv, (Qabs_pos (inject_Z w)) by lra.
      apply Qle_shift_div_r; [lra |].
      assert (inject_Z w <= 2 ^ 53).
      { rewrite (pow2_Z 53) by lia. rewrite <- Zle_Qle. lia. }
      nra. }
    destruct (div_spec _ _ Fsc) as (_ & [(_ & _ & Vsc) | ((m & Em) & _)]);
      [| unfold sp in Em; fold sp in Em; rewrite Em in Fsp; discriminate].
    rewrite (rnd_comp _ _ Esc) in Vsc.
    assert (Nsc' : ~ val (div (ofZ w) sp) == 0) by (now rewrite Vsc).
    destruct (div_spec _ _ F) as (_ & [(_ & _ & Vsh) | ((m & Em) & _)]);
      [| rewrite Em in Fsc; discriminate].
    unfold sh. rewrite Vsh.
    rewrite (rnd_comp _ (val d / rnd (inject_Z w / rnd (inject_Z (e - s)))))
      by (now rewrite Vsc).
    exact Err.
Qed.

Lemma pan_within w d s e s' e' :
  (0 < w <= 2 ^ 53)%Z -> (Z.abs s <= maxTime)%Z -> (Z.abs e <= maxTime)%Z ->
  calculateNewPan w d (Some s) (Some e)
  = {| ext_start := Some s'; ext_end := Some e' |} ->
  let S := val d * inject_Z (e - s) / inject_Z w in
  Qabs (inject_Z s' - (inject_Z s - S)) < 1 + panTolerance s e S
  /\ Qabs (inject_Z e' - (inject_Z e - S)) < 1 + panTolerance s e S.
Proof.
  intros Hw Vs Ve H S.
  destruct (PanDouble.pan_inv _ _ _ _ _ _ H Vs Ve)
    as (sh & Esh & Fsh & -> & -> & _ & _).
  pose proof (shift_val w d s e Hw Vs Ve) as Err. cbv zeta in Err.
  rewrite <- Esh in Err. specialize (Err Fsh). fold S in Err.
  assert (G : forall t : Z,
             Qabs (rnd (inject_Z t - val sh) - (inject_Z t - S))
             <= u * (Qabs (inject_Z t) + (Qabs S + (4 * u * Qabs S + tiny)))
                + tiny + (4 * u * Qabs S + tiny)).
  { intros t.
    assert (Bv : Qabs (val sh) <= Qabs S + (4 * u * Qabs S + tiny)).
    { setoid_replace (val sh) with (S + (val sh - S)) by ring.
      apply abs_add_le; [apply Qle_refl | exact Err]. }
    assert (Bt : Qabs (inject_Z t - val sh)
                 <= Qabs (inject_Z t) + (Qabs S + (4 * u * Qabs S + tiny)))
      by (apply abs_sub_le; [apply Qle_refl | exact Bv]).
    destruct (rnd_bound _ _ Bt) as [Er _].
    setoid_replace (rnd (inject_Z t - val sh) - (inject_Z t - S))
      with ((rnd (inject_Z t - val sh) - (inject_Z t - val sh)) - (val sh - S))
      by ring.
    apply abs_sub_le; [exact Er | exact Err]. }
  pose proof (Qabs_nonneg (inject_Z s)). pose proof (Qabs_nonneg (inject_Z e)).
  pose proof (Qabs_nonneg S).
  split; apply trunc_within; (eapply Qle_trans; [apply G |]);
    unfold panTolerance, Qdiv;
    change (/ 1125899906842624) with (1 # 1125899906842624);
    unfold u, tiny; lra.
Qed.

End PanWithin.

(** ** Binary64 arithmetic: agreement with the Standard Library *)

(** On every pair of the samples the four operations, the comparison, the
    negation and the absolute value give what [SpecFloat] specifies for
    binary64. *)
Lemma operations_agree_with_SpecFloat :
  Conformance.agree Double.add (SpecFloat.SFadd 53 1024) = true
  /\ Conformance.agree Double.sub (SpecFloat.SFsub 53 1024) = true
  /\ Conformance.agree Double.mul (SpecFloat.SFmul 53 1024) = true
  /\ Conformance.agree Double.div (SpecFloat.SFdiv 53 1024) = true
  /\ Conformance.agreeLtb = true
  /\ Conformance.agreeUnary = true.
Proof. repeat split; vm_compute; reflexivity. Qed.

(** ** Binary64 arithmetic: when the transforms return valid dates *)

Module ReturnFacts.
Import Double PowFacts RndFacts DoubleFacts ErrorFacts ZoomDouble PanError PanWithin.
Local Open Scope Q_scope.

(** A finite number within the range of Date is the time value of a valid
    Date. *)
Lemma newDate_fwd x :
  finite x = true -> Qabs (val x) <= inject_Z maxTime ->
  exists t, newDate x = Some t.
Proof.
  intros F B. destruct x as [q | | n |]; [| | discriminate F | discriminate F].
  - cbn [newDate val] in *. apply Qle_bool_iff in B. rewrite B. eauto.
  - cbn. eauto.
Qed.

(** Rounding keeps a number below a power of two there. *)
Lemma pow_finite x k :
  (-1074 <= k <= 1023)%Z -> Qabs x <= 2 ^ k ->
  Qabs (rnd x) <= 2 ^ k /\ Qabs (rnd x) < 2 ^ 1024.
Proof.
  intros Hk H.
  assert (R : Qabs (rnd x) <= 2 ^ k)
    by (apply (rnd_abs_le x (2 ^ k) 1 k); [exact H | ring | reflexivity | lia]).
  split; [exact R |].
  apply Qle_lt_trans with (2 ^ k); [exact R | apply pow2_lt; lia].
Qed.

Lemma mul_finite_fwd a b :
  finite a = true -> finite b = true ->
  Qabs (rnd (val a * val b)) < 2 ^ 1024 -> finite (mul a b) = true.
Proof.
  intros Fa Fb H.
  assert (G : forall n, finite (if Qeq_bool (val a * val b) 0 then zero n
                                else round (val a * val b)) = true).
  { intros n. destruct (Qeq_bool (val a * val b) 0); [apply zero_finite |].
    now apply round_finite. }
  destruct a as [p | | n |]; [| | discriminate Fa | discriminate Fa];
    (destruct b as [q | | m |]; [| | discriminate Fb | discriminate Fb]);
    cbn [mul]; apply G.
Qed.

Lemma pow2_double k : 2 ^ k + 2 ^ k == 2 ^ (k + 1).
Proof. rewrite pow2_succ. ring. Qed.

(** Sums, differences and products of finite numbers below powers of
    two. *)
Lemma add_below a b k :
  (-1074 <= k + 1 <= 1023)%Z ->
  finite a = true -> finite b = true ->
  Qabs (val a) <= 2 ^ k -> Qabs (val b) <= 2 ^ k ->
  finite (add a b) = true /\ Qabs (val (add a b)) <= 2 ^ (k + 1).
Proof.
  intros Hk Fa Fb Ba Bb.
  assert (B : Qabs (val a + val b) <= 2 ^ (k + 1)).
  { rewrite <- pow2_double. apply abs_add_le; assumption. }
  destruct (pow_finite _ _ Hk B) as [R1 R2].
  pose proof (add_finite_fwd a b Fa Fb R2) as F.
  split; [exact F |]. destruct (add_spec _ _ F) as (_ & _ & V).
  rewrite V. exact R1.
Qed.

Lemma sub_below a b k :
  (-1074 <= k + 1 <= 1023)%Z ->
  finite a = true -> finite b = true ->
  Qabs (val a) <= 2 ^ k -> Qabs (val b) <= 2 ^ k ->
  finite (sub a b) = true /\ Qabs (val (sub a b)) <= 2 ^ (k + 1).
Proof.
  intros Hk Fa Fb Ba Bb.
  assert (B : Qabs (val a - val b) <= 2 ^ (k + 1)).
  { rewrite <- pow2_double. apply abs_sub_le; assumption. }
  destruct (pow_finite _ _ Hk B) as [R1 R2].
  pose proof (sub_finite_fwd a b Fa Fb R2) as F.
  split; [exact F |]. destruct (sub_spec _ _ F) as (_ & _ & V).
  rewrite V. exact R1.
Qed.

Lemma mul_below a b i j :
  (-1074 <= i + j <= 1023)%Z ->
  finite a = true -> finite b = true ->
  Qabs (val a) <= 2 ^ i -> Qabs (val b) <= 2 ^ j ->
  finite (mul a b) = true /\ Qabs (val (mul a b)) <= 2 ^ (i + j).
Proof.
  intros Hk Fa Fb Ba Bb.
  assert (B : Qabs (val a * val b) <= 2 ^ (i + j)).
  { rewrite pow2_add. apply abs_mul_le; assumption. }
  destruct (pow_finite _ _ Hk B) as [R1 R2].
  pose proof (mul_finite_fwd a b Fa Fb R2) as F.
  split; [exact F |]. destruct (mul_spec _ _ F) as (_ & _ & V).
  rewrite V. exact R1.
Qed.

Lemma pow2_weaken x i j : (i <= j)%Z -> Qabs x <= 2 ^ i -> Qabs x <= 2 ^ j.
Proof. intros H B. apply Qle_trans with (2 ^ i); [exact B | now apply pow2_le]. Qed.

Lemma time_below t : (Z.abs t <= maxTime)%Z -> Qabs (inject_Z t) <= 2 ^ 53.
Proof.
  intros V. rewrite inject_Z_abs, (pow2_Z 53) by lia. rewrite <- Zle_Qle.
  unfold maxTime in *. assert (8640000000000000 < 2 ^ 53)%Z by reflexivity. lia.
Qed.

(** The zoom factor less one, for a finite delta of moderate size. *)
Lemma factor_below delta :
  finite delta = true -> Qabs (val delta) <= 2 ^ 53 ->
  finite (sub (add (ofZ 1) (div delta (ofZ 1000))) (ofZ 1)) = true
  /\ Qabs (val (sub (add (ofZ 1) (div delta (ofZ 1000))) (ofZ 1))) <= 2 ^ 55.
Proof.
  intros F B.
  destruct one_val as [F1 V1]. destruct thousand_val as [Ft Vt].
  assert (B1 : Qabs (val (ofZ 1)) <= 2 ^ 53).
  { rewrite V1. change (Qabs 1) with 1.
    assert (2 ^ 0 <= 2 ^ 53) by (apply pow2_le; lia). now compute. }
  assert (BD : Qabs (val delta / val (ofZ 1000)) <= 2 ^ 53).
  { rewrite Vt. unfold Qdiv. rewrite Qabs_Qmult.
    change (Qabs (/ 1000)) with (1 # 1000).
    pose proof (Qabs_nonneg (val delta)). lra. }
  destruct (pow_finite _ 53 ltac:(lia) BD) as [R1 R2].
  assert (Fd : finite (div delta (ofZ 1000)) = true).
  { apply div_finite_fwd; [exact F | exact Ft | rewrite Vt; discriminate | exact R2]. }
  assert (Bd : Qabs (val (div delta (ofZ 1000))) <= 2 ^ 53).
  { destruct (div_spec _ _ Fd) as (_ & [(_ & _ & V) | ((m & Em) & _)]).
    - rewrite V. exact R1.
    - rewrite Em in Ft. destruct (Bool.diff_false_true Ft). }
  destruct (add_below (ofZ 1) (div delta (ofZ 1000)) 53 ltac:(lia) F1 Fd B1 Bd)
    as [Fsc Bsc].
  apply (sub_below _ (ofZ 1) 54 ltac:(lia) Fsc F1 Bsc).
  apply (pow2_weaken _ 53); [lia | exact B1].
Qed.

(** The span of an extent of valid dates. *)
Lemma span_below s e :
  (Z.abs s <= maxTime)%Z -> (Z.abs e <= maxTime)%Z ->
  finite (sub (getTime (Some e)) (getTime (Some s))) = true
  /\ Qabs (val (sub (getTime (Some e)) (getTime (Some s)))) <= 2 ^ 54.
Proof.
  intros Vs Ve.
  destruct (getTime_val s Vs) as [Fgs Gs]. destruct (getTime_val e Ve) as [Fge Ge].
  apply (sub_below _ _ 53 ltac:(lia) Fge Fgs).
  - rewrite Ge. now apply time_below.
  - rewrite Gs. now apply time_below.
Qed.

(** The two numbers that a zoom hands to [new Date], when they are
    finite. *)
Lemma zoom_start_value delta center s e :
  (Z.abs s <= maxTime)%Z -> (Z.abs e <= maxTime)%Z ->
  0 <= val center <= 1 ->
  let x := sub (getTime (Some s))
             (mul (mul (sub (getTime (Some e)) (getTime (Some s))) center)
                (sub (add (ofZ 1) (div delta (ofZ 1000))) (ofZ 1))) in
  let D := val delta / 1000 in
  finite x = true ->
  Qabs (val x - (inject_Z s - inject_Z (e - s) * val center * D))
  <= zoomTolerance s e D.
Proof.
  intros Vs Ve Hc x D Fs. set (c := val center) in *.
  destruct (getTime_val s Vs) as [_ Gs]. destruct (getTime_val e Ve) as [_ Ge].
  destruct (sub_spec _ _ Fs) as (_ & Fa2 & Vns).
  destruct (mul_spec _ _ Fa2) as (Fa1 & Fm1 & Va2).
  destruct (mul_spec _ _ Fa1) as (Fsp & _ & Va1).
  pose proof (factor_val delta Fm1) as Vm1.
  pose proof (span_val s e Vs Ve Fsp) as Vsp.
  fold D in Vm1.
  assert (Hw : Qabs c <= 1) by (apply Qabs_Qle_condition; lra).
  assert (Hg : Qabs (c - c) <= u)
    by (apply Qabs_Qle_condition; unfold u; split; lra).
  destruct (product_error D c c (inject_Z (e - s)) Hw Hg) as [Ep Bp].
  cbv zeta in Ep, Bp.
  set (a2 := rnd (rnd (rnd (inject_Z (e - s)) * c)
                    * rnd (rnd (1 + rnd D) - 1))) in *.
  assert (Ea2 : val (mul (mul (sub (getTime (Some e)) (getTime (Some s))) center)
                     (sub (add (ofZ 1) (div delta (ofZ 1000))) (ofZ 1)))
                == a2).
  { rewrite Va2. unfold a2. apply rnd_comp.
    apply Qmult_comp; [| exact Vm1].
    rewrite Va1. apply rnd_comp. apply Qmult_comp; [exact Vsp | reflexivity]. }
  unfold x. rewrite Vns.
  rewrite (rnd_comp _ (inject_Z s - a2)) by (now rewrite Gs, Ea2).
  assert (Bsa : Qabs (inject_Z s - a2)
                <= Qabs (inject_Z s)
                   + 2 * (1 + Qabs (inject_Z (e - s))) * (1 + Qabs D))
    by (apply abs_sub_le; [apply Qle_refl | exact Bp]).
  destruct (rnd_bound _ _ Bsa) as [Er _].
  setoid_replace (rnd (inject_Z s - a2)
                  - (inject_Z s - inject_Z (e - s) * c * D))
    with ((rnd (inject_Z s - a2) - (inject_Z s - a2))
          - (a2 - inject_Z (e - s) * c * D)) by ring.
  eapply Qle_trans; [apply abs_sub_le; [exact Er | exact Ep] |].
  pose proof (tolerance_bound s e (inject_Z s) D) as T.
  pose proof (Qabs_nonneg (inject_Z e)). lra.
Qed.

Lemma zoom_end_value delta center s e :
  (Z.abs s <= maxTime)%Z -> (Z.abs e <= maxTime)%Z ->
  0 <= val center <= 1 ->
  let x := add (getTime (Some e))
             (mul (mul (sub (getTime (Some e)) (getTime (Some s)))
                     (sub (ofZ 1) center))
                (sub (add (ofZ 1) (div delta (ofZ 1000))) (ofZ 1))) in
  let D := val delta / 1000 in
  finite x = true ->
  Qabs (val x - (inject_Z e + inject_Z (e - s) * (1 - val center) * D))
  <= zoomTolerance s e D.
Proof.
  intros Vs Ve Hc x D Fe. set (c := val center) in *.
  destruct (getTime_val s Vs) as [_ Gs]. destruct (getTime_val e Ve) as [_ Ge].
  destruct one_val as [_ V1].
  destruct (add_spec _ _ Fe) as (_ & Fb2 & Vne).
  destruct (mul_spec _ _ Fb2) as (Fb1 & Fm1 & Vb2).
  destruct (mul_spec _ _ Fb1) as (Fsp & Foc & Vb1).
  pose proof (factor_val delta Fm1) as Vm1.
  pose proof (span_val s e Vs Ve Fsp) as Vsp.
  fold D in Vm1.
  destruct (sub_spec _ _ Foc) as (_ & _ & Voc).
  assert (Voc' : val (sub (ofZ 1) center) == rnd (1 - c))
    by (rewrite Voc; apply rnd_comp; now rewrite V1).
  assert (Hw : Qabs (1 - c) <= 1) by (apply Qabs_Qle_condition; lra).
  pose proof (rnd_err_le1 _ Hw) as Hg.
  destruct (product_error D (1 - c) (rnd (1 - c)) (inject_Z (e - s)) Hw Hg)
    as [Ep Bp].
  cbv zeta in Ep, Bp.
  set (b2 := rnd (rnd (rnd (inject_Z (e - s)) * rnd (1 - c))
                    * rnd (rnd (1 + rnd D) - 1))) in *.
  assert (Eb2 : val (mul (mul (sub (getTime (Some e)) (getTime (Some s)))
                            (sub (ofZ 1) center))
                     (sub (add (ofZ 1) (div delta (ofZ 1000))) (ofZ 1)))
                == b2).
  { rewrite Vb2. unfold b2. apply rnd_comp.
    apply Qmult_comp; [| exact Vm1].
    rewrite Vb1. apply rnd_comp. apply Qmult_comp; [exact Vsp | exact Voc']. }
  unfold x. rewrite Vne.
  rewrite (rnd_comp _ (inject_Z e + b2)) by (now rewrite Ge, Eb2).
  assert (Bsa : Qabs (inject_Z e + b2)
                <= Qabs (inject_Z e)
                   + 2 * (1 + Qabs (inject_Z (e - s))) * (1 + Qabs D))
    by (apply abs_add_le; [apply Qle_refl | exact Bp]).
  destruct (rnd_bound _ _ Bsa) as [Er _].
  setoid_replace (rnd (inject_Z e + b2)
                  - (inject_Z e + inject_Z (e - s) * (1 - c) * D))
    with ((rnd (inject_Z e + b2) - (inject_Z e + b2))
          + (b2 - inject_Z (e - s) * (1 - c) * D)) by ring.
  eapply Qle_trans; [apply abs_add_le; [exact Er | exact Ep] |].
  pose proof (tolerance_bound s e (inject_Z e) D) as T.
  pose proof (Qabs_nonneg (inject_Z s)). lra.
Qed.

Lemma within_range x p t b :
  Qabs (x - p) <= t -> Qabs p + t <= b -> Qabs x <= b.
Proof.
  intros H1 H2. apply Qabs_Qle_condition in H1. apply Qabs_Qle_condition.
  pose proof (Qle_Qabs p). pose proof (Qle_Qabs (- p)) as H3.
  rewrite Qabs_opp in H3. split; lra.
Qed.

(** The scale of a pan in a container of positive width: an infinity for
    an extent of no span, and otherwise a finite number other than
    zero. *)
Lemma scale_cases w s e :
  (0 < w <= 2 ^ 53)%Z -> (Z.abs s <= maxTime)%Z -> (Z.abs e <= maxTime)%Z ->
  let sc := div (ofZ w) (sub (getTime (Some e)) (getTime (Some s))) in
  ((e - s)%Z = 0%Z /\ exists m, sc = Inf m)
  \/ ((e - s)%Z <> 0%Z /\ finite sc = true /\ ~ val sc == 0
      /\ val sc == rnd (inject_Z w / rnd (inject_Z (e - s)))).
Proof.
  intros Hw Vs Ve sc.
  destruct (ofZ_val w) as [Fw Vw]; [lia |].
  pose proof (valid_span s e Vs Ve) as HX.
  destruct (span_below s e Vs Ve) as [Fsp _].
  pose proof (span_val s e Vs Ve Fsp) as Vsp.
  unfold sc. set (sp := sub (getTime (Some e)) (getTime (Some s))) in *.
  assert (W1 : 1 <= inject_Z w).
  { change 1 with (inject_Z 1). rewrite <- Zle_Qle. lia. }
  destruct (Z.eq_dec (e - s) 0) as [X0 | XN]; [left | right].
  - split; [exact X0 |].
    assert (Zsp : isZero sp = true).
    { apply (isZero_val sp Fsp). rewrite Vsp, X0. now rewrite rnd_0. }
    assert (Nw : isZero (ofZ w) = false).
    { destruct (isZero (ofZ w)) eqn:Zw; [| reflexivity].
      apply (isZero_val _ Fw) in Zw. rewrite Vw in Zw. lra. }
    rewrite (div_finite_eq _ _ Fw Fsp), Zsp, Nw. eauto.
  - split; [exact XN |].
    assert (HX1 : 1 <= Qabs (inject_Z (e - s))).
    { rewrite inject_Z_abs. change 1 with (inject_Z 1). rewrite <- Zle_Qle. lia. }
    destruct (shift_error 0 (inject_Z (e - s)) (inject_Z w) HX1 HX W1)
      as (Nsp & Nsc & _).
    cbv zeta in Nsc.
    assert (Nsp' : ~ val sp == 0) by (now rewrite Vsp).
    assert (Esc : val (ofZ w) / val sp == inject_Z w / rnd (inject_Z (e - s)))
      by (now rewrite Vw, Vsp).
    assert (Fsc : finite (div (ofZ w) sp) = true).
    { apply div_finite_fwd; [exact Fw | exact Fsp | exact Nsp' |].
      rewrite (rnd_comp _ _ Esc).
      apply Qle_lt_trans with (2 ^ 53); [| apply pow2_lt; lia].
      apply (rnd_abs_le _ (2 ^ 53) 1 53); [| ring | reflexivity | lia].
      assert (Asp : 1 <= Qabs (rnd (inject_Z (e - s)))).
      { assert (R1 : rnd 1 == 1) by (apply (rnd_Z 1); discriminate).
        apply Qabs_case; intros Sg.
        - revert HX1. apply Qabs_case; intros Sx HX1.
          + rewrite <- R1. now apply rnd_mono.
          + pose proof (rnd_mono _ _ Sx) as M. rewrite (rnd_0 0) in M by reflexivity.
            assert (Z0 : rnd (inject_Z (e - s)) == 0) by lra. contradiction.
        - revert HX1. apply Qabs_case; intros Sx HX1.
          + pose proof (rnd_mono _ _ Sx) as M. rewrite (rnd_0 0) in M by reflexivity.
            assert (Z0 : rnd (inject_Z (e - s)) == 0) by lra. contradiction.
          + assert (M : rnd (inject_Z (e - s)) <= rnd (- (1))) by (apply rnd_mono; lra).
            rewrite rnd_opp, R1 in M. lra. }
      unfold Qdiv. rewrite Qabs_Qmult, Qabs_Qinv, (Qabs_pos (inject_Z w)) by lra.
      apply Qle_shift_div_r; [lra |].
      assert (inject_Z w <= 2 ^ 53).
      { rewrite (pow2_Z 53) by lia. rewrite <- Zle_Qle. lia. }
      nra. }
    split; [exact Fsc |].
    destruct (div_spec _ _ Fsc) as (_ & [(_ & _ & Vsc) | ((m & Em) & _)]).
    + rewrite (rnd_comp _ _ Esc) in Vsc. split; [now rewrite Vsc | exact Vsc].
    + unfold sp in Em; fold sp in Em. rewrite Em in Fsp.
      destruct (Bool.diff_false_true Fsp).
Qed.

(** The shift of a pan by a finite delta of moderate size is finite. *)
Lemma shift_finite w d s e :
  (0 < w <= 2 ^ 53)%Z -> (Z.abs s <= maxTime)%Z -> (Z.abs e <= maxTime)%Z ->
  finite d = true -> Qabs (val d) <= 2 ^ 53 ->
  finite (div d (div (ofZ w) (sub (getTime (Some e)) (getTime (Some s))))) = true.
Proof.
  intros Hw Vs Ve Fd Bd.
  destruct (scale_cases w s e Hw Vs Ve) as [(_ & m & Em) | (XN & Fsc & Nsc & Vsc)].
  - rewrite Em.
    destruct d as [q | | n |]; [| | discriminate Fd | discriminate Fd];
      cbn [div]; apply zero_finite.
  - apply (div_finite_fwd _ _ Fd Fsc Nsc).
    rewrite (rnd_comp _ (val d / rnd (inject_Z w / rnd (inject_Z (e - s)))))
      by (now rewrite Vsc).
    pose proof (valid_span s e Vs Ve) as HX.
    assert (W1 : 1 <= inject_Z w).
    { change 1 with (inject_Z 1). rewrite <- Zle_Qle. lia. }
    assert (HX1 : 1 <= Qabs (inject_Z (e - s))).
    { rewrite inject_Z_abs. change 1 with (inject_Z 1). rewrite <- Zle_Qle. lia. }
    destruct (shift_error (val d) (inject_Z (e - s)) (inject_Z w) HX1 HX W1)
      as (_ & _ & Err).
    cbv zeta in Err.
    set (r := rnd (val d / rnd (inject_Z w / rnd (inject_Z (e - s))))) in *.
    set (S := val d * inject_Z (e - s) / inject_Z w) in *.
    assert (BS : Qabs S <= 2 ^ 108).
    { unfold S, Qdiv. rewrite !Qabs_Qmult, Qabs_Qinv, (Qabs_pos (inject_Z w)) by lra.
      apply Qle_shift_div_r; [lra |].
      assert (P : Qabs (val d) * Qabs (inject_Z (e - s)) <= 2 ^ 53 * 2 ^ 55).
      { pose proof (Qabs_nonneg (val d)). pose proof (Qabs_nonneg (inject_Z (e - s))).
        pose proof (pow2_pos 53). pose proof (pow2_pos 55). nra. }
      rewrite <- (pow2_add 53 55) in P. change (53 + 55)%Z with 108%Z in P.
      pose proof (pow2_pos 108). nra. }
    assert (Br : Qabs r <= 2 ^ 109).
    { setoid_replace (2 ^ 109) with (2 ^ 108 + 2 ^ 108)
        by (symmetry; apply (pow2_double 108)).
      setoid_replace r with (S + (r - S)) by ring.
      apply abs_add_le; [exact BS |].
      eapply Qle_trans; [exact Err |].
      pose proof (Qabs_nonneg S). pose proof (pow2_pos 108).
      assert (1 <= 2 ^ 108)
        by (change 1 with (2 ^ 0); apply pow2_le; lia).
      unfold u, tiny. lra. }
    apply Qle_lt_trans with (2 ^ 109); [exact Br | apply pow2_lt; lia].
Qed.

(** The number that a pan hands to [new Date] for the bound [t]. *)
Lemma pan_value sh S (s e t : Z) :
  Qabs (val sh - S) <= 4 * u * Qabs S + tiny ->
  Qabs (inject_Z t) <= Qabs (inject_Z s) + Qabs (inject_Z e) ->
  Qabs (rnd (inject_Z t - val sh) - (inject_Z t - S)) <= panTolerance s e S.
Proof.
  intros Err Ht.
  assert (Bv : Qabs (val sh) <= Qabs S + (4 * u * Qabs S + tiny)).
  { setoid_replace (val sh) with (S + (val sh - S)) by ring.
    apply abs_add_le; [apply Qle_refl | exact Err]. }
  assert (Bt : Qabs (inject_Z t - val sh)
               <= Qabs (inject_Z t) + (Qabs S + (4 * u * Qabs S + tiny)))
    by (apply abs_sub_le; [apply Qle_refl | exact Bv]).
  destruct (rnd_bound _ _ Bt) as [Er _].
  setoid_replace (rnd (inject_Z t - val sh) - (inject_Z t - S))
    with ((rnd (inject_Z t - val sh) - (inject_Z t - val sh)) - (val sh - S))
    by ring.
  eapply Qle_trans; [apply abs_sub_le; [exact Er | exact Err] |].
  pose proof (Qabs_nonneg (inject_Z s)). pose proof (Qabs_nonneg (inject_Z e)).
  pose proof (Qabs_nonneg (inject_Z t)). pose proof (Qabs_nonneg S).
  unfold panTolerance, Qdiv.
  change (/ 1125899906842624) with (1 # 1125899906842624).
  unfold u, tiny. lra.
Qed.

End ReturnFacts.

(** ** The sign of an extent's span *)

Module SpanFacts.

Lemma calculateExtent_le collection ext :
  calculateExtent collection = Ok ext -> ext_start ext <= ext_end ext.
Proof.
  unfold calculateExtent.
  destruct (flat_map events collection) as [| e0 rest]; [discriminate |].
  destruct (ExtentFacts.reduceExtent_spec e0 rest) as (_ & _ & _ & Hle).
  destruct (20 <? _); intros H; inversion H; subst ext; cbn.
  - apply Z.lt_le_incl, ExtentFacts.newDateYear_after.
  - exact Hle.
Qed.

End SpanFacts.

(** C5, as stated, fails.  A single point event yields an extent whose end
    equals its start.  In a container 1000 px wide a wheel event with
    [deltaY = -1000] turns the extent 0..1000 into 500..500 with the pointer
    at 500 px and into 59..58 with the pointer at 59 px, and one with
    [deltaY = -2000] turns it into 1000..0; each is returned as the new
    extent, the prior one not being retained.  A pan in a container of
    width 0 returns two Invalid Dates. *)
Lemma extent_positive_span_counterexample :
  let point := {| title := "point"; start := 0; end_ := None; color := None |} in
  let prior := {| Double.ext_start := Some 0; Double.ext_end := Some 1000 |} in
  let wheel deltaY clientX :=
    Double.handleWheel 1000 (Double.ofZ deltaY) (Double.ofZ clientX) prior in
  calculateExtent [ {| events := [point]; ec_title := "row" |} ]
  = Ok {| ext_start := 0; ext_end := 0 |}
  /\ wheel (-1000) 500 = {| Double.ext_start := Some 500; Double.ext_end := Some 500 |}
  /\ wheel (-1000) 59 = {| Double.ext_start := Some 59; Double.ext_end := Some 58 |}
  /\ wheel (-2000) 500 = {| Double.ext_start := Some 1000; Double.ext_end := Some 0 |}
  /\ Double.calculateNewPan 0 (Double.ofZ 1) (Some 0) (Some 1000)
     = {| Double.ext_start := None; Double.ext_end := None |}
  /\ ~ (forall ext, calculateExtent [ {| events := [point]; ec_title := "row" |} ]
                    = Ok ext -> ext_start ext < ext_end ext)
  /\ ~ (forall deltaY s e,
          wheel deltaY 500
          = {| Double.ext_start := Some s; Double.ext_end := Some e |} ->
          s < e \/ (s = 0 /\ e = 1000)).
Proof.
  cbv zeta. split; [vm_compute; reflexivity |].
  split; [vm_compute; reflexivity |].
  split; [vm_compute; reflexivity |].
  split; [vm_compute; reflexivity |].
  split; [vm_compute; reflexivity |].
  split.
  - intros H. specialize (H _ eq_refl). vm_compute in H. discriminate.
  - intros H. destruct (H (-1000) 500 500) as [L | [E _]].
    + vm_compute; reflexivity.
    + lia.
    + discriminate.
Qed.

(** C5, amended.  The extent computed by [calculateExtent] ends no earlier
    than it starts, and a pan of an extent of valid dates with
    [start <= end] returns [start <= end] whenever it returns valid
    dates.  Nothing of the kind holds of a zoom. *)
Theorem extent_start_le_end :
  (forall collection ext,
      calculateExtent collection = Ok ext -> ext_start ext <= ext_end ext)
  /\ (forall offsetWidth delta s e s' e',
        Double.validTime s -> Double.validTime e -> s <= e ->
        Double.calculateNewPan offsetWidth delta (Some s) (Some e)
        = {| Double.ext_start := Some s'; Double.ext_end := Some e' |} ->
        s' <= e').
Proof.
  split; [exact SpanFacts.calculateExtent_le |].
  intros w d s e s' e' Vs Ve Hle H.
  exact (PanDouble.pan_order w d s e s' e' H Vs Ve Hle).
Qed.

Lemma extent_start_le_end_witness :
  let collection :=
    [ {| events := [ {| title := "a"; start := 5; end_ := Some 9; color := None |} ];
         ec_title := "row" |} ] in
  (calculateExtent collection = Ok {| ext_start := 5; ext_end := 9 |}
   /\ ext_start {| ext_start := 5; ext_end := 9 |}
      <= ext_end {| ext_start := 5; ext_end := 9 |})
  /\ (Double.validTime 0 /\ Double.validTime 100 /\ 0 <= 100
      /\ Double.calculateNewPan 7 (Double.ofZ (-7)) (Some 0) (Some 100)
         = {| Double.ext_start := Some 99; Double.ext_end := Some 200 |}
      /\ 99 <= 200).
Proof.
  cbv zeta.
  destruct extent_start_le_end as (HE & HP).
  split.
  - split; [vm_compute; reflexivity |].
    apply (HE [ {| events := [ {| title := "a"; start := 5; end_ := Some 9;
                                  color := None |} ];
                   ec_title := "row" |} ]).
    vm_compute; reflexivity.
  - assert (V0 : Double.validTime 0) by (unfold Double.validTime, Double.maxTime; simpl; lia).
    assert (V1 : Double.validTime 100) by (unfold Double.validTime, Double.maxTime; simpl; lia).
    assert (L : 0 <= 100) by lia.
    assert (R : Double.calculateNewPan 7 (Double.ofZ (-7)) (Some 0) (Some 100)
                = {| Double.ext_start := Some 99; Double.ext_end := Some 200 |})
      by (vm_compute; reflexivity).
    split; [exact V0 |]. split; [exact V1 |]. split; [exact L |].
    split; [exact R |].
    exact (HP 7 (Double.ofZ (-7)) 0 100 99 200 V0 V1 L R).
Defined.

(** ** Zoom *)

Module ZoomGesture.
Import Double PowFacts LogFacts RndFacts DoubleFacts ErrorFacts ZoomDouble.
Local Open Scope Q_scope.

(** Doubling a Number is exact. *)
Lemma double_exact x : rnd x == x -> rnd (x * 2) == x * 2.
Proof.
  intros R. destruct (Qeq_dec x 0) as [Zx | NZ].
  - rewrite (rnd_0 (x * 2)) by (rewrite Zx; reflexivity). rewrite Zx. reflexivity.
  - pose proof (rnd_eq x NZ) as E. rewrite R in E.
    set (j := ulpExp x) in *. set (n := nearestEven (x / 2 ^ j)) in *.
    assert (Hj : (-1074 <= j)%Z) by (unfold j, ulpExp; lia).
    assert (Hj2 : (ilog2 x + 1 <= j + 53)%Z) by (unfold j, ulpExp; lia).
    destruct (ilog2_spec x NZ) as [_ Hu].
    pose proof (pow2_le _ _ Hj2) as Hp. rewrite (pow2_add j 53) in Hp.
    pose proof (pow2_pos j) as Pj.
    assert (Hn : (Z.abs n < 2 ^ 53)%Z).
    { rewrite Zlt_Qlt. rewrite <- PanWithin.inject_Z_abs.
      rewrite <- (pow2_Z 53) by lia.
      assert (A : Qabs x == Qabs (inject_Z n) * 2 ^ j).
      { rewrite E at 1. rewrite Qabs_Qmult. rewrite (Qabs_pos (2 ^ j)) by lra.
        reflexivity. }
      rewrite A in Hu.
      apply Qnot_le_lt. intros C.
      assert (2 ^ 53 * 2 ^ j <= Qabs (inject_Z n) * 2 ^ j) by nra.
      lra. }
    apply (rnd_exact (x * 2) n (j + 1)); [| exact Hn | lia].
    rewrite pow2_succ. rewrite E at 1. ring.
Qed.

Lemma two_val : finite (ofZ 2) = true /\ val (ofZ 2) == 2.
Proof. split; [reflexivity | now compute]. Qed.

(** The doubled zoom delta of a drag. *)
Lemma mul_two a :
  isNumber a -> finite (mul a (ofZ 2)) = true ->
  val (mul a (ofZ 2)) == val a * 2.
Proof.
  intros N F. destruct (mul_spec _ _ F) as (_ & _ & V).
  destruct two_val as [_ V2].
  rewrite V. rewrite (rnd_comp _ (val a * 2)) by (now rewrite V2).
  apply double_exact. exact N.
Qed.

(** A zoom that yields valid Dates was given a finite delta. *)
Lemma zoom_delta_finite delta center s e s' e' :
  calculateNewZoom delta center s e
  = {| ext_start := Some s'; ext_end := Some e' |} ->
  finite delta = true.
Proof.
  intros H. unfold calculateNewZoom in H.
  apply extent_inj in H. destruct H as [Hs _].
  apply newDate_spec in Hs. destruct Hs as (Fs & _).
  destruct (sub_spec _ _ Fs) as (_ & Fa2 & _).
  destruct (mul_spec _ _ Fa2) as (_ & Fm1 & _).
  destruct (sub_spec _ _ Fm1) as (Fsc & _ & _).
  destruct (add_spec _ _ Fsc) as (_ & Fd & _).
  destruct (div_spec _ _ Fd) as (Fdelta & _).
  exact Fdelta.
Qed.

(** A zoom that yields valid Dates was given valid Dates. *)
Lemma zoom_dates delta center s e s' e' :
  calculateNewZoom delta center s e
  = {| ext_start := Some s'; ext_end := Some e' |} ->
  exists ts te, s = Some ts /\ e = Some te.
Proof.
  intros H. unfold calculateNewZoom in H.
  apply extent_inj in H. destruct H as [Hs _].
  apply newDate_spec in Hs. destruct Hs as (Fs & _).
  destruct (sub_spec _ _ Fs) as (_ & Fa2 & _).
  destruct (mul_spec _ _ Fa2) as (Fa1 & _ & _).
  destruct (mul_spec _ _ Fa1) as (Fsp & _ & _).
  destruct (sub_spec _ _ Fsp) as (Fe & Fs' & _).
  destruct s as [ts |]; [| discriminate Fs'].
  destruct e as [te |]; [| discriminate Fe].
  exists ts, te. split; reflexivity.
Qed.

(** The time value of a valid Date is within the range of Date. *)
Lemma newDate_valid x t : newDate x = Some t -> validTime t.
Proof.
  intros H. apply newDate_spec in H. destruct H as (_ & T & B).
  rewrite T. unfold validTime. apply trunc_abs. exact B.
Qed.

Lemma extent_eta ext :
  ext = {| ext_start := ext_start ext; ext_end := ext_end ext |}.
Proof. destruct ext; reflexivity. Qed.

(** The bounds the specification gives, for the sensitivity [K], against
    those of [zoom_within]. *)
Lemma within_zoom K delta center (s e s' e' : Z) :
  ~ K == 0 ->
  let D := delta / K in
  Qabs (inject_Z s' - (inject_Z s - inject_Z (e - s) * center * D))
  < 1 + zoomTolerance s e D
  /\ Qabs (inject_Z e' - (inject_Z e + inject_Z (e - s) * (1 - center) * D))
     < 1 + zoomTolerance s e D ->
  within (Spec.zoom K delta center (inject_Z s) (inject_Z e)) s' e'
    (zoomTolerance s e (delta / K)).
Proof.
  intros HK D [Hs He]. unfold within, Spec.zoom. cbn [fst snd].
  assert (Sp : inject_Z (e - s) == inject_Z e - inject_Z s)
    by (unfold Z.sub; rewrite inject_Z_plus, inject_Z_opp; ring).
  fold D. split.
  - setoid_replace (inject_Z s'
                    - (inject_Z s - (inject_Z e - inject_Z s) * center * (1 + D - 1)))
      with (inject_Z s' - (inject_Z s - inject_Z (e - s) * center * D))
      by (rewrite Sp; ring).
    exact Hs.
  - setoid_replace (inject_Z e'
                    - (inject_Z e + (inject_Z e - inject_Z s) * (1 - center) * (1 + D - 1)))
      with (inject_Z e' - (inject_Z e + inject_Z (e - s) * (1 - center) * D))
      by (rewrite Sp; ring).
    exact He.
Qed.

End ZoomGesture.

(** C6, as stated, fails for the drag gesture: with [zoomDelta = 250] and
    the pinch centre at the left edge, the stated sensitivity 250 gives the
    factor 2 and the end 2000, but the handler doubles the delta and
    divides by 1000, which gives the factor 3/2 and the end 1500, more
    than the rounding allowance away. *)
Lemma zoom_sensitivity_counterexample :
  let prior := {| Double.ext_start := Some 0; Double.ext_end := Some 1000 |} in
  let dragged :=
    Double.onDragExtent 1000 (Double.ofZ 0) (Double.ofZ 250) (Double.ofZ 0) prior in
  Double.calculateNewPan 1000 (Double.ofZ 0) (Some 0) (Some 1000) = prior
  /\ dragged = {| Double.ext_start := Some 0; Double.ext_end := Some 1500 |}
  /\ (snd (Spec.zoom 250 250 0 0 1000) == 2000)%Q
  /\ ~ Double.within (Spec.zoom 250 250 0 0 1000) 0 1500
         (Double.zoomTolerance 0 1000 (250 / 250)).
Proof.
  cbv zeta. split; [vm_compute; reflexivity |].
  split; [vm_compute; reflexivity |].
  split; [vm_compute; reflexivity |].
  intros [_ H]. vm_compute in H. discriminate.
Qed.

(** C6, amended.  Whenever the zoom of an extent of valid dates returns
    valid dates, they are the stated bounds up to the truncation to a whole
    millisecond (less than 1 ms) and the rounding of the arithmetic (the
    allowance [zoomTolerance]), with [factor = 1 + deltaUnits / K], where
    [K = 1000] for a wheel event and [K = 500] for a drag, whose delta is
    doubled before the division by 1000; a drag pans first and zooms the
    panned extent. *)
Theorem zoom_formula (offsetWidth : Z) (s e : Z) :
  Double.validTime s -> Double.validTime e ->
  let extent := {| Double.ext_start := Some s; Double.ext_end := Some e |} in
  (forall deltaY clientX s' e',
      let center := Double.div clientX (Double.ofZ offsetWidth) in
      (0 <= Double.val center <= 1)%Q ->
      Double.handleWheel offsetWidth deltaY clientX extent
      = {| Double.ext_start := Some s'; Double.ext_end := Some e' |} ->
      Double.within
        (Spec.zoom 1000 (Double.val deltaY) (Double.val center)
           (inject_Z s) (inject_Z e))
        s' e' (Double.zoomTolerance s e (Double.val deltaY / 1000)))
  /\ (forall panDelta zoomDelta x s' e',
        let center := Double.div x (Double.ofZ offsetWidth) in
        Double.isNumber zoomDelta ->
        (0 <= Double.val center <= 1)%Q ->
        Double.onDragExtent offsetWidth panDelta zoomDelta x extent
        = {| Double.ext_start := Some s'; Double.ext_end := Some e' |} ->
        exists ps pe,
          Double.calculateNewPan offsetWidth panDelta (Some s) (Some e)
          = {| Double.ext_start := Some ps; Double.ext_end := Some pe |}
          /\ Double.within
               (Spec.zoom 500 (Double.val zoomDelta) (Double.val center)
                  (inject_Z ps) (inject_Z pe))
               s' e' (Double.zoomTolerance ps pe (Double.val zoomDelta / 500))).
Proof.
  intros Vs Ve extent. split.
  - intros deltaY clientX s' e' center Hc H.
    unfold Double.handleWheel in H. fold center in H.
    destruct (Double.neqb deltaY (Double.ofZ 0)) eqn:N.
    + apply (ZoomGesture.within_zoom 1000 (Double.val deltaY) (Double.val center)
               s e s' e'); [discriminate |].
      exact (ZoomDouble.zoom_within deltaY center s e s' e' Vs Ve Hc H).
    + apply DoubleFacts.extent_inj in H. destruct H as [Es Ee].
      injection Es as <-. injection Ee as <-.
      assert (V0 : (Double.val deltaY == 0)%Q).
      { destruct deltaY as [q | | n |]; cbn in N; try discriminate;
          [| reflexivity].
        apply Bool.negb_false_iff in N. apply Qeq_bool_iff in N.
        cbn. rewrite N. reflexivity. }
      unfold Double.within, Spec.zoom. cbn [fst snd].
      assert (T : (0 <= Double.zoomTolerance s e (Double.val deltaY / 1000))%Q).
      { unfold Double.zoomTolerance.
        pose proof (Qabs_nonneg (inject_Z s)). pose proof (Qabs_nonneg (inject_Z e)).
        pose proof (Qabs_nonneg (Double.val deltaY / 1000)).
        unfold Qdiv at 1. change (/ 281474976710656)%Q with (1 # 281474976710656)%Q.
        nra. }
      split.
      * setoid_replace (inject_Z s
                        - (inject_Z s - (inject_Z e - inject_Z s) * Double.val center
                                        * (1 + Double.val deltaY / 1000 - 1)))%Q
          with 0%Q by (rewrite V0; field).
        change (Qabs 0) with 0%Q. lra.
      * setoid_replace (inject_Z e
                        - (inject_Z e + (inject_Z e - inject_Z s) * (1 - Double.val center)
                                        * (1 + Double.val deltaY / 1000 - 1)))%Q
          with 0%Q by (rewrite V0; field).
        change (Qabs 0) with 0%Q. lra.
  - intros panDelta zoomDelta x s' e' center Nz Hc H.
    unfold Double.onDragExtent in H. fold center in H.
    cbn [Double.ext_start Double.ext_end extent] in H.
    destruct (ZoomGesture.zoom_dates _ _ _ _ _ _ H) as (ps & pe & Eps & Epe).
    pose proof (ZoomGesture.zoom_delta_finite _ _ _ _ _ _ H) as Fd.
    pose proof (ZoomGesture.mul_two zoomDelta Nz Fd) as Vd.
    exists ps, pe. split.
    + rewrite (ZoomGesture.extent_eta (Double.calculateNewPan _ _ _ _)).
      rewrite Eps, Epe. reflexivity.
    + assert (Vps : Double.validTime ps)
        by (apply (ZoomGesture.newDate_valid _ _ Eps)).
      assert (Vpe : Double.validTime pe)
        by (apply (ZoomGesture.newDate_valid _ _ Epe)).
      rewrite Eps, Epe in H.
      pose proof (ZoomDouble.zoom_within _ center ps pe s' e' Vps Vpe Hc H) as W.
      cbv zeta in W.
      assert (ED : (Double.val (Double.mul zoomDelta (Double.ofZ 2)) / 1000
                    == Double.val zoomDelta / 500)%Q)
        by (rewrite Vd; field).
      apply (ZoomGesture.within_zoom 500 (Double.val zoomDelta) (Double.val center)
               ps pe s' e'); [discriminate |]. cbv zeta.
      unfold Double.zoomTolerance in *.
      rewrite ED in W. exact W.
Qed.

Lemma zoom_formula_witness :
  let extent := {| Double.ext_start := Some 0; Double.ext_end := Some 1000 |} in
  Double.validTime 0 /\ Double.validTime 1000
  /\ (let center := Double.div (Double.ofZ 500) (Double.ofZ 1000) in
      (0 <= Double.val center <= 1)%Q
      /\ Double.handleWheel 1000 (Double.ofZ (-100)) (Double.ofZ 500) extent
         = {| Double.ext_start := Some 49; Double.ext_end := Some 950 |}
      /\ Double.within
           (Spec.zoom 1000 (Double.val (Double.ofZ (-100))) (Double.val center)
              (inject_Z 0) (inject_Z 1000))
           49 950
           (Double.zoomTolerance 0 1000 (Double.val (Double.ofZ (-100)) / 1000)))
  /\ (let center := Double.div (Double.ofZ 0) (Double.ofZ 1000) in
      Double.isNumber (Double.ofZ 250)
      /\ (0 <= Double.val center <= 1)%Q
      /\ Double.onDragExtent 1000 (Double.ofZ 0) (Double.ofZ 250) (Double.ofZ 0) extent
         = {| Double.ext_start := Some 0; Double.ext_end := Some 1500 |}
      /\ exists ps pe,
           Double.calculateNewPan 1000 (Double.ofZ 0) (Some 0) (Some 1000)
           = {| Double.ext_start := Some ps; Double.ext_end := Some pe |}
           /\ Double.within
                (Spec.zoom 500 (Double.val (Double.ofZ 250)) (Double.val center)
                   (inject_Z ps) (inject_Z pe))
                0 1500
                (Double.zoomTolerance ps pe (Double.val (Double.ofZ 250) / 500))).
Proof.
  cbv zeta.
  assert (V0 : Double.validTime 0)
    by (unfold Double.validTime, Double.maxTime; simpl; lia).
  assert (V1 : Double.validTime 1000)
    by (unfold Double.validTime, Double.maxTime; simpl; lia).
  destruct (zoom_formula 1000 0 1000 V0 V1) as [HW HD].
  split; [exact V0 |]. split; [exact V1 |].
  split.
  - assert (C : (0 <= Double.val (Double.div (Double.ofZ 500) (Double.ofZ 1000)) <= 1)%Q)
      by (vm_compute; split; discriminate).
    assert (R : Double.handleWheel 1000 (Double.ofZ (-100)) (Double.ofZ 500)
                  {| Double.ext_start := Some 0; Double.ext_end := Some 1000 |}
                = {| Double.ext_start := Some 49; Double.ext_end := Some 950 |})
      by (vm_compute; reflexivity).
    split; [exact C |]. split; [exact R |].
    exact (HW (Double.ofZ (-100)) (Double.ofZ 500) 49 950 C R).
  - assert (N : Double.isNumber (Double.ofZ 250)) by (vm_compute; reflexivity).
    assert (C : (0 <= Double.val (Double.div (Double.ofZ 0) (Double.ofZ 1000)) <= 1)%Q)
      by (vm_compute; split; discriminate).
    assert (R : Double.onDragExtent 1000 (Double.ofZ 0) (Double.ofZ 250) (Double.ofZ 0)
                  {| Double.ext_start := Some 0; Double.ext_end := Some 1000 |}
                = {| Double.ext_start := Some 0; Double.ext_end := Some 1500 |})
      by (vm_compute; reflexivity).
    split; [exact N |]. split; [exact C |]. split; [exact R |].
    exact (HD (Double.ofZ 0) (Double.ofZ 250) (Double.ofZ 0) 0 1500 N C R).
Defined.

(** ** Pan *)

Module PanFacts.
Local Open Scope Q_scope.



End PanFacts.

Module PanTrip.
Import Double DoubleFacts PanDouble PanWithin.
Local Open Scope Q_scope.

(** The two bounds of a pan that yields valid Dates are time values within
    the range of Date. *)
Lemma pan_valid w d s e s' e' :
  calculateNewPan w d s e = {| ext_start := Some s'; ext_end := Some e' |} ->
  validTime s' /\ validTime e'.
Proof.
  intros H. unfold calculateNewPan in H. apply extent_inj in H.
  destruct H as [Hs He]. apply newDate_spec in Hs, He.
  destruct Hs as (_ & Ts & Bs). destruct He as (_ & Te & Be).
  unfold validTime. rewrite Ts, Te.
  split; apply ZoomDouble.trunc_abs; assumption.
Qed.

(** Two errors, and a shift whose span is off by at most one
    millisecond. *)
Lemma trip_error (x x1 x2 S k tA tB : Q) (n : Z) :
  Qabs (x1 - (x + S)) < 1 + tA ->
  Qabs (x2 - (x1 - (S + k * inject_Z n))) < 1 + tB ->
  (Z.abs n <= 1)%Z ->
  Qabs (x2 - x) < 2 + Qabs k + tA + tB.
Proof.
  intros H1 H2 Hn.
  assert (Hk : Qabs (k * inject_Z n) <= Qabs k).
  { rewrite Qabs_Qmult. rewrite inject_Z_abs.
    assert (B : inject_Z (Z.abs n) <= 1)
      by (change 1 with (inject_Z 1); rewrite <- Zle_Qle; exact Hn).
    assert (B0 : 0 <= inject_Z (Z.abs n))
      by (change 0 with (inject_Z 0); rewrite <- Zle_Qle; lia).
    pose proof (Qabs_nonneg k). nra. }
  apply Qabs_Qlt_condition in H1, H2. apply Qabs_Qle_condition in Hk.
  apply Qabs_Qlt_condition. lra.
Qed.

End PanTrip.

(** C7, as stated, fails, and by more than the rounding of the
    arithmetic: every pan stores whole milliseconds.  In a container 3 px
    wide, panning 0..1000 by -1 px moves it by 333 ms (from 333.33), and
    panning back by 1 px yields 0..999. *)
Lemma pan_inverse_counterexample :
  let back :=
    Double.calculateNewPan 3 (Double.opp (Double.ofZ 1)) (Some 0) (Some 1000) in
  let again :=
    Double.calculateNewPan 3 (Double.ofZ 1)
      (Double.ext_start back) (Double.ext_end back) in
  back = {| Double.ext_start := Some 333; Double.ext_end := Some 1333 |}
  /\ again = {| Double.ext_start := Some 0; Double.ext_end := Some 999 |}
  /\ again <> {| Double.ext_start := Some 0; Double.ext_end := Some 1000 |}.
Proof.
  cbv zeta. split; [vm_compute; reflexivity |].
  split; [vm_compute; reflexivity |].
  vm_compute. discriminate.
Qed.

(** C7, amended.  In a container of positive width, a pan that returns
    valid dates shifts both bounds by [-deltaPx / scale], that is by
    [-deltaPx * (end - start) / w], up to the truncation to a whole
    millisecond (less than 1 ms) and the rounding of the arithmetic (the
    allowance [panTolerance]); and panning by [-d] and then by [d] returns
    an extent whose start and end are each less than [2 + |d / w|]
    milliseconds and the two allowances away from the original ones. *)
Theorem pan_round_trip (w : Z) (d : Double.double) (s e s1 e1 s2 e2 : Z) :
  0 < w <= 2 ^ 53 -> Double.validTime s -> Double.validTime e ->
  Double.calculateNewPan w (Double.opp d) (Some s) (Some e)
  = {| Double.ext_start := Some s1; Double.ext_end := Some e1 |} ->
  Double.calculateNewPan w d (Some s1) (Some e1)
  = {| Double.ext_start := Some s2; Double.ext_end := Some e2 |} ->
  let shift := (Double.val d * inject_Z (e - s) / inject_Z w)%Q in
  let shift1 := (Double.val d * inject_Z (e1 - s1) / inject_Z w)%Q in
  let back := Double.panTolerance s e (- shift) in
  let again := Double.panTolerance s1 e1 shift1 in
  Double.within (inject_Z s + shift, inject_Z e + shift)%Q s1 e1 back
  /\ Double.within (inject_Z s1 - shift1, inject_Z e1 - shift1)%Q s2 e2 again
  /\ (Qabs (inject_Z s2 - inject_Z s)
      < 2 + Qabs (Double.val d / inject_Z w) + back + again)%Q
  /\ (Qabs (inject_Z e2 - inject_Z e)
      < 2 + Qabs (Double.val d / inject_Z w) + back + again)%Q.
Proof.
  intros Hw Vs Ve H1 H2 shift shift1 back again.
  destruct (PanTrip.pan_valid _ _ _ _ _ _ H1) as [Vs1 Ve1].
  pose proof (PanWithin.pan_within w (Double.opp d) s e s1 e1 Hw Vs Ve H1) as W1.
  pose proof (PanWithin.pan_within w d s1 e1 s2 e2 Hw Vs1 Ve1 H2) as W2.
  pose proof (PanDouble.pan_span w (Double.opp d) s e s1 e1 H1 Vs Ve) as Sp.
  cbv zeta in W1, W2. fold shift1 in W2. fold again in W2.
  assert (HwQ : ~ (inject_Z w == 0)%Q).
  { intros E. apply (proj1 (inject_Z_injective _ 0)) in E. lia. }
  assert (ES : (Double.val (Double.opp d) * inject_Z (e - s) / inject_Z w
                == - shift)%Q).
  { rewrite DoubleFacts.opp_val. unfold shift. field. exact HwQ. }
  assert (W1' : Double.within (inject_Z s + shift, inject_Z e + shift)%Q s1 e1 back).
  { unfold Double.within, back. cbn [fst snd].
    unfold Double.panTolerance in *. rewrite ES in W1.
    destruct W1 as [A B]. split.
    - setoid_replace (inject_Z s1 - (inject_Z s + shift))%Q
        with (inject_Z s1 - (inject_Z s - - shift))%Q by ring. exact A.
    - setoid_replace (inject_Z e1 - (inject_Z e + shift))%Q
        with (inject_Z e1 - (inject_Z e - - shift))%Q by ring. exact B. }
  split; [exact W1' |]. split; [exact W2 |].
  set (n := (e1 - s1 - (e - s))%Z) in *.
  assert (E1 : (shift1 == shift + Double.val d / inject_Z w * inject_Z n)%Q).
  { unfold shift1, shift, n.
    replace (e1 - s1)%Z with ((e - s) + (e1 - s1 - (e - s)))%Z by lia.
    rewrite inject_Z_plus.
    replace (e - s + (e1 - s1 - (e - s)) - (e - s))%Z with (e1 - s1 - (e - s))%Z by lia.
    field. exact HwQ. }
  destruct W1' as [A1 B1]. destruct W2 as [A2 B2]. cbn [fst snd] in A1, B1, A2, B2.
  split.
  - apply (PanTrip.trip_error (inject_Z s) (inject_Z s1) (inject_Z s2) shift
             (Double.val d / inject_Z w) back again n); [exact A1 | | exact Sp].
    setoid_replace (inject_Z s2 - (inject_Z s1
                                   - (shift + Double.val d / inject_Z w * inject_Z n)))%Q
      with (inject_Z s2 - (inject_Z s1 - shift1))%Q by (rewrite E1; ring).
    exact A2.
  - apply (PanTrip.trip_error (inject_Z e) (inject_Z e1) (inject_Z e2) shift
             (Double.val d / inject_Z w) back again n); [exact B1 | | exact Sp].
    setoid_replace (inject_Z e2 - (inject_Z e1
                                   - (shift + Double.val d / inject_Z w * inject_Z n)))%Q
      with (inject_Z e2 - (inject_Z e1 - shift1))%Q by (rewrite E1; ring).
    exact B2.
Qed.

Lemma pan_round_trip_witness :
  let d := Double.ofZ 1 in
  (0 < 3 <= 2 ^ 53) /\ Double.validTime 0 /\ Double.validTime 1000
  /\ Double.calculateNewPan 3 (Double.opp d) (Some 0) (Some 1000)
     = {| Double.ext_start := Some 333; Double.ext_end := Some 1333 |}
  /\ Double.calculateNewPan 3 d (Some 333) (Some 1333)
     = {| Double.ext_start := Some 0; Double.ext_end := Some 999 |}
  /\ (let shift := (Double.val d * inject_Z (1000 - 0) / inject_Z 3)%Q in
      let shift1 := (Double.val d * inject_Z (1333 - 333) / inject_Z 3)%Q in
      let back := Double.panTolerance 0 1000 (- shift) in
      let again := Double.panTolerance 333 1333 shift1 in
      Double.within (inject_Z 0 + shift, inject_Z 1000 + shift)%Q 333 1333 back
      /\ Double.within (inject_Z 333 - shift1, inject_Z 1333 - shift1)%Q 0 999 again
      /\ (Qabs (inject_Z 0 - inject_Z 0)
          < 2 + Qabs (Double.val d / inject_Z 3) + back + again)%Q
      /\ (Qabs (inject_Z 999 - inject_Z 1000)
          < 2 + Qabs (Double.val d / inject_Z 3) + back + again)%Q).
Proof.
  cbv zeta.
  assert (Hw : 0 < 3 <= 2 ^ 53) by (split; [lia | vm_compute; discriminate]).
  assert (V0 : Double.validTime 0)
    by (unfold Double.validTime, Double.maxTime; simpl; lia).
  assert (V1 : Double.validTime 1000)
    by (unfold Double.validTime, Double.maxTime; simpl; lia).
  assert (R1 : Double.calculateNewPan 3 (Double.opp (Double.ofZ 1)) (Some 0) (Some 1000)
               = {| Double.ext_start := Some 333; Double.ext_end := Some 1333 |})
    by (vm_compute; reflexivity).
  assert (R2 : Double.calculateNewPan 3 (Double.ofZ 1) (Some 333) (Some 1333)
               = {| Double.ext_start := Some 0; Double.ext_end := Some 999 |})
    by (vm_compute; reflexivity).
  split; [exact Hw |]. split; [exact V0 |]. split; [exact V1 |].
  split; [exact R1 |]. split; [exact R2 |].
  exact (pan_round_trip 3 (Double.ofZ 1) 0 1000 333 1333 0 999 Hw V0 V1 R1 R2).
Defined.

(** ** Lane assignment *)

Module LaneFacts.

Lemma ltb_lt a b : Num.ltb a b = true <-> (a < b)%Q.
Proof.
  unfold Num.ltb. rewrite negb_true_iff. split.
  - intros H. apply Qnot_le_lt. intros L. apply Qle_bool_iff in L. congruence.
  - intros H. destruct (Qle_bool b a) eqn:E; [| reflexivity].
    apply Qle_bool_iff in E. apply Qlt_not_le in H. contradiction.
Qed.

(** A lane the loop rejects holds an event whose span overlaps. *)
Lemma conflicts_true placed l dw ln :
  conflicts placed l dw ln = true ->
  exists p, In p placed /\ lane p = ln.
Proof.
  unfold conflicts. intros H. apply existsb_exists in H.
  destruct H as (p & Hin & Hp). exists p. split; [exact Hin |].
  apply andb_prop in Hp. destruct Hp as [Hp _].
  apply andb_prop in Hp. destruct Hp as [Hp _].
  now apply Nat.eqb_eq.
Qed.

(** A lane the loop accepts holds no event whose span overlaps. *)
Lemma conflicts_false placed l dw ln :
  conflicts placed l dw ln = false ->
  forall p, In p placed -> lane p = ln ->
            ~ ((left p < l + dw)%Q /\ (l < left p + displayWidth p)%Q).
Proof.
  unfold conflicts. intros H p Hin Hl [H1 H2].
  assert (T : existsb
                (fun p => Nat.eqb (lane p) ln && Num.ltb (left p) (l + dw)%Q
                          && Num.ltb l (left p + displayWidth p)%Q) placed = true).
  { apply existsb_exists. exists p. split; [exact Hin |].
    apply Nat.eqb_eq in Hl. apply ltb_lt in H1. apply ltb_lt in H2.
    now rewrite Hl, H1, H2. }
  congruence.
Qed.

(** The lane that stands in when no placed event has the colour is always
    lane 0. *)
Lemma preferredLane_default placed ev :
  find (fun x => color_eqb (color (event x)) (color ev)) placed = None ->
  preferredLane placed ev = 0%nat.
Proof.
  intros H. unfold preferredLane, nextNonColoredLane. rewrite H.
  now destruct (find _ (seq 0 _)).
Qed.

Lemma scanLane_Some fuel : forall placed l dw ln r,
  scanLane fuel placed l dw ln = Some r ->
  (ln <= r)%nat /\ conflicts placed l dw r = false.
Proof.
  induction fuel as [| fuel IH]; intros placed l dw ln r H; cbn in H.
  - discriminate.
  - destruct (conflicts placed l dw ln) eqn:E.
    + apply IH in H. destruct H. split; [lia | assumption].
    + inversion H; subst. split; [lia | assumption].
Qed.

Lemma fromLane_occupied placed ln :
  (exists p, In p placed /\ lane p = ln) ->
  (S (List.length (fromLane (S ln) placed)) <= List.length (fromLane ln placed))%nat.
Proof.
  unfold fromLane. induction placed as [| q placed IH]; intros (p & Hin & Hp).
  - destruct Hin.
  - cbn [filter].
    assert (Mono : (List.length (filter (fun p => Nat.leb (S ln) (lane p)) placed)
                    <= List.length (filter (fun p => Nat.leb ln (lane p)) placed))%nat).
    { clear. induction placed as [| a placed IH]; cbn [filter]; [cbn; lia |].
      destruct (Nat.leb_spec (S ln) (lane a)), (Nat.leb_spec ln (lane a));
        cbn [List.length]; lia. }
    destruct Hin as [-> | Hin].
    + rewrite Hp. rewrite Nat.leb_refl.
      destruct (Nat.leb_spec (S ln) ln); [lia |]. cbn [List.length]. lia.
    + specialize (IH (ex_intro _ p (conj Hin Hp))).
      destruct (Nat.leb_spec (S ln) (lane q)), (Nat.leb_spec ln (lane q));
        cbn [List.length]; lia.
Qed.

(** The loop gives up only after rejecting as many lanes as it had fuel,
    each of them occupied. *)
Lemma scanLane_None fuel : forall placed l dw ln,
  scanLane fuel placed l dw ln = None ->
  (fuel <= List.length (fromLane ln placed))%nat.
Proof.
  induction fuel as [| fuel IH]; intros placed l dw ln H; cbn in H.
  - lia.
  - destruct (conflicts placed l dw ln) eqn:E; [| discriminate].
    apply IH in H. apply conflicts_true in E.
    apply fromLane_occupied in E. lia.
Qed.

(** The loop always ends: one more step than there are placed events is
    enough. *)
Lemma scanLane_terminates placed l dw ln :
  exists r, scanLane (S (List.length placed)) placed l dw ln = Some r.
Proof.
  destruct (scanLane (S (List.length placed)) placed l dw ln) as [r |] eqn:E.
  - now exists r.
  - apply scanLane_None in E.
    pose proof (filter_length_le (fun p => Nat.leb ln (lane p)) placed) as L.
    unfold fromLane in E. lia.
Qed.

End LaneFacts.

Module LayoutFacts.
Import LaneFacts.

Section WithMeasure.

Variable measure : string -> Q.
Variable extent : TimelineExtent.
Variable scale : Q.

(** What one iteration of the event loop does: it appends one positioned
    event, on a lane at or above the preferred one that the loop
    accepted. *)
Lemma placeEvent_spec cache placed ev :
  exists cache' p,
    placeEvent measure extent scale cache placed ev
    = Some (cache', placed ++ [p])
    /\ event p = ev
    /\ (preferredLane placed ev <= lane p)%nat
    /\ conflicts placed (left p) (displayWidth p) (lane p) = false
    /\ (conflicts placed (left p) (displayWidth p) (preferredLane placed ev)
        = false -> lane p = preferredLane placed ev).
Proof.
  unfold placeEvent.
  destruct (measureText measure cache (title ev)) as [textSize cache'].
  match goal with
  | |- context [scanLane ?f placed ?l ?dw ?ln] =>
      destruct (scanLane_terminates placed l dw ln) as [r Hr];
      rewrite Hr; pose proof (scanLane_Some _ _ _ _ _ _ Hr) as [Hle Hfree]
  end.
  eexists; eexists. split; [reflexivity |]. cbn [event lane left displayWidth].
  repeat split; try assumption.
  intros Hpref. cbn [scanLane] in Hr. rewrite Hpref in Hr. now inversion Hr.
Qed.

Lemma NoOverlap_nil : Spec.NoOverlap [].
Proof. intros [| i] j a b _ H; discriminate. Qed.

Lemma nth_error_single (p b : PositionedEvent) k :
  nth_error [p] k = Some b -> k = 0%nat /\ b = p.
Proof.
  destruct k as [| [| k]]; cbn; intros H; inversion H; auto.
Qed.

Lemma NoOverlap_snoc placed p :
  Spec.NoOverlap placed ->
  (forall a, In a placed -> lane a = lane p -> ~ Spec.overlap a p) ->
  Spec.NoOverlap (placed ++ [p]).
Proof.
  intros H Hp i j a b Hij Ha Hb Hl.
  destruct (Nat.lt_ge_cases i (List.length placed)) as [Li | Li];
    destruct (Nat.lt_ge_cases j (List.length placed)) as [Lj | Lj].
  - rewrite nth_error_app1 in Ha, Hb by assumption.
    exact (H i j a b Hij Ha Hb Hl).
  - rewrite nth_error_app1 in Ha by assumption.
    rewrite nth_error_app2 in Hb by assumption.
    apply nth_error_single in Hb. destruct Hb as [_ ->].
    apply nth_error_In in Ha. now apply Hp.
  - rewrite nth_error_app2 in Ha by assumption.
    rewrite nth_error_app1 in Hb by assumption.
    apply nth_error_single in Ha. destruct Ha as [_ ->].
    apply nth_error_In in Hb. intros [O1 O2].
    apply (Hp b Hb (eq_sym Hl)). split; assumption.
  - rewrite nth_error_app2 in Ha, Hb by assumption.
    apply nth_error_single in Ha. apply nth_error_single in Hb. lia.
Qed.

Lemma placeEvent_NoOverlap cache placed ev :
  Spec.NoOverlap placed ->
  exists cache' placed',
    placeEvent measure extent scale cache placed ev = Some (cache', placed')
    /\ Spec.NoOverlap placed'.
Proof.
  intros H.
  destruct (placeEvent_spec cache placed ev)
    as (cache' & p & E & _ & _ & Hfree & _).
  exists cache', (placed ++ [p]). split; [exact E |].
  apply NoOverlap_snoc; [exact H |].
  intros a Hin Hl. exact (conflicts_false _ _ _ _ Hfree a Hin Hl).
Qed.

Lemma placeEvents_NoOverlap evs : forall cache placed,
  Spec.NoOverlap placed ->
  exists cache' placed',
    placeEvents measure extent scale cache placed evs = Some (cache', placed')
    /\ Spec.NoOverlap placed'.
Proof.
  induction evs as [| ev evs IH]; intros cache placed H; cbn [placeEvents].
  - now exists cache, placed.
  - destruct (placeEvent_NoOverlap cache placed ev H) as (c1 & p1 & E & H1).
    rewrite E. now apply IH.
Qed.

Lemma placeCollections_NoOverlap cs : forall cache,
  exists cache' out,
    placeCollections measure extent scale cache cs = Some (cache', out)
    /\ Forall (fun c => Spec.NoOverlap (positionedEvents c)) out.
Proof.
  induction cs as [| c cs IH]; intros cache; cbn [placeCollections].
  - exists cache, []. split; [reflexivity | constructor].
  - destruct (placeEvents_NoOverlap (events c) cache [] NoOverlap_nil)
      as (c1 & placed & E & H).
    rewrite E. destruct (IH c1) as (c2 & out & E2 & H2). rewrite E2.
    eexists; eexists. split; [reflexivity |].
    constructor; [exact H | exact H2].
Qed.

End WithMeasure.

End LayoutFacts.

(** C1.  A layout pass either is skipped, the container having no width or
    no height, or finishes (the lane search never runs out of steps) with
    a result in which, within each collection, no two positioned events on
    the same lane have overlapping spans [left, left + displayWidth). *)
Theorem layout_no_overlap (measure : string -> Q) (cache : TextCache)
    (extent : TimelineExtent) (width height : Z)
    (sorted : list EventCollection) :
  match layout measure cache extent width height sorted with
  | Skipped => width = 0 \/ height = 0
  | Positioned _ eventPositions =>
      Forall (fun c => Spec.NoOverlap (positionedEvents c)) eventPositions
  | OutOfFuel => False
  end.
Proof.
  unfold layout.
  destruct (width =? 0) eqn:Ew; [left; now apply Z.eqb_eq |].
  destruct (height =? 0) eqn:Eh; [right; now apply Z.eqb_eq |].
  cbn [orb].
  match goal with
  | |- context [placeCollections measure extent ?sc cache sorted] =>
      destruct (LayoutFacts.placeCollections_NoOverlap measure extent sc sorted cache)
        as (cache' & out & E & H)
  end.
  rewrite E. exact H.
Qed.

(** ** Colour grouping *)

Module ColorFacts.

Lemma placeEvents_app measure extent scale evs1 : forall evs2 cache placed,
  placeEvents measure extent scale cache placed (evs1 ++ evs2)
  = match placeEvents measure extent scale cache placed evs1 with
    | Some (cache', placed') =>
        placeEvents measure extent scale cache' placed' evs2
    | None => None
    end.
Proof.
  induction evs1 as [| ev evs1 IH]; intros evs2 cache placed; cbn.
  - reflexivity.
  - destruct (placeEvent measure extent scale cache placed ev)
      as [[cache' placed'] |]; [apply IH | reflexivity].
Qed.

(** If no placed event on a lane overlaps the span, the loop accepts
    that lane. *)
Lemma free_lane placed l dw ln :
  (forall q, In q placed -> lane q = ln ->
             ~ ((left q < l + dw)%Q /\ (l < left q + displayWidth q)%Q)) ->
  conflicts placed l dw ln = false.
Proof.
  intros H. destruct (conflicts placed l dw ln) eqn:E; [| reflexivity].
  unfold conflicts in E. apply existsb_exists in E.
  destruct E as (q & Hin & Hq).
  apply andb_prop in Hq. destruct Hq as [Hq H2].
  apply andb_prop in Hq. destruct Hq as [Hl H1].
  apply Nat.eqb_eq in Hl. apply LaneFacts.ltb_lt in H1, H2.
  exfalso. exact (H q Hin Hl (conj H1 H2)).
Qed.

End ColorFacts.

(** C2, as stated, fails.  Three red events: the second overlaps the first
    and goes to lane 1; the third overlaps neither and nothing on lane 1
    overlaps it, yet it is assigned lane 0, the lane of the first red
    event, not the lane of the second. *)
Lemma color_grouping_counterexample :
  let A := {| title := ""; start := 0; end_ := Some 100; color := Some "red"%string |} in
  let B := {| title := ""; start := 50; end_ := Some 150; color := Some "red"%string |} in
  let C := {| title := ""; start := 500; end_ := Some 600; color := Some "red"%string |} in
  exists cache' pa pb pc,
    layout (fun _ => 0%Q) [] {| ext_start := 0; ext_end := 1000 |} 1000 100
      [ {| events := [A; B; C]; ec_title := "row" |} ]
    = Positioned cache' [ {| positionedEvents := [pa; pb; pc]; pec_title := "row" |} ]
    /\ event pb = B /\ event pc = C
    /\ truthy (color B) = true /\ color B = color C
    /\ (forall q, In q [pa; pb] -> lane q = lane pb -> ~ Spec.overlap q pc)
    /\ lane pb = 1%nat /\ lane pc = 0%nat
    /\ lane pc <> lane pb.
Proof.
  cbv zeta. do 4 eexists.
  split; [vm_compute; reflexivity |].
  repeat split; try discriminate.
  intros q [<- | [<- | []]] Hl [O1 O2].
  - vm_compute in Hl. discriminate.
  - vm_compute in O2. discriminate.
Qed.

(** C2, amended.  When an event is placed, its preferred lane is the lane
    of the first already-placed event of the collection whose colour is
    equal to its own; if no event already placed on that lane overlaps the
    new event's span, the new event is assigned that lane. *)
Theorem color_grouping_first_match (measure : string -> Q)
    (extent : TimelineExtent) (scale : Q) (cache cache1 : TextCache)
    (evs : list Event) (placed : list PositionedEvent) (ev : Event)
    (x : PositionedEvent) :
  placeEvents measure extent scale cache [] evs = Some (cache1, placed) ->
  find (fun y => color_eqb (color (event y)) (color ev)) placed = Some x ->
  exists cache' p,
    placeEvents measure extent scale cache [] (evs ++ [ev])
    = Some (cache', placed ++ [p])
    /\ event p = ev
    /\ preferredLane placed ev = lane x
    /\ ((forall q, In q placed -> lane q = lane x -> ~ Spec.overlap q p) ->
        lane p = lane x).
Proof.
  intros Hplaced Hfind.
  destruct (LayoutFacts.placeEvent_spec measure extent scale cache1 placed ev)
    as (cache' & p & E & Hev & _ & _ & Hpref).
  exists cache', p.
  assert (Hlane : preferredLane placed ev = lane x)
    by (unfold preferredLane; now rewrite Hfind).
  split.
  - rewrite ColorFacts.placeEvents_app, Hplaced. cbn [placeEvents]. now rewrite E.
  - split; [exact Hev |]. split; [exact Hlane |].
    intros Hfree. rewrite <- Hlane. apply Hpref. rewrite Hlane.
    apply ColorFacts.free_lane. intros q Hin Hl. exact (Hfree q Hin Hl).
Qed.

Lemma color_grouping_first_match_witness :
  let A := {| title := ""; start := 0; end_ := Some 100; color := Some "red"%string |} in
  let C := {| title := ""; start := 500; end_ := Some 600; color := Some "red"%string |} in
  let extent := {| ext_start := 0; ext_end := 1000 |} in
  exists cache1 placed x,
    placeEvents (fun _ => 0%Q) extent 1 [] [] [A] = Some (cache1, placed)
    /\ find (fun y => color_eqb (color (event y)) (color C)) placed = Some x
    /\ exists cache' p,
         placeEvents (fun _ => 0%Q) extent 1 [] [] ([A] ++ [C])
         = Some (cache', placed ++ [p])
         /\ event p = C
         /\ preferredLane placed C = lane x
         /\ ((forall q, In q placed -> lane q = lane x -> ~ Spec.overlap q p) ->
             lane p = lane x).
Proof.
  cbv zeta. do 3 eexists.
  split; [vm_compute; reflexivity |].
  split; [vm_compute; reflexivity |].
  eapply color_grouping_first_match; vm_compute; reflexivity.
Defined.

(** ** Inertia *)

Module InertiaFacts.
Import Inertia.

Lemma clearInterval_incl id ts t : In t (clearInterval id ts) -> In t ts.
Proof.
  destruct id as [t0 |]; cbn; [| auto].
  intros H. apply filter_In in H. tauto.
Qed.

Lemma clearInterval_not_in t ts : ~ In t (clearInterval (Some t) ts).
Proof.
  cbn. intros H. apply filter_In in H. destruct H as [_ H].
  rewrite Nat.eqb_refl in H. discriminate.
Qed.

Lemma Forall_clearInterval (P : TimerId -> Prop) id ts :
  Forall P ts -> Forall P (clearInterval id ts).
Proof.
  intros H. apply Forall_forall. intros t Ht.
  apply clearInterval_incl in Ht. revert t Ht. now apply Forall_forall.
Qed.

Lemma fire_nextId t s : nextId (fire t s) = nextId s.
Proof. unfold fire. destruct (Num.ltb _ _); reflexivity. Qed.

Lemma fire_calls t s : calls (fire t s) = (t, velocity s) :: calls s.
Proof. unfold fire. destruct (Num.ltb _ _); reflexivity. Qed.

Lemma fire_timers_incl t s t' : In t' (timers (fire t s)) -> In t' (timers s).
Proof.
  unfold fire. destruct (Num.ltb _ _); cbn [timers]; [| auto].
  apply clearInterval_incl.
Qed.

Lemma wf_step s a : wf s -> wf (step s a).
Proof.
  intros [Ht Hc]. destruct a as [v | | t]; cbn [step].
  - split; cbn.
    + constructor; [lia |]. eapply Forall_impl; [| exact Ht]. cbn. lia.
    + eapply Forall_impl; [| exact Hc]. cbn. lia.
  - unfold endInertia. destruct (intervalId s) as [t |]; [| now split].
    split; cbn [timers calls nextId]; [| exact Hc].
    now apply Forall_clearInterval.
  - destruct (existsb (Nat.eqb t) (timers s)) eqn:E; [| now split].
    apply existsb_exists in E. destruct E as (t' & Hin & Et).
    apply Nat.eqb_eq in Et. subst t'.
    split; rewrite fire_nextId.
    + apply Forall_forall. intros t' Ht'. apply fire_timers_incl in Ht'.
      revert t' Ht'. now apply Forall_forall.
    + rewrite fire_calls. constructor; [| exact Hc].
      cbn. revert t Hin. now apply Forall_forall.
Qed.

Lemma wf_run acts : forall s, wf s -> wf (run acts s).
Proof.
  unfold run. induction acts as [| a acts IH]; intros s H; cbn; [exact H |].
  apply IH. now apply wf_step.
Qed.

Lemma wf_init : wf init.
Proof. split; constructor. Qed.

Lemma silent_step t s a : silent t s -> silent t (step s a).
Proof.
  intros (Hdead & Hlt & Hcalls). destruct a as [v | | t']; cbn [step].
  - repeat split; cbn; [| lia | exact Hcalls].
    intros [E | H]; [lia | contradiction].
  - unfold endInertia. destruct (intervalId s) as [t0 |]; [| now repeat split].
    repeat split; cbn [timers nextId]; [| exact Hlt | exact Hcalls].
    intros H. apply clearInterval_incl in H. contradiction.
  - destruct (existsb (Nat.eqb t') (timers s)) eqn:E; [| now repeat split].
    apply existsb_exists in E. destruct E as (t0 & Hin & Et).
    apply Nat.eqb_eq in Et. subst t0.
    repeat split.
    + intros H. apply fire_timers_incl in H. contradiction.
    + now rewrite fire_nextId.
    + unfold callsOf. rewrite fire_calls. cbn [filter fst].
      destruct (Nat.eqb_spec t' t) as [-> | _]; [contradiction | exact Hcalls].
Qed.

Lemma silent_run t acts : forall s, silent t s -> silent t (run acts s).
Proof.
  unfold run. induction acts as [| a acts IH]; intros s H; cbn; [exact H |].
  apply IH. now apply silent_step.
Qed.

(** Right after [beginInertia] and [endInertia] the new interval is dead
    and has made no call. *)
Lemma silent_begin_end v s :
  wf s -> silent (nextId s) (endInertia (beginInertia v s)).
Proof.
  intros [Ht Hc]. unfold endInertia, beginInertia; cbn. repeat split.
  - cbn. rewrite Nat.eqb_refl. cbn. intros H. apply filter_In in H.
    destruct H as [_ H]. rewrite Nat.eqb_refl in H. discriminate.
  - cbn. lia.
  - unfold callsOf; cbn. induction Hc as [| c cs Hlt _ IH]; [reflexivity |].
    cbn. destruct (Nat.eqb_spec (fst c) (nextId s)); [lia | exact IH].
Qed.

(** With no live interval and no [beginInertia], nothing is ever called. *)
Lemma idle_run acts : forall s,
  timers s = [] -> noBegin acts = true ->
  calls (run acts s) = calls s /\ timers (run acts s) = [].
Proof.
  unfold run. induction acts as [| a acts IH]; intros s Hidle Hno; cbn.
  - now split.
  - cbn in Hno. apply andb_prop in Hno. destruct Hno as [Ha Hno].
    destruct a as [v | | t]; [discriminate | |].
    + assert (E : timers (endInertia s) = [] /\ calls (endInertia s) = calls s).
      { unfold endInertia. destruct (intervalId s); cbn; rewrite ?Hidle; auto. }
      destruct E as [E1 E2]. cbn [step].
      destruct (IH _ E1 Hno) as [C T]. rewrite C, E2. now split.
    + cbn [step]. rewrite Hidle. cbn [existsb]. now apply IH.
Qed.

End InertiaFacts.

(** C8.  In any state a controller can reach, if [beginInertia(v)] is
    followed at once by [endInertia()], the interval that this begin set
    never invokes the callback, whatever happens later; and if no earlier
    interval was live and no other begin follows, the callback is not
    invoked at all. *)
Theorem begin_then_end_never_calls (before after : list Inertia.action) (v : Q) :
  let s := Inertia.run before Inertia.init in
  let s' := Inertia.run after (Inertia.endInertia (Inertia.beginInertia v s)) in
  Inertia.callsOf (Inertia.nextId s) s' = []
  /\ (Inertia.timers s = [] -> Inertia.noBegin after = true ->
      Inertia.calls s' = Inertia.calls s).
Proof.
  intros s s'. split.
  - apply (InertiaFacts.silent_run (Inertia.nextId s) after).
    apply InertiaFacts.silent_begin_end.
    apply InertiaFacts.wf_run, InertiaFacts.wf_init.
  - intros Hidle Hno.
    assert (E : Inertia.timers (Inertia.endInertia (Inertia.beginInertia v s)) = []).
    { unfold Inertia.endInertia, Inertia.beginInertia; cbn.
      rewrite Hidle. cbn. now rewrite Nat.eqb_refl. }
    destruct (InertiaFacts.idle_run after _ E Hno) as [C _].
    unfold s'. rewrite C. reflexivity.
Qed.

Lemma begin_then_end_never_calls_witness :
  let before := [Inertia.Begin 3; Inertia.Tick 1%nat; Inertia.End] in
  let after := [Inertia.Tick 2%nat; Inertia.End; Inertia.Tick 2%nat] in
  let s := Inertia.run before Inertia.init in
  let s' := Inertia.run after (Inertia.endInertia (Inertia.beginInertia 10 s)) in
  Inertia.timers s = [] /\ Inertia.noBegin after = true
  /\ Inertia.callsOf (Inertia.nextId s) s' = []
  /\ Inertia.calls s' = Inertia.calls s.
Proof.
  cbv zeta.
  pose proof (begin_then_end_never_calls
                [Inertia.Begin 3; Inertia.Tick 1%nat; Inertia.End]
                [Inertia.Tick 2%nat; Inertia.End; Inertia.Tick 2%nat] 10) as [H1 H2].
  split; [vm_compute; reflexivity |].
  split; [reflexivity |].
  split; [exact H1 | apply H2; vm_compute; reflexivity].
Defined.

(** C9, as stated, fails: [beginInertia] only overwrites the recorded
    interval id.  After two begins two intervals are live, and the
    [endInertia] that follows clears only the recorded one, so the first
    interval still runs and still invokes the callback. *)
Lemma single_run_counterexample :
  let s := Inertia.run [Inertia.Begin 10; Inertia.Begin 10] Inertia.init in
  Inertia.timers s = [2%nat; 1%nat]
  /\ Inertia.timers (Inertia.endInertia s) = [1%nat]
  /\ Inertia.callsOf 1%nat
       (Inertia.run [Inertia.Tick 1%nat] (Inertia.endInertia s)) <> []
  /\ ~ (List.length (Inertia.timers s) <= 1)%nat.
Proof.
  cbv zeta. split; [vm_compute; reflexivity |].
  split; [vm_compute; reflexivity |].
  split; [vm_compute; discriminate | vm_compute; lia].
Qed.

Module SingleFacts.
Import Inertia.

Lemma single_step s a :
  single s ->
  match a, intervalId s with Begin _, Some _ => False | _, _ => True end ->
  single (step s a).
Proof.
  unfold single. intros H G. destruct a as [v | | t]; cbn [step].
  - destruct (intervalId s); [contradiction |]. cbn. now rewrite H.
  - unfold endInertia. destruct (intervalId s) as [t |] eqn:E.
    + cbn. rewrite H. cbn. now rewrite Nat.eqb_refl.
    + now rewrite E.
  - destruct (existsb (Nat.eqb t) (timers s)); [| exact H].
    unfold fire. destruct (Num.ltb _ _); cbn; [| exact H].
    rewrite H. destruct (intervalId s); cbn; [now rewrite Nat.eqb_refl | reflexivity].
Qed.

Lemma single_run acts : forall s,
  single s -> guarded acts s = true -> single (run acts s).
Proof.
  unfold run. induction acts as [| a acts IH]; intros s H G; cbn; [exact H |].
  cbn in G. apply IH.
  - apply single_step; [exact H |].
    destruct a; try exact I. destruct (intervalId s); [discriminate | exact I].
  - destruct a; try exact G. destruct (intervalId s); [discriminate | exact G].
Qed.

End SingleFacts.

(** C9, amended.  [beginInertia] does not stop a run in progress.  In any
    state reached by calls in which [beginInertia] is made only while no
    run is recorded, the only live interval is the recorded one, so at most
    one is live, and after [endInertia] none is. *)
Theorem single_run_when_guarded (acts : list Inertia.action) :
  Inertia.guarded acts Inertia.init = true ->
  let s := Inertia.run acts Inertia.init in
  Inertia.single s
  /\ (List.length (Inertia.timers s) <= 1)%nat
  /\ Inertia.timers (Inertia.endInertia s) = [].
Proof.
  intros G s.
  assert (H : Inertia.single s)
    by (apply SingleFacts.single_run; [reflexivity | exact G]).
  split; [exact H |]. unfold Inertia.single in H. split.
  - rewrite H. destruct (Inertia.intervalId s); cbn; lia.
  - unfold Inertia.endInertia. destruct (Inertia.intervalId s) as [t |] eqn:E.
    + cbn. rewrite H. cbn. now rewrite Nat.eqb_refl.
    + exact H.
Qed.

Lemma single_run_when_guarded_witness :
  let acts := [Inertia.Begin 10; Inertia.Tick 1%nat; Inertia.End;
               Inertia.Begin (1 # 20); Inertia.Tick 2%nat; Inertia.Begin 5] in
  Inertia.guarded acts Inertia.init = true
  /\ (let s := Inertia.run acts Inertia.init in
      Inertia.single s
      /\ (List.length (Inertia.timers s) <= 1)%nat
      /\ Inertia.timers (Inertia.endInertia s) = []).
Proof.
  cbv zeta. split; [vm_compute; reflexivity |].
  apply (single_run_when_guarded
           [Inertia.Begin 10; Inertia.Tick 1%nat; Inertia.End;
            Inertia.Begin (1 # 20); Inertia.Tick 2%nat; Inertia.Begin 5]).
  vm_compute; reflexivity.
Defined.

(** ** The caller's arrays *)

Module SortFacts.

Lemma sortInsert_perm cmp x l : Permutation (x :: l) (sortInsert cmp x l).
Proof.
  induction l as [| y ys IH]; cbn.
  - apply Permutation_refl.
  - destruct (cmp x y <=? 0).
    + apply Permutation_refl.
    + eapply Permutation_trans; [apply perm_swap |].
      now apply perm_skip.
Qed.

Lemma sort_perm cmp l : Permutation l (sort cmp l).
Proof.
  induction l as [| x xs IH]; cbn.
  - apply Permutation_refl.
  - eapply Permutation_trans; [apply perm_skip, IH | apply sortInsert_perm].
Qed.

Lemma sortedCollection_spec collection : forall h,
  let r := sortedCollection h collection in
  (forall a, Permutation (h a) (fst r a))
  /\ (forall a, ~ In a (map obj_events collection) -> fst r a = h a)
  /\ map obj_events (snd r) = map obj_events collection
  /\ map obj_title (snd r) = map obj_title collection.
Proof.
  induction collection as [| c rest IH]; intros h; cbn.
  - repeat split; auto.
  - specialize (IH (heap_set h (obj_events c)
                      (sort compareEvents (h (obj_events c))))).
    destruct (sortedCollection _ rest) as [h2 rest'].
    cbn [fst snd] in *. destruct IH as (P & U & R1 & R2).
    repeat split.
    + intros a. eapply Permutation_trans; [| apply P].
      unfold heap_set. destruct (Nat.eqb_spec a (obj_events c)) as [-> | _].
      * apply sort_perm.
      * apply Permutation_refl.
    + intros a Ha. rewrite U by tauto.
      unfold heap_set. destruct (Nat.eqb_spec a (obj_events c)); [| reflexivity].
      subst a. tauto.
    + cbn. now rewrite R1.
    + cbn. now rewrite R2.
Qed.

End SortFacts.

(** C10.  The code departs from the claim: the memo sorts with
    [events.sort], which works in place on the caller's array.  A
    collection handed over as [later, earlier] is left as [earlier, later]
    after the pass. *)
Lemma layout_mutates_caller_array :
  let later := {| title := "b"; start := 2; end_ := None; color := None |} in
  let earlier := {| title := "a"; start := 1; end_ := None; color := None |} in
  let h : Heap := fun _ => [later; earlier] in
  let collection := [ {| obj_events := 0%nat; obj_title := "row" |} ] in
  let h' := fst (layoutPass (fun _ => 0%Q) []
                   {| ext_start := 0; ext_end := 10 |} 100 100 h collection) in
  h 0%nat = [later; earlier]
  /\ h' 0%nat = [earlier; later]
  /\ h' 0%nat <> h 0%nat.
Proof.
  cbv zeta. split; [reflexivity |]. split; [vm_compute; reflexivity |].
  vm_compute. discriminate.
Qed.

(** * Further properties *)

(** ** The initial extent *)

Module ExtentMore.
Import Calendar CalendarFacts.

Lemma fold_extentStep_end_attained evs : forall acc,
  let r := fold_left extentStep evs acc in
  ext_end r = ext_end acc \/ exists ev, In ev evs /\ endOrStart ev = ext_end r.
Proof.
  induction evs as [| ev evs IH]; intros acc; cbn.
  - now left.
  - destruct (IH (extentStep acc ev)) as [H | (ev' & Hin & E)].
    + cbn in H. destruct (Z.ltb_spec (ext_end acc) (endOrStart ev)).
      * right. exists ev. split; [now left | now rewrite H].
      * now left.
    + right. exists ev'. split; [now right | exact E].
Qed.

(** When every event ends no earlier than it starts, the reduced extent is
    the least start and the greatest end, each attained by an event. *)
Lemma reduceExtent_min_max e0 rest :
  Forall (fun ev => start ev <= endOrStart ev) (e0 :: rest) ->
  let r := reduceExtent e0 (e0 :: rest) in
  (forall ev, In ev (e0 :: rest) -> ext_start r <= start ev)
  /\ (exists ev, In ev (e0 :: rest) /\ start ev = ext_start r)
  /\ (forall ev, In ev (e0 :: rest) -> endOrStart ev <= ext_end r)
  /\ (exists ev, In ev (e0 :: rest) /\ endOrStart ev = ext_end r).
Proof.
  intros Hwf.
  destruct (ExtentFacts.reduceExtent_spec e0 rest) as (Hmin & Hex & Hmax & _).
  cbv zeta. repeat split; try assumption.
  unfold reduceExtent in *.
  destruct (fold_extentStep_end_attained (e0 :: rest)
              {| ext_start := start e0; ext_end := start e0 |}) as [H | H];
    [| exact H].
  exists e0. split; [now left |].
  cbn [ext_end] in H.
  assert (H0 : start e0 <= endOrStart e0) by (inversion Hwf; assumption).
  specialize (Hmax e0 (or_introl eq_refl)). lia.
Qed.

Lemma reduceExtent_permutation e1 rest1 e2 rest2 :
  Permutation (e1 :: rest1) (e2 :: rest2) ->
  Forall (fun ev => start ev <= endOrStart ev) (e1 :: rest1) ->
  reduceExtent e1 (e1 :: rest1) = reduceExtent e2 (e2 :: rest2).
Proof.
  intros P Hwf1.
  assert (Hwf2 : Forall (fun ev => start ev <= endOrStart ev) (e2 :: rest2)).
  { apply Forall_forall. intros ev Hin.
    apply (Permutation_in _ (Permutation_sym P)) in Hin.
    revert ev Hin. now apply Forall_forall. }
  destruct (reduceExtent_min_max e1 rest1 Hwf1) as (L1 & (a1 & Ia1 & Ea1) & U1 & (b1 & Ib1 & Eb1)).
  destruct (reduceExtent_min_max e2 rest2 Hwf2) as (L2 & (a2 & Ia2 & Ea2) & U2 & (b2 & Ib2 & Eb2)).
  pose proof (L1 a2 (Permutation_in _ (Permutation_sym P) Ia2)).
  pose proof (L2 a1 (Permutation_in _ P Ia1)).
  pose proof (U1 b2 (Permutation_in _ (Permutation_sym P) Ib2)).
  pose proof (U2 b1 (Permutation_in _ P Ib1)).
  destruct (reduceExtent e1 (e1 :: rest1)) as [s1 t1].
  destruct (reduceExtent e2 (e2 :: rest2)) as [s2 t2].
  cbn [ext_start ext_end] in *. f_equal; lia.
Qed.

End ExtentMore.

(** X1.  The initial extent does not depend on the order of the events nor
    on how they are split into collections, provided every event ends no
    earlier than it starts: two inputs with the same events yield the same
    result. *)
Theorem calculateExtent_order_independent (c1 c2 : list EventCollection) :
  Permutation (flat_map events c1) (flat_map events c2) ->
  Forall (fun ev => start ev <= endOrStart ev) (flat_map events c1) ->
  calculateExtent c1 = calculateExtent c2.
Proof.
  unfold calculateExtent. intros P Hwf.
  destruct (flat_map events c1) as [| e1 rest1];
    destruct (flat_map events c2) as [| e2 rest2].
  - reflexivity.
  - apply Permutation_nil in P. discriminate.
  - apply Permutation_sym, Permutation_nil in P. discriminate.
  - now rewrite (ExtentMore.reduceExtent_permutation e1 rest1 e2 rest2 P Hwf).
Qed.

Lemma calculateExtent_order_independent_witness :
  let a := {| title := "a"; start := 30; end_ := Some 70; color := None |} in
  let b := {| title := "b"; start := 10; end_ := None; color := None |} in
  let c := {| title := "c"; start := 20; end_ := Some 90; color := None |} in
  calculateExtent [ {| events := [a; b]; ec_title := "r" |};
                    {| events := [c]; ec_title := "s" |} ]
  = calculateExtent [ {| events := [c; b; a]; ec_title := "t" |} ].
Proof.
  cbv zeta. apply calculateExtent_order_independent.
  - cbn. exact (Permutation_rev [_; _; _]).
  - cbn. repeat constructor; cbn; lia.
Defined.

(** X2.  Which events the initial extent shows: every event starts no
    earlier than the extent, and an event whose end (or start, when it has
    no end) falls in a calendar year before [Y + 20], [Y] being the year of
    the extent's start, ends within the extent. *)
Theorem calculateExtent_covers (collection : list EventCollection)
    (ext : TimelineExtent) (ev : Event) :
  calculateExtent collection = Ok ext ->
  In ev (flat_map events collection) ->
  Calendar.plainYear (Calendar.getFullYear (ext_start ext) + 20) ->
  ext_start ext <= start ev
  /\ (Calendar.getFullYear (endOrStart ev)
      < Calendar.getFullYear (ext_start ext) + 20 ->
      endOrStart ev <= ext_end ext).
Proof.
  unfold calculateExtent.
  destruct (flat_map events collection) as [| e0 rest] eqn:E; [discriminate |].
  intros H Hin Hplain.
  destruct (ExtentFacts.reduceExtent_spec e0 rest) as (Hmin & _ & Hmax & _).
  set (raw := reduceExtent e0 (e0 :: rest)) in *.
  destruct (Z.ltb_spec 20 (Calendar.getFullYear (ext_end raw)
                            - Calendar.getFullYear (ext_start raw)));
    inversion H; subst ext; cbn [ext_start ext_end] in *.
  - split; [now apply Hmin |]. intros Hy.
    rewrite (ExtentFacts.newDateYear_plain _ Hplain).
    pose proof (CalendarFacts.getFullYear_spec (endOrStart ev)) as [_ Hhi].
    destruct (Z.eq_dec (Calendar.getFullYear (endOrStart ev) + 1)
                (Calendar.getFullYear (ext_start raw) + 20)) as [Eq | Ne].
    + rewrite Eq in Hhi. lia.
    + assert (L : Calendar.getFullYear (endOrStart ev) + 1
                  < Calendar.getFullYear (ext_start raw) + 20) by lia.
      apply CalendarFacts.TimeFromYear_lt in L. lia.
  - split; [now apply Hmin | intros _; now apply Hmax].
Qed.

Lemma calculateExtent_covers_witness :
  let first := {| title := "first"; start := 962409600000;
                  end_ := Some 1000000000000; color := None |} in
  let last := {| title := "last"; start := 2556144000000;
                 end_ := None; color := None |} in
  let collection := [ {| events := [first; last]; ec_title := "row" |} ] in
  let ext := {| ext_start := 962409600000; ext_end := 1577836800000 |} in
  ext_start ext <= start first
  /\ (Calendar.getFullYear (endOrStart first)
      < Calendar.getFullYear (ext_start ext) + 20 ->
      endOrStart first <= ext_end ext).
Proof.
  cbv zeta.
  apply (calculateExtent_covers
           [ {| events := [ {| title := "first"; start := 962409600000;
                               end_ := Some 1000000000000; color := None |};
                            {| title := "last"; start := 2556144000000;
                               end_ := None; color := None |} ];
                ec_title := "row" |} ]).
  - vm_compute; reflexivity.
  - cbn. now left.
  - right. vm_compute; reflexivity.
Defined.

(** ** Zoom and pan *)

Module TransformMore.
Local Open Scope Q_scope.

(** A weighted mean of two errors is no larger than the larger one. *)
Lemma convex_within (c a b t : Q) :
  0 <= c <= 1 -> Qabs a < t -> Qabs b < t ->
  Qabs ((1 - c) * a + c * b) < t.
Proof.
  intros [C0 C1] A B.
  apply Qabs_Qlt_condition in A, B. apply Qabs_Qlt_condition.
  destruct A as [A0 A1]. destruct B as [B0 B1].
  destruct (Qlt_le_dec c (1 # 2)) as [L | L].
  - assert (P1 : 0 < (1 - c) * (t - a)) by (apply Qmult_lt_0_compat; lra).
    assert (P1' : 0 < (1 - c) * (t + a)) by (apply Qmult_lt_0_compat; lra).
    assert (P2 : 0 <= c * (t - b)) by (apply Qmult_le_0_compat; lra).
    assert (P2' : 0 <= c * (t + b)) by (apply Qmult_le_0_compat; lra).
    split; lra.
  - assert (P1 : 0 <= (1 - c) * (t - a)) by (apply Qmult_le_0_compat; lra).
    assert (P1' : 0 <= (1 - c) * (t + a)) by (apply Qmult_le_0_compat; lra).
    assert (P2 : 0 < c * (t - b)) by (apply Qmult_lt_0_compat; lra).
    assert (P2' : 0 < c * (t + b)) by (apply Qmult_lt_0_compat; lra).
    split; lra.
Qed.

Lemma inject_Z_minus (a b : Z) : inject_Z (a - b) == inject_Z a - inject_Z b.
Proof. unfold Z.sub. rewrite inject_Z_plus, inject_Z_opp. ring. Qed.

End TransformMore.

(** X3.  A zoom keeps the instant under the pointer in place: for a centre
    fraction between 0 and 1, whenever the zoom of an extent of valid dates
    returns valid dates, the instant at that fraction of the new extent is
    less than one millisecond and the rounding allowance [zoomTolerance]
    away from the instant at that fraction of the old extent. *)
Theorem zoom_keeps_anchor (delta center : Double.double) (s e s' e' : Z) :
  Double.validTime s -> Double.validTime e ->
  (0 <= Double.val center <= 1)%Q ->
  Double.calculateNewZoom delta center (Some s) (Some e)
  = {| Double.ext_start := Some s'; Double.ext_end := Some e' |} ->
  let c := Double.val center in
  (Qabs ((inject_Z s' + c * inject_Z (e' - s'))
         - (inject_Z s + c * inject_Z (e - s)))
   < 1 + Double.zoomTolerance s e (Double.val delta / 1000))%Q.
Proof.
  intros Vs Ve Hc H c.
  destruct (ZoomDouble.zoom_within delta center s e s' e' Vs Ve Hc H) as [A B].
  fold c in A, B.
  set (D := (Double.val delta / 1000)%Q) in *.
  pose proof (TransformMore.convex_within c _ _ _ Hc A B) as W.
  rewrite (TransformMore.inject_Z_minus e' s').
  rewrite (TransformMore.inject_Z_minus e s) in *.
  setoid_replace (inject_Z s' + c * (inject_Z e' - inject_Z s')
                  - (inject_Z s + c * (inject_Z e - inject_Z s)))%Q
    with ((1 - c) * (inject_Z s' - (inject_Z s - (inject_Z e - inject_Z s) * c * D))
          + c * (inject_Z e'
                 - (inject_Z e + (inject_Z e - inject_Z s) * (1 - c) * D)))%Q
    by ring.
  exact W.
Qed.

Lemma zoom_keeps_anchor_witness :
  let delta := Double.ofQ (-9999998037543719 # 10000000000000) in
  let center := Double.div (Double.ofZ 267) (Double.ofZ 1377) in
  let s := -4263904780331 in
  let e := 17726327775189 in
  Double.validTime s /\ Double.validTime e
  /\ (0 <= Double.val center <= 1)%Q
  /\ Double.calculateNewZoom delta center (Some s) (Some e)
     = {| Double.ext_start := Some (-4315487); Double.ext_end := Some 0 |}
  /\ (Qabs ((inject_Z (-4315487) + Double.val center * inject_Z (0 - -4315487))
            - (inject_Z s + Double.val center * inject_Z (e - s)))
      < 1 + Double.zoomTolerance s e (Double.val delta / 1000))%Q.
Proof.
  cbv zeta.
  assert (Vs : Double.validTime (-4263904780331))
    by (unfold Double.validTime, Double.maxTime; simpl; lia).
  assert (Ve : Double.validTime 17726327775189)
    by (unfold Double.validTime, Double.maxTime; simpl; lia).
  assert (C : (0 <= Double.val (Double.div (Double.ofZ 267) (Double.ofZ 1377)) <= 1)%Q)
    by (vm_compute; split; discriminate).
  assert (R : Double.calculateNewZoom
                (Double.ofQ (-9999998037543719 # 10000000000000))
                (Double.div (Double.ofZ 267) (Double.ofZ 1377))
                (Some (-4263904780331)) (Some 17726327775189)
              = {| Double.ext_start := Some (-4315487); Double.ext_end := Some 0 |})
    by (vm_compute; reflexivity).
  split; [exact Vs |]. split; [exact Ve |]. split; [exact C |]. split; [exact R |].
  exact (zoom_keeps_anchor _ _ _ _ _ _ Vs Ve C R).
Defined.

(** X4.  A zoom scales the span by [1 + delta / 1000]: whenever the zoom
    of an extent of valid dates returns valid dates, the new span is less
    than two milliseconds and twice the rounding allowance [zoomTolerance]
    away from the old span times that factor. *)
Theorem zoom_scales_span (delta center : Double.double) (s e s' e' : Z) :
  Double.validTime s -> Double.validTime e ->
  (0 <= Double.val center <= 1)%Q ->
  Double.calculateNewZoom delta center (Some s) (Some e)
  = {| Double.ext_start := Some s'; Double.ext_end := Some e' |} ->
  (Qabs (inject_Z (e' - s') - inject_Z (e - s) * (1 + Double.val delta / 1000))
   < 2 + 2 * Double.zoomTolerance s e (Double.val delta / 1000))%Q.
Proof.
  intros Vs Ve Hc H.
  destruct (ZoomDouble.zoom_within delta center s e s' e' Vs Ve Hc H) as [A B].
  set (D := (Double.val delta / 1000)%Q) in *.
  set (c := Double.val center) in *.
  rewrite (TransformMore.inject_Z_minus e' s').
  rewrite (TransformMore.inject_Z_minus e s) in *.
  apply Qabs_Qlt_condition in A, B. apply Qabs_Qlt_condition.
  set (X := (inject_Z e - inject_Z s)%Q) in *.
  assert (E1 : (X * c * D + X * (1 - c) * D == X * D)%Q) by ring.
  set (p := (X * c * D)%Q) in *. set (q := (X * (1 - c) * D)%Q) in *.
  assert (E2 : (X * (1 + D) == X + (p + q))%Q) by (rewrite E1; ring).
  rewrite E2. unfold X. split; lra.
Qed.

Lemma zoom_scales_span_witness :
  let center := Double.div (Double.ofZ 60) (Double.ofZ 800) in
  Double.validTime (-5000) /\ Double.validTime 86395000
  /\ (0 <= Double.val center <= 1)%Q
  /\ Double.calculateNewZoom (Double.ofZ 1) center (Some (-5000)) (Some 86395000)
     = {| Double.ext_start := Some (-11479); Double.ext_end := Some 86474919 |}
  /\ (Qabs (inject_Z (86474919 - -11479)
            - inject_Z (86395000 - -5000) * (1 + Double.val (Double.ofZ 1) / 1000))
      < 2 + 2 * Double.zoomTolerance (-5000) 86395000
                  (Double.val (Double.ofZ 1) / 1000))%Q.
Proof.
  cbv zeta.
  assert (Vs : Double.validTime (-5000))
    by (unfold Double.validTime, Double.maxTime; simpl; lia).
  assert (Ve : Double.validTime 86395000)
    by (unfold Double.validTime, Double.maxTime; simpl; lia).
  assert (C : (0 <= Double.val (Double.div (Double.ofZ 60) (Double.ofZ 800)) <= 1)%Q)
    by (vm_compute; split; discriminate).
  assert (R : Double.calculateNewZoom (Double.ofZ 1)
                (Double.div (Double.ofZ 60) (Double.ofZ 800))
                (Some (-5000)) (Some 86395000)
              = {| Double.ext_start := Some (-11479); Double.ext_end := Some 86474919 |})
    by (vm_compute; reflexivity).
  split; [exact Vs |]. split; [exact Ve |]. split; [exact C |]. split; [exact R |].
  exact (zoom_scales_span _ _ _ _ _ _ Vs Ve C R).
Defined.



(** X6.  A pan keeps the span up to the truncation of the two bounds:
    whenever the pan of an extent of valid dates returns valid dates, the
    new span differs from the old one by at most one millisecond. *)
Theorem pan_keeps_span (w : Z) (delta : Double.double) (s e s' e' : Z) :
  Double.validTime s -> Double.validTime e ->
  Double.calculateNewPan w delta (Some s) (Some e)
  = {| Double.ext_start := Some s'; Double.ext_end := Some e' |} ->
  Z.abs ((e' - s') - (e - s)) <= 1.
Proof.
  intros Vs Ve H. exact (PanDouble.pan_span w delta s e s' e' H Vs Ve).
Qed.

Lemma pan_keeps_span_witness :
  Double.validTime 0 /\ Double.validTime 100
  /\ Double.calculateNewPan 7 (Double.ofZ (-7)) (Some 0) (Some 100)
     = {| Double.ext_start := Some 99; Double.ext_end := Some 200 |}
  /\ Z.abs ((200 - 99) - (100 - 0)) <= 1.
Proof.
  assert (Vs : Double.validTime 0)
    by (unfold Double.validTime, Double.maxTime; simpl; lia).
  assert (Ve : Double.validTime 100)
    by (unfold Double.validTime, Double.maxTime; simpl; lia).
  assert (R : Double.calculateNewPan 7 (Double.ofZ (-7)) (Some 0) (Some 100)
              = {| Double.ext_start := Some 99; Double.ext_end := Some 200 |})
    by (vm_compute; reflexivity).
  split; [exact Vs |]. split; [exact Ve |]. split; [exact R |].
  exact (pan_keeps_span 7 (Double.ofZ (-7)) 0 100 99 200 Vs Ve R).
Defined.


(** X27.  A zoom returns valid dates.  For an extent of valid dates, a
    finite delta of magnitude at most [2^53] and a centre fraction between
    0 and 1, [calculateNewZoom] returns two valid dates whenever the bounds
    [start - span * center * delta / 1000] and
    [end + span * (1 - center) * delta / 1000] are within the range of Date
    (8.64e15 ms either side of the epoch) by the rounding allowance
    [zoomTolerance]. *)
Theorem zoom_returns_dates (delta center : Double.double) (s e : Z) :
  Double.validTime s -> Double.validTime e ->
  Double.finite delta = true -> (Qabs (Double.val delta) <= 2 ^ 53)%Q ->
  Double.finite center = true -> (0 <= Double.val center <= 1)%Q ->
  let D := (Double.val delta / 1000)%Q in
  let c := Double.val center in
  (Qabs (inject_Z s - inject_Z (e - s) * c * D) + Double.zoomTolerance s e D
   <= inject_Z Double.maxTime)%Q ->
  (Qabs (inject_Z e + inject_Z (e - s) * (1 - c) * D) + Double.zoomTolerance s e D
   <= inject_Z Double.maxTime)%Q ->
  exists s' e',
    Double.calculateNewZoom delta center (Some s) (Some e)
    = {| Double.ext_start := Some s'; Double.ext_end := Some e' |}.
Proof.
  intros Vs Ve Fd Bd Fc Hc D c Rs Re.
  destruct (DoubleFacts.getTime_val s Vs) as [Fgs Gs].
  destruct (DoubleFacts.getTime_val e Ve) as [Fge Ge].
  destruct ZoomDouble.one_val as [F1 V1].
  destruct (ReturnFacts.span_below s e Vs Ve) as [Fsp Bsp].
  destruct (ReturnFacts.factor_below delta Fd Bd) as [Fm1 Bm1].
  assert (Bc : (Qabs (Double.val center) <= 2 ^ 0)%Q)
    by (apply Qabs_Qle_condition; change (2 ^ 0)%Q with 1%Q; lra).
  assert (B1 : (Qabs (Double.val (Double.ofZ 1)) <= 2 ^ 0)%Q)
    by (rewrite V1; apply Qle_refl).
  destruct (ReturnFacts.sub_below (Double.ofZ 1) center 0 ltac:(lia) F1 Fc B1 Bc)
    as [Foc Boc].
  destruct (ReturnFacts.mul_below _ center 54 0 ltac:(lia) Fsp Fc Bsp Bc)
    as [Fa1 Ba1].
  destruct (ReturnFacts.mul_below _ _ 54 1 ltac:(lia) Fsp Foc Bsp Boc)
    as [Fb1 Bb1].
  destruct (ReturnFacts.mul_below _ _ (54 + 0) 55 ltac:(lia) Fa1 Fm1 Ba1 Bm1)
    as [Fa2 Ba2].
  destruct (ReturnFacts.mul_below _ _ (54 + 1) 55 ltac:(lia) Fb1 Fm1 Bb1 Bm1)
    as [Fb2 Bb2].
  assert (Bgs : (Qabs (Double.val (Double.getTime (Some s))) <= 2 ^ 110)%Q)
    by (rewrite Gs; apply (ReturnFacts.pow2_weaken _ 53);
        [lia | now apply ReturnFacts.time_below]).
  assert (Bge : (Qabs (Double.val (Double.getTime (Some e))) <= 2 ^ 110)%Q)
    by (rewrite Ge; apply (ReturnFacts.pow2_weaken _ 53);
        [lia | now apply ReturnFacts.time_below]).
  apply (ReturnFacts.pow2_weaken _ _ 110) in Ba2; [| lia].
  apply (ReturnFacts.pow2_weaken _ _ 110) in Bb2; [| lia].
  destruct (ReturnFacts.sub_below _ _ 110 ltac:(lia) Fgs Fa2 Bgs Ba2) as [Fns _].
  destruct (ReturnFacts.add_below _ _ 110 ltac:(lia) Fge Fb2 Bge Bb2) as [Fne _].
  pose proof (ReturnFacts.zoom_start_value delta center s e Vs Ve Hc Fns) as Es.
  pose proof (ReturnFacts.zoom_end_value delta center s e Vs Ve Hc Fne) as Ee.
  cbv zeta in Es, Ee. fold D in Es, Ee. fold c in Es, Ee.
  destruct (ReturnFacts.newDate_fwd _ Fns (ReturnFacts.within_range _ _ _ _ Es Rs))
    as (s' & Hs).
  destruct (ReturnFacts.newDate_fwd _ Fne (ReturnFacts.within_range _ _ _ _ Ee Re))
    as (e' & He).
  exists s', e'. unfold Double.calculateNewZoom. rewrite Hs, He. reflexivity.
Qed.

Lemma zoom_returns_dates_witness :
  let delta := Double.ofZ 100 in
  let center := Double.div (Double.ofZ 500) (Double.ofZ 1000) in
  let D := (Double.val delta / 1000)%Q in
  let c := Double.val center in
  Double.validTime 0 /\ Double.validTime 1000
  /\ Double.finite delta = true /\ (Qabs (Double.val delta) <= 2 ^ 53)%Q
  /\ Double.finite center = true /\ (0 <= c <= 1)%Q
  /\ (Qabs (inject_Z 0 - inject_Z (1000 - 0) * c * D) + Double.zoomTolerance 0 1000 D
      <= inject_Z Double.maxTime)%Q
  /\ (Qabs (inject_Z 1000 + inject_Z (1000 - 0) * (1 - c) * D)
      + Double.zoomTolerance 0 1000 D
      <= inject_Z Double.maxTime)%Q
  /\ exists s' e',
       Double.calculateNewZoom delta center (Some 0) (Some 1000)
       = {| Double.ext_start := Some s'; Double.ext_end := Some e' |}.
Proof.
  cbv zeta.
  assert (V0 : Double.validTime 0)
    by (unfold Double.validTime, Double.maxTime; simpl; lia).
  assert (V1 : Double.validTime 1000)
    by (unfold Double.validTime, Double.maxTime; simpl; lia).
  assert (Fd : Double.finite (Double.ofZ 100) = true) by reflexivity.
  assert (Bd : (Qabs (Double.val (Double.ofZ 100)) <= 2 ^ 53)%Q)
    by (vm_compute; discriminate).
  assert (Fc : Double.finite (Double.div (Double.ofZ 500) (Double.ofZ 1000)) = true)
    by reflexivity.
  assert (C : (0 <= Double.val (Double.div (Double.ofZ 500) (Double.ofZ 1000)) <= 1)%Q)
    by (vm_compute; split; discriminate).
  assert (Rs : (Qabs (inject_Z 0
                      - inject_Z (1000 - 0)
                        * Double.val (Double.div (Double.ofZ 500) (Double.ofZ 1000))
                        * (Double.val (Double.ofZ 100) / 1000))
                + Double.zoomTolerance 0 1000 (Double.val (Double.ofZ 100) / 1000)
                <= inject_Z Double.maxTime)%Q)
    by (vm_compute; discriminate).
  assert (Re : (Qabs (inject_Z 1000
                      + inject_Z (1000 - 0)
                        * (1 - Double.val (Double.div (Double.ofZ 500) (Double.ofZ 1000)))
                        * (Double.val (Double.ofZ 100) / 1000))
                + Double.zoomTolerance 0 1000 (Double.val (Double.ofZ 100) / 1000)
                <= inject_Z Double.maxTime)%Q)
    by (vm_compute; discriminate).
  repeat (split; [assumption |]).
  exact (zoom_returns_dates (Double.ofZ 100)
           (Double.div (Double.ofZ 500) (Double.ofZ 1000)) 0 1000
           V0 V1 Fd Bd Fc C Rs Re).
Defined.

(** X28.  A pan returns valid dates.  In a container of positive width (at
    most [2^53] px), for an extent of valid dates and a finite pixel delta
    of magnitude at most [2^53], [calculateNewPan] returns two valid dates
    whenever the bounds shifted by [-delta * (end - start) / width] are
    within the range of Date by the rounding allowance [panTolerance]. *)
Theorem pan_returns_dates (w : Z) (delta : Double.double) (s e : Z) :
  0 < w <= 2 ^ 53 -> Double.validTime s -> Double.validTime e ->
  Double.finite delta = true -> (Qabs (Double.val delta) <= 2 ^ 53)%Q ->
  let shift := (Double.val delta * inject_Z (e - s) / inject_Z w)%Q in
  (Qabs (inject_Z s - shift) + Double.panTolerance s e shift
   <= inject_Z Double.maxTime)%Q ->
  (Qabs (inject_Z e - shift) + Double.panTolerance s e shift
   <= inject_Z Double.maxTime)%Q ->
  exists s' e',
    Double.calculateNewPan w delta (Some s) (Some e)
    = {| Double.ext_start := Some s'; Double.ext_end := Some e' |}.
Proof.
  intros Hw Vs Ve Fd Bd shift Rs Re.
  pose proof (ReturnFacts.shift_finite w delta s e Hw Vs Ve Fd Bd) as Fsh.
  pose proof (PanWithin.shift_val w delta s e Hw Vs Ve Fsh) as Err.
  cbv zeta in Err. fold shift in Err.
  unfold Double.calculateNewPan.
  set (sh := Double.div delta
               (Double.div (Double.ofZ w)
                  (Double.sub (Double.getTime (Some e)) (Double.getTime (Some s)))))
    in *.
  assert (M : (inject_Z Double.maxTime < 2 ^ 1024)%Q).
  { apply Qle_lt_trans with (2 ^ 53)%Q; [| apply PowFacts.pow2_lt; lia].
    rewrite (PowFacts.pow2_Z 53) by lia. rewrite <- Zle_Qle. unfold Double.maxTime.
    apply Z.lt_le_incl. reflexivity. }
  assert (G : forall t : Z,
             Double.validTime t ->
             (Qabs (inject_Z t) <= Qabs (inject_Z s) + Qabs (inject_Z e))%Q ->
             (Qabs (inject_Z t - shift) + Double.panTolerance s e shift
              <= inject_Z Double.maxTime)%Q ->
             exists t',
               Double.newDate (Double.sub (Double.getTime (Some t)) sh) = Some t').
  { intros t Vt Ht Rt.
    destruct (DoubleFacts.getTime_val t Vt) as [Fgt Gt].
    pose proof (ReturnFacts.pan_value sh shift s e t Err Ht) as Ev.
    pose proof (ReturnFacts.within_range _ _ _ _ Ev Rt) as Bv.
    assert (Ex : (Double.val (Double.getTime (Some t)) - Double.val sh
                  == inject_Z t - Double.val sh)%Q)
      by (now rewrite Gt).
    assert (Fx : Double.finite (Double.sub (Double.getTime (Some t)) sh) = true).
    { apply (PanWithin.sub_finite_fwd _ _ Fgt Fsh).
      rewrite (RndFacts.rnd_comp _ _ Ex). lra. }
    apply (ReturnFacts.newDate_fwd _ Fx).
    destruct (DoubleFacts.sub_spec _ _ Fx) as (_ & _ & V).
    rewrite V, (RndFacts.rnd_comp _ _ Ex). exact Bv. }
  pose proof (Qabs_nonneg (inject_Z s)). pose proof (Qabs_nonneg (inject_Z e)).
  destruct (G s Vs ltac:(lra) Rs) as (s' & Hs).
  destruct (G e Ve ltac:(lra) Re) as (e' & He).
  exists s', e'. rewrite Hs, He. reflexivity.
Qed.

Lemma pan_returns_dates_witness :
  let delta := Double.ofZ 1 in
  let shift := (Double.val delta * inject_Z (1000 - 0) / inject_Z 3)%Q in
  0 < 3 <= 2 ^ 53 /\ Double.validTime 0 /\ Double.validTime 1000
  /\ Double.finite delta = true /\ (Qabs (Double.val delta) <= 2 ^ 53)%Q
  /\ (Qabs (inject_Z 0 - shift) + Double.panTolerance 0 1000 shift
      <= inject_Z Double.maxTime)%Q
  /\ (Qabs (inject_Z 1000 - shift) + Double.panTolerance 0 1000 shift
      <= inject_Z Double.maxTime)%Q
  /\ exists s' e',
       Double.calculateNewPan 3 delta (Some 0) (Some 1000)
       = {| Double.ext_start := Some s'; Double.ext_end := Some e' |}.
Proof.
  cbv zeta.
  assert (Hw : 0 < 3 <= 2 ^ 53) by (split; [lia | vm_compute; discriminate]).
  assert (V0 : Double.validTime 0)
    by (unfold Double.validTime, Double.maxTime; simpl; lia).
  assert (V1 : Double.validTime 1000)
    by (unfold Double.validTime, Double.maxTime; simpl; lia).
  assert (Fd : Double.finite (Double.ofZ 1) = true) by reflexivity.
  assert (Bd : (Qabs (Double.val (Double.ofZ 1)) <= 2 ^ 53)%Q)
    by (vm_compute; discriminate).
  assert (Rs : (Qabs (inject_Z 0
                      - Double.val (Double.ofZ 1) * inject_Z (1000 - 0) / inject_Z 3)
                + Double.panTolerance 0 1000
                    (Double.val (Double.ofZ 1) * inject_Z (1000 - 0) / inject_Z 3)
                <= inject_Z Double.maxTime)%Q)
    by (vm_compute; discriminate).
  assert (Re : (Qabs (inject_Z 1000
                      - Double.val (Double.ofZ 1) * inject_Z (1000 - 0) / inject_Z 3)
                + Double.panTolerance 0 1000
                    (Double.val (Double.ofZ 1) * inject_Z (1000 - 0) / inject_Z 3)
                <= inject_Z Double.maxTime)%Q)
    by (vm_compute; discriminate).
  repeat (split; [assumption |]).
  exact (pan_returns_dates 3 (Double.ofZ 1) 0 1000 Hw V0 V1 Fd Bd Rs Re).
Defined.

(** ** The shape of a layout *)

Module LayoutMore.
Import LaneFacts.

Lemma max_l a b : (a <= Num.max a b)%Q.
Proof.
  unfold Num.max. destruct (Qle_bool a b) eqn:E.
  - now apply Qle_bool_iff.
  - apply Qle_refl.
Qed.

Lemma max_r a b : (b <= Num.max a b)%Q.
Proof.
  unfold Num.max. destruct (Qle_bool a b) eqn:E.
  - apply Qle_refl.
  - destruct (Qlt_le_dec b a) as [L | L]; [now apply Qlt_le_weak |].
    apply Qle_bool_iff in L. congruence.
Qed.

Section WithMeasure.

Variable measure : string -> Q.
Variable extent : TimelineExtent.
Variable scale : Q.

(** The fields of the positioned event that one iteration appends. *)
Lemma placeEvent_fields cache placed ev cache' placed' :
  placeEvent measure extent scale cache placed ev = Some (cache', placed') ->
  exists p,
    placed' = placed ++ [p]
    /\ event p = ev
    /\ measureText measure cache (title ev) = (textWidth p, cache')
    /\ height p = dotSize
    /\ top p = (inject_Z (Z.of_nat (lane p)) * (dotSize + textPadding * 2))%Q
    /\ left p = (inject_Z (start ev - ext_start extent) * scale - halfDotSize + 1)%Q
    /\ (dotSize <= eventWidth p)%Q
    /\ (eventWidth p <= displayWidth p)%Q
    /\ (dotSize + textWidth p + 2 * textPadding <= displayWidth p)%Q.
Proof.
  unfold placeEvent.
  destruct (measureText measure cache (title ev)) as [textSize c1].
  destruct (scanLane _ _ _ _ _) as [ln |]; [| discriminate].
  intros H. inversion H; subst. eexists. split; [reflexivity |].
  cbn. repeat split; try reflexivity.
  - apply max_l.
  - apply max_l.
  - apply max_r.
Qed.

Lemma placeEvents_events evs : forall cache placed cache' placed',
  placeEvents measure extent scale cache placed evs = Some (cache', placed') ->
  map event placed' = map event placed ++ evs.
Proof.
  induction evs as [| ev evs IH]; intros cache placed cache' placed' H;
    cbn [placeEvents] in H.
  - inversion H; subst. now rewrite app_nil_r.
  - destruct (placeEvent measure extent scale cache placed ev)
      as [[c1 p1] |] eqn:E; [| discriminate].
    apply placeEvent_fields in E. destruct E as (p & -> & Hev & _).
    rewrite (IH _ _ _ _ H), map_app. cbn. rewrite Hev, <- app_assoc. reflexivity.
Qed.

Lemma placeCollections_shape cs : forall cache cache' out,
  placeCollections measure extent scale cache cs = Some (cache', out) ->
  map pec_title out = map ec_title cs
  /\ map (fun c => map event (positionedEvents c)) out = map events cs.
Proof.
  induction cs as [| c cs IH]; intros cache cache' out H;
    cbn [placeCollections] in H.
  - inversion H; subst. now split.
  - destruct (placeEvents measure extent scale cache [] (events c))
      as [[c1 placed] |] eqn:E; [| discriminate].
    destruct (placeCollections measure extent scale c1 cs)
      as [[c2 out'] |] eqn:E2; [| discriminate].
    inversion H; subst. destruct (IH _ _ _ E2) as [T Ev].
    apply placeEvents_events in E. cbn in E.
    split; cbn; [now rewrite T | now rewrite Ev, E].
Qed.


End WithMeasure.

Lemma layout_total measure cache extent width height sorted :
  width <> 0 -> height <> 0 ->
  exists cache' out,
    layout measure cache extent width height sorted = Positioned cache' out
    /\ placeCollections measure extent
         (inject_Z width / inject_Z (ext_end extent - ext_start extent))%Q
         cache sorted = Some (cache', out).
Proof.
  intros Hw Hh. unfold layout.
  destruct (Z.eqb_spec width 0); [contradiction |].
  destruct (Z.eqb_spec height 0); [contradiction |]. cbn [orb].
  destruct (LayoutFacts.placeCollections_NoOverlap measure extent
              (inject_Z width / inject_Z (ext_end extent - ext_start extent))%Q
              sorted cache) as (c' & out & E & _).
  rewrite E. now exists c', out.
Qed.

End LayoutMore.

Module LayoutShape.


End LayoutShape.

(** X8.  In a container with a width and a height, layout returns one
    positioned collection per input collection, in the same order and with
    the same title, and in each of them one positioned event per input
    event, in the same order. *)
Theorem layout_keeps_events (measure : string -> Q) (cache : TextCache)
    (extent : TimelineExtent) (width height : Z)
    (sorted : list EventCollection) :
  width <> 0 -> height <> 0 ->
  exists cache' out,
    layout measure cache extent width height sorted = Positioned cache' out
    /\ map pec_title out = map ec_title sorted
    /\ map (fun c => map event (positionedEvents c)) out = map events sorted.
Proof.
  intros Hw Hh.
  destruct (LayoutMore.layout_total measure cache extent width height sorted Hw Hh)
    as (c' & out & E & Hpc).
  exists c', out. split; [exact E |].
  exact (LayoutMore.placeCollections_shape _ _ _ _ _ _ _ Hpc).
Qed.

Lemma layout_keeps_events_witness :
  let a := {| title := "a"; start := 0; end_ := Some 100; color := None |} in
  let b := {| title := "b"; start := 50; end_ := None; color := Some "x"%string |} in
  let sorted := [ {| events := [a; b]; ec_title := "r" |};
                  {| events := []; ec_title := "s" |} ] in
  1000 <> 0 /\ 100 <> 0
  /\ exists cache' out,
       layout (fun text => inject_Z (7 * Z.of_nat (String.length text))) [] {| ext_start := 0; ext_end := 1000 |} 1000 100 sorted
       = Positioned cache' out
       /\ map pec_title out = map ec_title sorted
       /\ map (fun c => map event (positionedEvents c)) out = map events sorted.
Proof.
  cbv zeta. split; [lia |]. split; [lia |].
  apply layout_keeps_events; lia.
Defined.



(** ** Lanes in use *)

Module LaneMore.
Import LaneFacts.

(** An invariant of the list of placed events that every iteration keeps
    holds of every collection of the result. *)
Lemma placeEvents_inv measure extent scale (I : list PositionedEvent -> Prop) :
  (forall cache placed ev cache' placed',
      I placed ->
      placeEvent measure extent scale cache placed ev = Some (cache', placed') ->
      I placed') ->
  forall evs cache placed cache' placed',
    I placed ->
    placeEvents measure extent scale cache placed evs = Some (cache', placed') ->
    I placed'.
Proof.
  intros Hstep. induction evs as [| ev evs IH];
    intros cache placed cache' placed' HI H; cbn [placeEvents] in H.
  - now inversion H; subst.
  - destruct (placeEvent measure extent scale cache placed ev)
      as [[c1 p1] |] eqn:E; [| discriminate].
    exact (IH _ _ _ _ (Hstep _ _ _ _ _ HI E) H).
Qed.

Lemma placeCollections_inv measure extent scale (I : list PositionedEvent -> Prop) :
  I [] ->
  (forall cache placed ev cache' placed',
      I placed ->
      placeEvent measure extent scale cache placed ev = Some (cache', placed') ->
      I placed') ->
  forall cs cache cache' out,
    placeCollections measure extent scale cache cs = Some (cache', out) ->
    Forall (fun c => I (positionedEvents c)) out.
Proof.
  intros Hnil Hstep. induction cs as [| c cs IH]; intros cache cache' out H;
    cbn [placeCollections] in H.
  - inversion H; subst. constructor.
  - destruct (placeEvents measure extent scale cache [] (events c))
      as [[c1 placed] |] eqn:E; [| discriminate].
    destruct (placeCollections measure extent scale c1 cs)
      as [[c2 out'] |] eqn:E2; [| discriminate].
    inversion H; subst. constructor; [| exact (IH _ _ _ E2)].
    cbn. exact (placeEvents_inv _ _ _ I Hstep _ _ _ _ _ Hnil E).
Qed.

(** Every lane the loop passes over is rejected. *)
Lemma scanLane_between fuel : forall placed l dw ln r,
  scanLane fuel placed l dw ln = Some r ->
  forall k, (ln <= k < r)%nat -> conflicts placed l dw k = true.
Proof.
  induction fuel as [| fuel IH]; intros placed l dw ln r H k Hk; cbn in H.
  - discriminate.
  - destruct (conflicts placed l dw ln) eqn:E.
    + destruct (Nat.eq_dec k ln) as [-> | Hne]; [exact E |].
      apply (IH _ _ _ _ _ H). lia.
    + inversion H; subst. lia.
Qed.

Lemma preferredLane_occupied placed ev :
  preferredLane placed ev = 0%nat \/ occupied placed (preferredLane placed ev).
Proof.
  unfold preferredLane.
  destruct (find _ placed) as [x |] eqn:E.
  - right. apply find_some in E. exists x. now split.
  - left. unfold nextNonColoredLane. now destruct (find _ (seq 0 _)).
Qed.

(** What the loop leaves below and on the lane it returns. *)
Lemma placeEvent_lane measure extent scale cache placed ev cache' placed' :
  placeEvent measure extent scale cache placed ev = Some (cache', placed') ->
  exists p,
    placed' = placed ++ [p]
    /\ (preferredLane placed ev <= lane p)%nat
    /\ conflicts placed (left p) (displayWidth p) (lane p) = false
    /\ (forall k, (preferredLane placed ev <= k < lane p)%nat ->
                  conflicts placed (left p) (displayWidth p) k = true).
Proof.
  unfold placeEvent.
  destruct (measureText measure cache (title ev)) as [textSize c1].
  destruct (scanLane _ _ _ _ _) as [ln |] eqn:E; [| discriminate].
  intros H. inversion H; subst. eexists. split; [reflexivity |].
  cbn [lane left displayWidth].
  destruct (scanLane_Some _ _ _ _ _ _ E) as [Hle Hfree].
  repeat split; try assumption.
  intros k Hk. exact (scanLane_between _ _ _ _ _ _ E k Hk).
Qed.

Lemma occupied_app placed extra ln :
  occupied placed ln -> occupied (placed ++ extra) ln.
Proof.
  intros (q & Hin & Hl). exists q. split; [| exact Hl].
  apply in_or_app. now left.
Qed.

(** Lanes 0 to [r - 1] all in use need at least [r] events. *)
Lemma occupied_below_length placed r :
  (forall ln, (ln < r)%nat -> occupied placed ln) ->
  (r <= List.length placed)%nat.
Proof.
  intros H.
  assert (K : forall k, (k <= r)%nat ->
                        (k <= List.length (fromLane (r - k) placed))%nat).
  { induction k as [| k IH]; intros Hk; [lia |].
    assert (Hocc : occupied placed (r - S k)) by (apply H; lia).
    apply fromLane_occupied in Hocc.
    replace (S (r - S k)) with (r - k)%nat in Hocc by lia.
    specialize (IH ltac:(lia)). lia. }
  specialize (K r (Nat.le_refl r)).
  pose proof (filter_length_le (fun p => Nat.leb (r - r) (lane p)) placed) as L.
  unfold fromLane in K. lia.
Qed.

(** The two facts about lanes that every iteration keeps. *)
Lemma lanes_step measure extent scale cache placed ev cache' placed' :
  compactLanes placed
  /\ (forall i p, nth_error placed i = Some p -> (lane p <= i)%nat) ->
  placeEvent measure extent scale cache placed ev = Some (cache', placed') ->
  compactLanes placed'
  /\ (forall i p, nth_error placed' i = Some p -> (lane p <= i)%nat).
Proof.
  intros [Hc Hi] H.
  destruct (placeEvent_lane _ _ _ _ _ _ _ _ H) as (p & -> & Hle & _ & Hbetween).
  assert (Hbelow : forall ln, (ln < lane p)%nat -> occupied placed ln).
  { intros ln Hln.
    destruct (Nat.lt_ge_cases ln (preferredLane placed ev)) as [Lt | Ge].
    - destruct (preferredLane_occupied placed ev) as [Z0 | (x & Hin & Hx)]; [lia |].
      apply (Hc x ln Hin). lia.
    - apply conflicts_true with (l := left p) (dw := displayWidth p).
      apply Hbetween. lia. }
  split.
  - intros q ln Hin Hln. apply in_app_or in Hin. destruct Hin as [Hin | [<- | []]].
    + apply occupied_app. exact (Hc q ln Hin Hln).
    + apply occupied_app. now apply Hbelow.
  - intros i q Hq.
    destruct (Nat.lt_ge_cases i (List.length placed)) as [Li | Li].
    + rewrite nth_error_app1 in Hq by assumption. exact (Hi i q Hq).
    + rewrite nth_error_app2 in Hq by assumption.
      apply LayoutFacts.nth_error_single in Hq. destruct Hq as [_ ->].
      pose proof (occupied_below_length placed (lane p) Hbelow). lia.
Qed.

End LaneMore.

(** X10.  Within each collection of a layout the lanes are used without
    gaps: every lane below a lane in use is in use too; and the event at
    position [i] of the collection (counting from 0) is on lane [i] at
    most, so that [n] events never take more than [n] lanes. *)
Theorem layout_lanes_compact (measure : string -> Q) (cache : TextCache)
    (extent : TimelineExtent) (offsetWidth offsetHeight : Z)
    (sorted : list EventCollection) :
  offsetWidth <> 0 -> offsetHeight <> 0 ->
  exists cache' out,
    layout measure cache extent offsetWidth offsetHeight sorted
    = Positioned cache' out
    /\ Forall (fun c =>
         compactLanes (positionedEvents c)
         /\ (forall i p, nth_error (positionedEvents c) i = Some p ->
                         (lane p <= i)%nat)) out.
Proof.
  intros Hw Hh.
  destruct (LayoutMore.layout_total measure cache extent offsetWidth offsetHeight
              sorted Hw Hh) as (c' & out & E & Hpc).
  exists c', out. split; [exact E |].
  refine (LaneMore.placeCollections_inv _ _ _
            (fun placed => compactLanes placed
                           /\ (forall i p, nth_error placed i = Some p ->
                                           (lane p <= i)%nat))
            _ _ _ _ _ _ Hpc).
  - split.
    + intros p ln [].
    + intros [| i] p Hp; discriminate.
  - intros c0 placed ev c1 placed' HI Hstep.
    exact (LaneMore.lanes_step _ _ _ _ _ _ _ _ HI Hstep).
Qed.

Lemma layout_lanes_compact_witness :
  1000 <> 0 /\ 100 <> 0
  /\ exists cache' out,
       layout sampleMeasure [] sampleExtent 1000 100 sampleSorted
       = Positioned cache' out
       /\ Forall (fun c =>
            compactLanes (positionedEvents c)
            /\ (forall i p, nth_error (positionedEvents c) i = Some p ->
                            (lane p <= i)%nat)) out.
Proof.
  split; [lia |]. split; [lia |]. apply layout_lanes_compact; lia.
Defined.

Module FirstFit.
Import LaneFacts.

Lemma conflicts_overlap placed l dw ln :
  conflicts placed l dw ln = true ->
  exists q, In q placed /\ lane q = ln
            /\ (left q < l + dw)%Q /\ (l < left q + displayWidth q)%Q.
Proof.
  unfold conflicts. intros H. apply existsb_exists in H.
  destruct H as (q & Hin & Hq).
  apply andb_prop in Hq. destruct Hq as [Hq H2].
  apply andb_prop in Hq. destruct Hq as [Hl H1].
  exists q. repeat split; [exact Hin | now apply Nat.eqb_eq | |];
    now apply ltb_lt.
Qed.

End FirstFit.

(** X11.  The lane an event gets is the lowest lane, from its preferred
    lane upward, on which it overlaps no event placed before it: it
    overlaps no earlier event of its own lane, and on every lane between
    the preferred one and its own there is an earlier event that it
    overlaps.  The preferred lane is 0 when no earlier event has its
    colour, whatever lanes hold coloured events. *)
Theorem lane_is_lowest_free (measure : string -> Q) (extent : TimelineExtent)
    (scale : Q) (cache cache1 : TextCache) (evs : list Event)
    (placed : list PositionedEvent) (ev : Event) :
  placeEvents measure extent scale cache [] evs = Some (cache1, placed) ->
  exists cache' p,
    placeEvents measure extent scale cache [] (evs ++ [ev])
    = Some (cache', placed ++ [p])
    /\ event p = ev
    /\ (preferredLane placed ev <= lane p)%nat
    /\ (forall q, In q placed -> lane q = lane p -> ~ Spec.overlap q p)
    /\ (forall k, (preferredLane placed ev <= k < lane p)%nat ->
                  exists q, In q placed /\ lane q = k /\ Spec.overlap q p)
    /\ (find (fun x => color_eqb (color (event x)) (color ev)) placed = None ->
        preferredLane placed ev = 0%nat).
Proof.
  intros Hplaced.
  destruct (LayoutFacts.placeEvent_spec measure extent scale cache1 placed ev)
    as (cache' & p & E & Hev & _).
  destruct (LaneMore.placeEvent_lane _ _ _ _ _ _ _ _ E)
    as (p' & Eq & Hle & Hfree & Hbetween).
  apply app_inj_tail in Eq. destruct Eq as [_ <-].
  exists cache', p. split.
  - rewrite ColorFacts.placeEvents_app, Hplaced. cbn [placeEvents]. now rewrite E.
  - split; [exact Hev |]. split; [exact Hle |]. split; [| split].
    + intros q Hin Hl. exact (LaneFacts.conflicts_false _ _ _ _ Hfree q Hin Hl).
    + intros k Hk. specialize (Hbetween k Hk).
      apply FirstFit.conflicts_overlap in Hbetween.
      destruct Hbetween as (q & Hin & Hl & O1 & O2).
      exists q. repeat split; assumption.
    + apply LaneFacts.preferredLane_default.
Qed.

Lemma lane_is_lowest_free_witness :
  exists cache1 placed,
    placeEvents sampleMeasure sampleExtent 1 [] [] (firstn 2 sampleEvents)
    = Some (cache1, placed)
    /\ let ev := {| title := "gamma"; start := 20; end_ := None; color := None |} in
       exists cache' p,
         placeEvents sampleMeasure sampleExtent 1 [] []
           (firstn 2 sampleEvents ++ [ev])
         = Some (cache', placed ++ [p])
         /\ event p = ev
         /\ (preferredLane placed ev <= lane p)%nat
         /\ (forall q, In q placed -> lane q = lane p -> ~ Spec.overlap q p)
         /\ (forall k, (preferredLane placed ev <= k < lane p)%nat ->
                       exists q, In q placed /\ lane q = k /\ Spec.overlap q p)
         /\ (find (fun x => color_eqb (color (event x)) (color ev)) placed = None ->
             preferredLane placed ev = 0%nat).
Proof.
  do 2 eexists. split; [vm_compute; reflexivity |].
  cbv zeta. eapply lane_is_lowest_free. vm_compute; reflexivity.
Defined.

(** ** The text-measurement cache *)

Module CacheFacts.

Lemma cacheExtends_refl c : cacheExtends c c.
Proof. intros t w H. exact H. Qed.

Lemma cacheExtends_trans a b c :
  cacheExtends a b -> cacheExtends b c -> cacheExtends a c.
Proof. intros H1 H2 t w H. apply H2, H1, H. Qed.

Section WithMeasure.

Variable measure : string -> Q.

(** After a text has been measured the cache answers for it, and it still
    answers as before for every other text it knew. *)
Lemma measureText_cached cache text w cache' :
  measureText measure cache text = (w, cache') ->
  cache_get cache' text = Some w /\ cacheExtends cache cache'.
Proof.
  unfold measureText. destruct (cache_get cache text) as [cached |] eqn:E;
    intros H; inversion H; subst.
  - split; [exact E | apply cacheExtends_refl].
  - split.
    + cbn. now rewrite String.eqb_refl.
    + intros t w Ht. cbn. destruct (String.eqb_spec text t) as [-> | _].
      * congruence.
      * exact Ht.
Qed.

Lemma measureText_hit cache text w :
  cache_get cache text = Some w -> measureText measure cache text = (w, cache).
Proof. unfold measureText. now intros ->. Qed.

Lemma measureText_sound cache text :
  cacheSound measure cache ->
  fst (measureText measure cache text) = measure text
  /\ cacheSound measure (snd (measureText measure cache text)).
Proof.
  intros Hs. unfold measureText.
  destruct (cache_get cache text) as [cached |] eqn:E; cbn.
  - split; [exact (Hs _ _ E) | exact Hs].
  - split; [reflexivity |].
    intros t w Ht. cbn in Ht. destruct (String.eqb_spec text t) as [-> | _].
    + now inversion Ht.
    + exact (Hs _ _ Ht).
Qed.

Variable extent : TimelineExtent.
Variable scale : Q.

(** The outcome of an iteration depends on the cache only through the
    width it yields for the title. *)
Lemma placeEvent_width c1 c2 placed ev :
  fst (measureText measure c1 (title ev)) = fst (measureText measure c2 (title ev)) ->
  option_map snd (placeEvent measure extent scale c1 placed ev)
  = option_map snd (placeEvent measure extent scale c2 placed ev).
Proof.
  unfold placeEvent.
  destruct (measureText measure c1 (title ev)) as [w1 c1'].
  destruct (measureText measure c2 (title ev)) as [w2 c2']. cbn [fst].
  intros ->. destruct (scanLane _ _ _ _ _); reflexivity.
Qed.

Lemma placeEvent_cache c placed ev c' placed' :
  placeEvent measure extent scale c placed ev = Some (c', placed') ->
  c' = snd (measureText measure c (title ev)).
Proof.
  unfold placeEvent.
  destruct (measureText measure c (title ev)) as [w c1].
  destruct (scanLane _ _ _ _ _); [| discriminate].
  intros H. now inversion H.
Qed.

Lemma placeEvent_rerun c placed ev c1 placed1 :
  placeEvent measure extent scale c placed ev = Some (c1, placed1) ->
  cacheExtends c c1
  /\ forall c2, cacheExtends c1 c2 ->
                placeEvent measure extent scale c2 placed ev = Some (c2, placed1).
Proof.
  intros H. pose proof (placeEvent_cache _ _ _ _ _ H) as Hc.
  destruct (measureText measure c (title ev)) as [w c1'] eqn:M. cbn in Hc. subst c1'.
  destruct (measureText_cached _ _ _ _ M) as [Hget Hext].
  split; [exact Hext |]. intros c2 H2.
  pose proof (measureText_hit c2 (title ev) w (H2 _ _ Hget)) as M2.
  pose proof (placeEvent_width c c2 placed ev) as W.
  rewrite M, M2 in W. specialize (W eq_refl). rewrite H in W. cbn in W.
  destruct (placeEvent measure extent scale c2 placed ev) as [[c2' p2] |] eqn:E2;
    [| discriminate].
  pose proof (placeEvent_cache _ _ _ _ _ E2) as Hc2. rewrite M2 in Hc2.
  cbn in Hc2, W. inversion W. now subst.
Qed.

Lemma placeEvents_rerun evs : forall c placed c' placed',
  placeEvents measure extent scale c placed evs = Some (c', placed') ->
  cacheExtends c c'
  /\ forall c2, cacheExtends c' c2 ->
                placeEvents measure extent scale c2 placed evs = Some (c2, placed').
Proof.
  induction evs as [| ev evs IH]; intros c placed c' placed' H;
    cbn [placeEvents] in *.
  - inversion H; subst. split; [apply cacheExtends_refl | reflexivity].
  - destruct (placeEvent measure extent scale c placed ev)
      as [[c1 p1] |] eqn:E; [| discriminate].
    destruct (placeEvent_rerun _ _ _ _ _ E) as [X1 R1].
    destruct (IH _ _ _ _ H) as [X2 R2].
    split; [exact (cacheExtends_trans _ _ _ X1 X2) |].
    intros c2 H2. rewrite (R1 c2 (cacheExtends_trans _ _ _ X2 H2)).
    exact (R2 c2 H2).
Qed.

Lemma placeCollections_rerun cs : forall c c' out,
  placeCollections measure extent scale c cs = Some (c', out) ->
  cacheExtends c c'
  /\ forall c2, cacheExtends c' c2 ->
                placeCollections measure extent scale c2 cs = Some (c2, out).
Proof.
  induction cs as [| col cs IH]; intros c c' out H; cbn [placeCollections] in *.
  - inversion H; subst. split; [apply cacheExtends_refl | reflexivity].
  - destruct (placeEvents measure extent scale c [] (events col))
      as [[c1 placed] |] eqn:E; [| discriminate].
    destruct (placeCollections measure extent scale c1 cs)
      as [[c3 out'] |] eqn:E2; [| discriminate].
    inversion H; subst.
    destruct (placeEvents_rerun _ _ _ _ _ E) as [X1 R1].
    destruct (IH _ _ _ E2) as [X2 R2].
    split; [exact (cacheExtends_trans _ _ _ X1 X2) |].
    intros c2 H2. rewrite (R1 c2 (cacheExtends_trans _ _ _ X2 H2)).
    now rewrite (R2 c2 H2).
Qed.

End WithMeasure.

End CacheFacts.

(** X12.  Laying out again with the cache that a layout returned, all else
    being the same, gives the same positioned events and leaves the cache
    as it is. *)
Theorem layout_again_same (measure : string -> Q) (cache cache' : TextCache)
    (extent : TimelineExtent) (offsetWidth offsetHeight : Z)
    (sorted : list EventCollection) (out : list PositionEventCollection) :
  layout measure cache extent offsetWidth offsetHeight sorted
  = Positioned cache' out ->
  layout measure cache' extent offsetWidth offsetHeight sorted
  = Positioned cache' out.
Proof.
  unfold layout.
  destruct ((offsetWidth =? 0) || (offsetHeight =? 0)); [discriminate |].
  destruct (placeCollections _ _ _ cache sorted) as [[c1 out1] |] eqn:E;
    [| discriminate].
  intros H. inversion H; subst.
  destruct (CacheFacts.placeCollections_rerun _ _ _ _ _ _ _ E) as [_ R].
  now rewrite (R cache' (CacheFacts.cacheExtends_refl cache')).
Qed.

Lemma layout_again_same_witness :
  exists cache' out,
    layout sampleMeasure [("alpha"%string, 30%Q)] sampleExtent 1000 100 sampleSorted
    = Positioned cache' out
    /\ layout sampleMeasure cache' sampleExtent 1000 100 sampleSorted
       = Positioned cache' out.
Proof.
  do 2 eexists. split; [vm_compute; reflexivity |].
  apply (layout_again_same sampleMeasure [("alpha"%string, 30%Q)]).
  vm_compute; reflexivity.
Defined.

Module SoundCache.
Import CacheFacts.

Section WithMeasure.

Variable measure : string -> Q.
Variable extent : TimelineExtent.
Variable scale : Q.

Lemma placeEvent_sound c placed ev c1 placed1 :
  cacheSound measure c ->
  placeEvent measure extent scale c placed ev = Some (c1, placed1) ->
  cacheSound measure c1
  /\ (exists p, placed1 = placed ++ [p] /\ event p = ev
                /\ textWidth p = measure (title ev))
  /\ forall c2, cacheSound measure c2 ->
       exists c2', placeEvent measure extent scale c2 placed ev = Some (c2', placed1)
                   /\ cacheSound measure c2'.
Proof.
  intros Hs H.
  destruct (measureText_sound measure c (title ev) Hs) as [Hw Hs1].
  rewrite <- (placeEvent_cache _ _ _ _ _ _ _ _ H) in Hs1.
  split; [exact Hs1 |]. split.
  - destruct (LayoutMore.placeEvent_fields _ _ _ _ _ _ _ _ H)
      as (p & Eq & Hev & M & _).
    exists p. split; [exact Eq |]. split; [exact Hev |].
    rewrite M in Hw. exact Hw.
  - intros c2 Hs2.
    destruct (measureText_sound measure c2 (title ev) Hs2) as [Hw2 Hs2'].
    pose proof (placeEvent_width measure extent scale c c2 placed ev) as W.
    rewrite Hw, Hw2 in W. specialize (W eq_refl). rewrite H in W. cbn in W.
    destruct (placeEvent measure extent scale c2 placed ev) as [[c2' p2] |] eqn:E2;
      [| discriminate].
    exists c2'. cbn in W. inversion W; subst. split; [reflexivity |].
    now rewrite (placeEvent_cache _ _ _ _ _ _ _ _ E2).
Qed.

Lemma placeEvents_sound evs : forall c placed c' placed',
  cacheSound measure c ->
  Forall (fun p => textWidth p = measure (title (event p))) placed ->
  placeEvents measure extent scale c placed evs = Some (c', placed') ->
  cacheSound measure c'
  /\ Forall (fun p => textWidth p = measure (title (event p))) placed'
  /\ forall c2, cacheSound measure c2 ->
       exists c2', placeEvents measure extent scale c2 placed evs = Some (c2', placed')
                   /\ cacheSound measure c2'.
Proof.
  induction evs as [| ev evs IH]; intros c placed c' placed' Hs HF H;
    cbn [placeEvents] in *.
  - inversion H; subst. split; [exact Hs |]. split; [exact HF |].
    intros c2 Hs2. now exists c2.
  - destruct (placeEvent measure extent scale c placed ev)
      as [[c1 p1] |] eqn:E; [| discriminate].
    destruct (placeEvent_sound _ _ _ _ _ Hs E) as (Hs1 & (p & -> & Hev & Hw) & R1).
    assert (HF1 : Forall (fun p => textWidth p = measure (title (event p)))
                    (placed ++ [p])).
    { apply Forall_app. split; [exact HF |].
      constructor; [now rewrite Hev | constructor]. }
    destruct (IH _ _ _ _ Hs1 HF1 H) as (Hs' & HF' & R2).
    split; [exact Hs' |]. split; [exact HF' |].
    intros c2 Hs2. destruct (R1 c2 Hs2) as (c2a & E2 & Hs2a). rewrite E2.
    exact (R2 c2a Hs2a).
Qed.

Lemma placeCollections_sound cs : forall c c' out,
  cacheSound measure c ->
  placeCollections measure extent scale c cs = Some (c', out) ->
  cacheSound measure c'
  /\ Forall (fun col =>
       Forall (fun p => textWidth p = measure (title (event p)))
         (positionedEvents col)) out
  /\ forall c2, cacheSound measure c2 ->
       exists c2', placeCollections measure extent scale c2 cs = Some (c2', out)
                   /\ cacheSound measure c2'.
Proof.
  induction cs as [| col cs IH]; intros c c' out Hs H; cbn [placeCollections] in *.
  - inversion H; subst. split; [exact Hs |]. split; [constructor |].
    intros c2 Hs2. now exists c2.
  - destruct (placeEvents measure extent scale c [] (events col))
      as [[c1 placed] |] eqn:E; [| discriminate].
    destruct (placeCollections measure extent scale c1 cs)
      as [[c3 out'] |] eqn:E2; [| discriminate].
    inversion H; subst.
    destruct (placeEvents_sound _ _ _ _ _ Hs (Forall_nil _) E) as (Hs1 & HF & R1).
    destruct (IH _ _ _ Hs1 E2) as (Hs' & HF' & R2).
    split; [exact Hs' |]. split; [constructor; [exact HF | exact HF'] |].
    intros c2 Hs2. destruct (R1 c2 Hs2) as (c2a & Ea & Hsa). rewrite Ea.
    destruct (R2 c2a Hsa) as (c2b & Eb & Hsb). rewrite Eb.
    now exists c2b.
Qed.

End WithMeasure.

End SoundCache.

(** X13.  When every width in the cache is the measured width of its text,
    a layout keeps the cache so, records for every positioned event the
    measured width of its title, and positions the events as it would from
    any other such cache, the empty one included. *)
Theorem layout_sound_cache (measure : string -> Q) (cache cache' : TextCache)
    (extent : TimelineExtent) (offsetWidth offsetHeight : Z)
    (sorted : list EventCollection) (out : list PositionEventCollection) :
  cacheSound measure cache ->
  layout measure cache extent offsetWidth offsetHeight sorted
  = Positioned cache' out ->
  cacheSound measure cache'
  /\ Forall (fun col =>
       Forall (fun p => textWidth p = measure (title (event p)))
         (positionedEvents col)) out
  /\ forall cache2, cacheSound measure cache2 ->
       exists cache2',
         layout measure cache2 extent offsetWidth offsetHeight sorted
         = Positioned cache2' out.
Proof.
  unfold layout. intros Hs.
  destruct ((offsetWidth =? 0) || (offsetHeight =? 0)); [discriminate |].
  destruct (placeCollections _ _ _ cache sorted) as [[c1 out1] |] eqn:E;
    [| discriminate].
  intros H. inversion H; subst.
  destruct (SoundCache.placeCollections_sound _ _ _ _ _ _ _ Hs E) as (Hs' & HF & R).
  split; [exact Hs' |]. split; [exact HF |].
  intros cache2 Hs2. destruct (R cache2 Hs2) as (c2' & E2 & _). rewrite E2.
  now exists c2'.
Qed.

Lemma layout_sound_cache_witness :
  exists cache' out,
    cacheSound sampleMeasure [("beta"%string, sampleMeasure "beta")]
    /\ layout sampleMeasure [("beta"%string, sampleMeasure "beta")]
         sampleExtent 1000 100 sampleSorted
       = Positioned cache' out
    /\ cacheSound sampleMeasure cache'
    /\ Forall (fun col =>
         Forall (fun p => textWidth p = sampleMeasure (title (event p)))
           (positionedEvents col)) out
    /\ forall cache2, cacheSound sampleMeasure cache2 ->
         exists cache2',
           layout sampleMeasure cache2 sampleExtent 1000 100 sampleSorted
           = Positioned cache2' out.
Proof.
  assert (Hs : cacheSound sampleMeasure [("beta"%string, sampleMeasure "beta")]).
  { intros t w H. cbn [cache_get] in H.
    destruct (String.eqb_spec "beta" t) as [<- | _].
    - now inversion H.
    - discriminate. }
  do 2 eexists. split; [exact Hs |]. split; [vm_compute; reflexivity |].
  apply (layout_sound_cache sampleMeasure [("beta"%string, sampleMeasure "beta")]);
    [exact Hs | vm_compute; reflexivity].
Defined.

(** ** The course of an inertia run *)

Module InertiaRun.
Import Double DoubleFacts ErrorFacts DoubleInertia.
Local Open Scope Q_scope.

(** The literals [0.1] and [0.95] as Number values. *)
Lemma tenth_eq : ofQ (1 # 10) = Fin (3602879701896397 # 36028797018963968).
Proof. vm_compute. reflexivity. Qed.

Lemma factor_eq : ofQ (95 # 100) = Fin (4278419646001971 # 4503599627370496).
Proof. vm_compute. reflexivity. Qed.

Lemma below_finite v :
  finite v = true ->
  (belowThreshold v = true
   <-> Qabs (val v) < 3602879701896397 # 36028797018963968).
Proof.
  intros F. unfold belowThreshold. rewrite tenth_eq.
  destruct v as [q | | n |]; try discriminate; cbn [abs ltb val].
  - rewrite Bool.negb_true_iff. split.
    + intros H. apply Qnot_le_lt. intros L. apply Qle_bool_iff in L. congruence.
    + intros H. destruct (Qle_bool _ _) eqn:E; [| reflexivity].
      apply Qle_bool_iff in E. lra.
  - split; [intros _; reflexivity | intros _; reflexivity].
Qed.

Lemma below_infinite v : finite v = false -> belowThreshold v = false.
Proof.
  intros F. unfold belowThreshold. rewrite tenth_eq.
  destruct v as [q | | n |]; try discriminate; reflexivity.
Qed.

Lemma decay_infinite v :
  finite v = false -> finite (mul v (ofQ (95 # 100))) = false.
Proof.
  intros F. rewrite factor_eq.
  destruct v as [q | | n |]; try discriminate; reflexivity.
Qed.

(** A product of finite numbers that is not zero. *)
Lemma mul_nonzero a b :
  finite a = true -> finite b = true -> ~ val a * val b == 0 ->
  mul a b = round (val a * val b).
Proof.
  intros Fa Fb NZ.
  destruct a as [p | | n |]; [| | discriminate Fa | discriminate Fa];
    (destruct b as [q | | m |]; [| | discriminate Fb | discriminate Fb]);
    cbn [mul val] in *;
    try (exfalso; apply NZ; ring).
  destruct (Qeq_bool (p * q) 0) eqn:Q0; [| reflexivity].
  apply Qeq_bool_iff in Q0. contradiction.
Qed.

(** One decay of a velocity that is not below the threshold. *)
Lemma decay_step v :
  finite v = true -> Qabs (val v) < 2 ^ 1024 ->
  belowThreshold v = false ->
  finite (mul v (ofQ (95 # 100))) = true
  /\ Qabs (val (mul v (ofQ (95 # 100)))) <= (24 # 25) * Qabs (val v).
Proof.
  intros F B NB.
  assert (T : ~ Qabs (val v) < 3602879701896397 # 36028797018963968).
  { intros L. apply (below_finite v F) in L. congruence. }
  apply Qnot_lt_le in T.
  rewrite factor_eq.
  set (c := 4278419646001971 # 4503599627370496) in *.
  set (x := val v * c).
  assert (Ax : Qabs x == Qabs (val v) * c).
  { unfold x. rewrite Qabs_Qmult. rewrite (Qabs_pos c) by discriminate. reflexivity. }
  pose proof (rnd_err' x) as E. apply Qabs_Qle_condition in E.
  assert (Rx : Qabs (rnd x) <= (24 # 25) * Qabs (val v)).
  { apply Qabs_Qle_condition.
    pose proof (Qle_Qabs x) as U1. pose proof (Qle_Qabs (- x)) as U2.
    rewrite Qabs_opp in U2. rewrite Ax in *.
    unfold c, u, tiny in *. split; lra. }
  assert (NZ : ~ x == 0).
  { intros Z0. rewrite Z0 in Ax. change (Qabs 0) with 0 in Ax.
    unfold c in Ax. lra. }
  assert (Em : mul v (Fin c) = round x)
    by (apply (mul_nonzero v (Fin c) F eq_refl NZ)).
  rewrite Em.
  assert (Fr : finite (round x) = true).
  { apply round_finite. set (M := 2 ^ 1024) in *.
    pose proof (Qabs_nonneg (val v)). lra. }
  split; [exact Fr |]. rewrite (round_val x Fr). exact Rx.
Qed.

(** While the run lasts the velocity falls at least as fast as
    [24 / (24 + n)]. *)
Lemma decayed_bound v n :
  finite v = true -> Qabs (val v) < 2 ^ 1024 ->
  (exists i, (i <= n)%nat /\ belowThreshold (decayed v i) = true)
  \/ (finite (decayed v n) = true
      /\ Qabs (val (decayed v n)) * (24 + inject_Z (Z.of_nat n))
         <= 24 * Qabs (val v)).
Proof.
  intros F B. induction n as [| n IH].
  - right. cbn [decayed Z.of_nat]. split; [exact F |].
    change (inject_Z 0) with 0. lra.
  - destruct IH as [(i & Hi & P) | [Fn Bn]].
    + left. exists i. split; [lia | exact P].
    + destruct (belowThreshold (decayed v n)) eqn:P.
      * left. exists n. split; [lia | exact P].
      * right. cbn [decayed].
        pose proof (Qabs_nonneg (val (decayed v n))) as A0.
        pose proof (Qabs_nonneg (val v)) as V0.
        assert (N0 : 0 <= inject_Z (Z.of_nat n)).
        { change 0 with (inject_Z 0). rewrite <- Zle_Qle. lia. }
        assert (Bd : Qabs (val (decayed v n)) < 2 ^ 1024).
        { set (M := 2 ^ 1024) in *.
          pose proof (Qmult_le_0_compat _ _ A0 N0) as PP. lra. }
        destruct (decay_step _ Fn Bd P) as [Fs Bs].
        split; [exact Fs |].
        rewrite Nat2Z.inj_succ, <- Z.add_1_r, inject_Z_plus.
        change (inject_Z 1) with 1.
        pose proof (Qabs_nonneg (val (mul (decayed v n) (ofQ (95 # 100))))) as S0.
        set (a := Qabs (val (decayed v n))) in *.
        set (b := Qabs (val (mul (decayed v n) (ofQ (95 # 100))))) in *.
        set (k := inject_Z (Z.of_nat n)) in *.
        assert (P1 : 0 <= ((24 # 25) * a - b) * (25 + k))
          by (apply Qmult_le_0_compat; lra).
        assert (P2 : 0 <= a * k) by (apply Qmult_le_0_compat; lra).
        lra.
Qed.

(** The velocity falls below the threshold at some tick. *)
Lemma decayed_small v :
  finite v = true -> Qabs (val v) < 2 ^ 1024 ->
  exists n, belowThreshold (decayed v n) = true.
Proof.
  intros F B.
  set (N := Z.to_nat (Qceiling (300 * Qabs (val v)))).
  pose proof (Qabs_nonneg (val v)) as V0.
  assert (HN : 300 * Qabs (val v) <= inject_Z (Z.of_nat N)).
  { unfold N. rewrite Z2Nat.id.
    - apply Qle_ceiling.
    - assert (L : 0 <= 300 * Qabs (val v)) by lra.
      apply Qceiling_resp_le in L. now change (Qceiling 0) with 0%Z in L. }
  destruct (decayed_bound v N F B) as [(i & _ & P) | [Fn Bn]].
  - exists i. exact P.
  - exists N. apply (below_finite _ Fn).
    pose proof (Qabs_nonneg (val (decayed v N))) as A0.
    apply Qnot_le_lt. intros L.
    assert (P : 0 <= (Qabs (val (decayed v N))
                      - (3602879701896397 # 36028797018963968))
                     * (24 + inject_Z (Z.of_nat N)))
      by (apply Qmult_le_0_compat; lra).
    lra.
Qed.

Lemma decayed_infinite v n : finite v = false -> finite (decayed v n) = false.
Proof.
  intros F. induction n as [| n IH]; [exact F |].
  cbn [decayed]. apply decay_infinite. exact IH.
Qed.

Lemma first_true (P : nat -> bool) (N : nat) :
  P N = true -> exists n, P n = true /\ forall i, (i < n)%nat -> P i = false.
Proof.
  induction N as [N IH] using lt_wf_ind. intros HN.
  destruct (forallb (fun i => negb (P i)) (seq 0 N)) eqn:E.
  - exists N. split; [exact HN |]. intros i Hi.
    rewrite forallb_forall in E. specialize (E i).
    rewrite in_seq in E. apply negb_true_iff, E. lia.
  - assert (X : exists i, (i < N)%nat /\ P i = true).
    { clear IH HN. induction N as [| N IHN].
      - discriminate.
      - rewrite seq_S, forallb_app in E. cbn in E.
        destruct (forallb (fun i => negb (P i)) (seq 0 N)) eqn:E0.
        + exists N. split; [lia |]. cbn in E. rewrite andb_true_r in E.
          now apply negb_false_iff in E.
        + destruct (IHN eq_refl) as (i & Hi & Pi). exists i. split; [lia | exact Pi]. }
    destruct X as (i & Hi & Pi). exact (IH i Hi Pi).
Qed.

Lemma run_snoc acts a s : run (acts ++ [a]) s = step (run acts s) a.
Proof. unfold run. now rewrite fold_left_app. Qed.

Lemma repeat_snoc (a : action) n : repeat a (S n) = repeat a n ++ [a].
Proof.
  induction n as [| n IH]; [reflexivity |].
  cbn [repeat app] in *. now rewrite <- IH.
Qed.

(** The state while the run lasts. *)
Lemma ticks_running t s0 n :
  In t (timers s0) ->
  (forall i, (i < n)%nat -> belowThreshold (decayed (velocity s0) i) = false) ->
  run (repeat (Tick t) n) s0
  = {| intervalId := intervalId s0;
       timers := timers s0;
       nextId := nextId s0;
       velocity := decayed (velocity s0) n;
       calls := map (fun i => (t, decayed (velocity s0) i)) (rev (seq 0 n))
                ++ calls s0 |}.
Proof.
  intros Hin. induction n as [| n IH]; intros Hrun.
  - cbn. now destruct s0.
  - rewrite repeat_snoc, run_snoc, IH by (intros i Hi; apply Hrun; lia).
    cbn [step timers].
    assert (Hex : existsb (Nat.eqb t) (timers s0) = true).
    { apply existsb_exists. exists t. split; [exact Hin | apply Nat.eqb_refl]. }
    rewrite Hex. unfold fire. cbn [velocity calls intervalId timers nextId].
    pose proof (Hrun n (Nat.lt_succ_diag_r n)) as Hn. unfold belowThreshold in Hn.
    rewrite Hn.
    rewrite seq_S, rev_app_distr. reflexivity.
Qed.

End InertiaRun.

(** X14.  An inertia run begun with a finite velocity ends by itself.
    After [beginInertia(v)], in whatever state, some tick of the new
    interval finds the velocity below 0.1 in absolute value: that tick
    clears the interval, resets the velocity to 0 and is the last to invoke
    the callback; the callback has then been invoked once per tick, with
    [v], [v * 0.95], [v * 0.95 * 0.95] and so on, each product rounded, the
    last of them being the first below the threshold.  A run begun with NaN
    or an infinity never ends: its interval is live, and recorded, after
    any number of ticks. *)
Theorem inertia_run_stops (v : Double.double) (s : DoubleInertia.state) :
  let t := DoubleInertia.nextId s in
  let ticks n :=
    DoubleInertia.run (repeat (DoubleInertia.Tick t) n)
      (DoubleInertia.beginInertia v s) in
  (Double.finite v = true -> (Qabs (Double.val v) < 2 ^ 1024)%Q ->
   exists n,
     DoubleInertia.intervalId (ticks (S n)) = None
     /\ ~ In t (DoubleInertia.timers (ticks (S n)))
     /\ DoubleInertia.velocity (ticks (S n)) = Double.ofZ 0
     /\ DoubleInertia.calls (ticks (S n))
        = map (fun i => (t, decayed v i)) (rev (seq 0 (S n)))
          ++ DoubleInertia.calls s
     /\ (forall i, (i < n)%nat -> belowThreshold (decayed v i) = false)
     /\ belowThreshold (decayed v n) = true)
  /\ (Double.finite v = false ->
      forall n,
        DoubleInertia.intervalId (ticks n) = Some t
        /\ In t (DoubleInertia.timers (ticks n))).
Proof.
  intros t ticks. split.
  - intros F B.
    destruct (InertiaRun.decayed_small v F B) as (N & HN).
    destruct (InertiaRun.first_true (fun i => belowThreshold (decayed v i)) N HN)
      as (n & Hn & Hbefore).
    exists n. unfold ticks.
    rewrite InertiaRun.repeat_snoc, InertiaRun.run_snoc.
    rewrite (InertiaRun.ticks_running t (DoubleInertia.beginInertia v s) n);
      [| now left | exact Hbefore].
    cbn [DoubleInertia.step DoubleInertia.timers DoubleInertia.beginInertia
         DoubleInertia.velocity DoubleInertia.intervalId DoubleInertia.calls
         DoubleInertia.nextId].
    fold t. cbn [existsb]. rewrite Nat.eqb_refl. cbn [orb].
    unfold DoubleInertia.fire.
    cbn [DoubleInertia.velocity DoubleInertia.calls DoubleInertia.intervalId
         DoubleInertia.timers DoubleInertia.nextId].
    unfold belowThreshold in Hn. rewrite Hn.
    cbn [DoubleInertia.velocity DoubleInertia.calls DoubleInertia.intervalId
         DoubleInertia.timers DoubleInertia.nextId].
    split; [reflexivity |]. split; [apply InertiaFacts.clearInterval_not_in |].
    split; [reflexivity |]. split.
    + rewrite seq_S, rev_app_distr. reflexivity.
    + split; [exact Hbefore | exact Hn].
  - intros F n. unfold ticks.
    rewrite (InertiaRun.ticks_running t (DoubleInertia.beginInertia v s) n);
      [| now left |].
    + cbn [DoubleInertia.intervalId DoubleInertia.timers DoubleInertia.beginInertia].
      fold t. split; [reflexivity | now left].
    + intros i _. apply InertiaRun.below_infinite.
      apply InertiaRun.decayed_infinite. exact F.
Qed.

Lemma inertia_run_stops_witness :
  let v := Double.ofQ (11663507799970842 # 100000000000000000) in
  let ticks w n :=
    DoubleInertia.run (repeat (DoubleInertia.Tick 1%nat) n)
      (DoubleInertia.beginInertia w DoubleInertia.init) in
  Double.finite v = true /\ (Qabs (Double.val v) < 2 ^ 1024)%Q
  /\ (exists n,
        DoubleInertia.intervalId (ticks v (S n)) = None
        /\ ~ In 1%nat (DoubleInertia.timers (ticks v (S n)))
        /\ DoubleInertia.velocity (ticks v (S n)) = Double.ofZ 0
        /\ DoubleInertia.calls (ticks v (S n))
           = map (fun i => (1%nat, decayed v i)) (rev (seq 0 (S n)))
             ++ DoubleInertia.calls DoubleInertia.init
        /\ (forall i, (i < n)%nat -> belowThreshold (decayed v i) = false)
        /\ belowThreshold (decayed v n) = true)
  /\ belowThreshold (decayed v 2) = false
  /\ belowThreshold (decayed v 3) = true
  /\ Double.finite Double.NaN = false
  /\ (forall n,
        DoubleInertia.intervalId (ticks Double.NaN n) = Some 1%nat
        /\ In 1%nat (DoubleInertia.timers (ticks Double.NaN n))).
Proof.
  cbv zeta.
  assert (F : Double.finite (Double.ofQ (11663507799970842 # 100000000000000000))
              = true) by (vm_compute; reflexivity).
  assert (B : (Qabs (Double.val (Double.ofQ (11663507799970842 # 100000000000000000)))
               < 2 ^ 1024)%Q) by (vm_compute; reflexivity).
  split; [exact F |]. split; [exact B |].
  split.
  - exact (proj1 (inertia_run_stops
                    (Double.ofQ (11663507799970842 # 100000000000000000))
                    DoubleInertia.init) F B).
  - split; [vm_compute; reflexivity |]. split; [vm_compute; reflexivity |].
    split; [reflexivity |].
    exact (proj2 (inertia_run_stops Double.NaN DoubleInertia.init) eq_refl).
Defined.

Module Orphan.
Import Inertia.

(** An interval that is live but not the recorded one. *)
Lemma orphan_step t s a :
  wf s ->
  In t (timers s) /\ intervalId s <> Some t ->
  In t (timers (step s a)) /\ intervalId (step s a) <> Some t.
Proof.
  intros [Ht _] [Hin Hne].
  assert (Hlt : (t < nextId s)%nat).
  { rewrite Forall_forall in Ht. now apply Ht. }
  assert (Hkeep : forall id, id <> Some t -> In t (clearInterval id (timers s))).
  { intros [t0 |] Hid; cbn; [| exact Hin].
    apply filter_In. split; [exact Hin |].
    apply negb_true_iff, Nat.eqb_neq. congruence. }
  destruct a as [v | | t']; cbn [step].
  - cbn. split; [now right |]. intros E. inversion E. lia.
  - unfold endInertia. destruct (intervalId s) as [t0 |] eqn:E.
    + cbn [timers intervalId]. split; [| discriminate].
      apply Hkeep. congruence.
    + rewrite E. now split.
  - destruct (existsb (Nat.eqb t') (timers s)); [| now split].
    unfold fire. destruct (Num.ltb _ _); cbn [timers intervalId].
    + split; [now apply Hkeep | discriminate].
    + now split.
Qed.

Lemma orphan_run t acts : forall s,
  wf s ->
  In t (timers s) /\ intervalId s <> Some t ->
  In t (timers (run acts s)) /\ intervalId (run acts s) <> Some t.
Proof.
  unfold run. induction acts as [| a acts IH]; intros s Hwf H; cbn; [exact H |].
  apply IH; [now apply InertiaFacts.wf_step | now apply orphan_step].
Qed.

End Orphan.

(** X15.  An interval that is live while another id, or none, is recorded
    is never cleared: whatever calls and ticks follow, it stays live, it is
    never the recorded one again, and each of its ticks invokes the
    callback.  A second [beginInertia] without an [endInertia] in between
    leaves the first interval in that condition. *)
Theorem orphaned_interval_runs_forever (before acts : list Inertia.action)
    (t : Inertia.TimerId) :
  let s := Inertia.run before Inertia.init in
  In t (Inertia.timers s) ->
  Inertia.intervalId s <> Some t ->
  let s' := Inertia.run acts s in
  In t (Inertia.timers s')
  /\ Inertia.intervalId s' <> Some t
  /\ Inertia.calls (Inertia.step s' (Inertia.Tick t))
     = (t, Inertia.velocity s') :: Inertia.calls s'.
Proof.
  intros s Hin Hne s'.
  assert (Hwf : Inertia.wf s)
    by (apply InertiaFacts.wf_run, InertiaFacts.wf_init).
  destruct (Orphan.orphan_run t acts s Hwf (conj Hin Hne)) as [Hin' Hne'].
  split; [exact Hin' |]. split; [exact Hne' |].
  cbn [Inertia.step].
  assert (Hex : existsb (Nat.eqb t) (Inertia.timers s') = true).
  { apply existsb_exists. exists t. split; [exact Hin' | apply Nat.eqb_refl]. }
  rewrite Hex. apply InertiaFacts.fire_calls.
Qed.

Lemma orphaned_interval_runs_forever_witness :
  let before := [Inertia.Begin 10; Inertia.Begin 4] in
  let acts := [Inertia.End; Inertia.Tick 2%nat; Inertia.Begin 1; Inertia.End] in
  let s := Inertia.run before Inertia.init in
  let s' := Inertia.run acts s in
  In 1%nat (Inertia.timers s)
  /\ Inertia.intervalId s <> Some 1%nat
  /\ In 1%nat (Inertia.timers s')
  /\ Inertia.intervalId s' <> Some 1%nat
  /\ Inertia.calls (Inertia.step s' (Inertia.Tick 1%nat))
     = (1%nat, Inertia.velocity s') :: Inertia.calls s'.
Proof.
  cbv zeta.
  assert (H1 : In 1%nat (Inertia.timers
                           (Inertia.run [Inertia.Begin 10; Inertia.Begin 4]
                              Inertia.init)))
    by (vm_compute; auto).
  assert (H2 : Inertia.intervalId
                 (Inertia.run [Inertia.Begin 10; Inertia.Begin 4] Inertia.init)
               <> Some 1%nat)
    by (vm_compute; discriminate).
  split; [exact H1 |]. split; [exact H2 |].
  exact (orphaned_interval_runs_forever
           [Inertia.Begin 10; Inertia.Begin 4]
           [Inertia.End; Inertia.Tick 2%nat; Inertia.Begin 1; Inertia.End]
           1%nat H1 H2).
Defined.

(** ** What a layout pass leaves of the caller's arrays *)

(** X26.  A layout pass loses and adds no event: afterwards every events
    array holds the events it held before, each as often as before, in
    whatever order; and an array that no collection refers to is as it
    was. *)
Theorem layout_permutes_events (measure : string -> Q) (cache : TextCache)
    (extent : TimelineExtent) (width height : Z)
    (h : Heap) (collection : list EventCollectionObj) :
  let h' := fst (layoutPass measure cache extent width height h collection) in
  (forall a, Permutation (h a) (h' a))
  /\ (forall a, ~ In a (map obj_events collection) -> h' a = h a).
Proof.
  unfold layoutPass.
  pose proof (SortFacts.sortedCollection_spec collection h) as (P & U & _).
  destruct (sortedCollection h collection) as [h1 sorted]. cbn [fst] in *.
  split; assumption.
Qed.

(** ** The order the sort produces *)

Module SortMore.

Section Insertion.

Variable cmp : Event -> Event -> Z.
Variable P : Event -> Prop.
Hypothesis total : forall a b, P a -> P b -> ~ cmp a b <= 0 -> cmp b a <= 0.
Hypothesis trans :
  forall a b c, P a -> P b -> P c -> cmp a b <= 0 -> cmp b c <= 0 -> cmp a c <= 0.

Lemma Forall_sortInsert (Q : Event -> Prop) x l :
  Q x -> Forall Q l -> Forall Q (sortInsert cmp x l).
Proof.
  intros Hx Hl. apply Forall_forall. intros y Hy.
  apply (Permutation_in _ (Permutation_sym (SortFacts.sortInsert_perm cmp x l))) in Hy.
  destruct Hy as [<- | Hy]; [exact Hx |].
  rewrite Forall_forall in Hl. now apply Hl.
Qed.

Lemma sortInsert_sorted x l :
  P x -> Forall P l ->
  StronglySorted (fun a b => cmp a b <= 0) l ->
  StronglySorted (fun a b => cmp a b <= 0) (sortInsert cmp x l).
Proof.
  intros Hx. induction l as [| y ys IH]; intros HP Hs; cbn.
  - constructor; constructor.
  - inversion HP as [| ? ? Hy Hys]; subst.
    apply StronglySorted_inv in Hs. destruct Hs as [Hs Hall].
    destruct (Z.leb_spec (cmp x y) 0) as [Le | Gt].
    + constructor; [constructor; assumption |].
      constructor; [exact Le |].
      rewrite Forall_forall in *. intros z Hz.
      exact (trans x y z Hx Hy (Hys z Hz) Le (Hall z Hz)).
    + constructor; [now apply IH |].
      apply (Forall_sortInsert (fun b => cmp y b <= 0)); [| exact Hall].
      apply total; [exact Hx | exact Hy | lia].
Qed.

Lemma sort_sorted l :
  Forall P l -> StronglySorted (fun a b => cmp a b <= 0) (sort cmp l).
Proof.
  induction l as [| x xs IH]; intros HP; cbn.
  - constructor.
  - inversion HP; subst. apply sortInsert_sorted; [assumption | | now apply IH].
    apply Forall_forall. intros y Hy.
    apply (Permutation_in _ (Permutation_sym (SortFacts.sort_perm cmp xs))) in Hy.
    rewrite Forall_forall in *. auto.
Qed.

End Insertion.

Lemma ltb_compare a b : String.ltb a b = true <-> String.compare a b = Lt.
Proof. unfold String.ltb. destruct (String.compare a b); split; congruence. Qed.

Lemma compare_trans a b c :
  String.compare a b = Lt -> String.compare b c = Lt -> String.compare a c = Lt.
Proof.
  change String.compare with OrderedTypeEx.String_as_OT.cmp.
  rewrite !OrderedTypeEx.String_as_OT.cmp_lt.
  apply OrderedTypeEx.String_as_OT.lt_trans.
Qed.

Lemma compare_Gt a b : String.compare a b = Gt -> String.compare b a = Lt.
Proof. rewrite (String.compare_antisym b a). now intros ->. Qed.

(** The comparator on events that both have a colour. *)
Lemma compareEvents_colored a b :
  truthy (color a) = true -> truthy (color b) = true ->
  (compareEvents a b <= 0 <-> byColorThenStart a b).
Proof.
  unfold compareEvents, byColorThenStart. intros Ta Tb. rewrite Ta, Tb. cbn [andb].
  destruct (color a) as [ca |] eqn:Ca; [| discriminate].
  destruct (color b) as [cb |] eqn:Cb; [| discriminate].
  cbn [color_ltb]. unfold String.ltb.
  rewrite (String.compare_antisym cb ca).
  destruct (String.compare ca cb) eqn:E; cbn.
  - apply String.compare_eq_iff in E. subst cb.
    split.
    + intros K. right. split; [reflexivity |].
      destruct (Z.ltb_spec (start a) (start b)), (Z.ltb_spec (start b) (start a));
        lia.
    + intros [K | [_ K]]; [discriminate |].
      destruct (Z.ltb_spec (start a) (start b)), (Z.ltb_spec (start b) (start a));
        lia.
  - split; [intros _; now left | lia].
  - split; [lia |]. intros [H | [H _]]; [discriminate |].
    inversion H; subst. pose proof (String.compare_antisym cb cb) as A.
    destruct (String.compare cb cb); cbn in A; discriminate.
Qed.

(** The comparator on events of which neither has a colour. *)
Lemma compareEvents_colorless a b :
  truthy (color a) = false -> truthy (color b) = false ->
  (compareEvents a b <= 0 <-> byStart a b).
Proof.
  unfold compareEvents, byStart. intros Ta Tb. rewrite Ta. cbn [andb].
  destruct (Z.ltb_spec (start a) (start b)), (Z.ltb_spec (start b) (start a));
    split; lia.
Qed.

Lemma byColorThenStart_trans a b c :
  truthy (color a) = true -> truthy (color b) = true -> truthy (color c) = true ->
  byColorThenStart a b -> byColorThenStart b c -> byColorThenStart a c.
Proof.
  unfold byColorThenStart. intros Ta Tb Tc.
  destruct (color a) as [ca |]; [| discriminate].
  destruct (color b) as [cb |]; [| discriminate].
  destruct (color c) as [cc |]; [| discriminate].
  cbn [color_ltb]. rewrite !ltb_compare.
  intros [H1 | [E1 S1]] [H2 | [E2 S2]].
  - left. exact (compare_trans _ _ _ H1 H2).
  - inversion E2; subst. now left.
  - inversion E1; subst. now left.
  - right. split; [congruence | lia].
Qed.

Lemma byColorThenStart_total a b :
  truthy (color a) = true -> truthy (color b) = true ->
  ~ byColorThenStart a b -> byColorThenStart b a.
Proof.
  unfold byColorThenStart. intros Ta Tb.
  destruct (color a) as [ca |]; [| discriminate].
  destruct (color b) as [cb |]; [| discriminate].
  cbn [color_ltb]. rewrite !ltb_compare. intros H.
  destruct (String.compare ca cb) eqn:E.
  - apply String.compare_eq_iff in E. subst cb.
    right. split; [reflexivity |].
    destruct (Z.le_gt_cases (start a) (start b)); [| lia].
    exfalso. apply H. right. now split.
  - exfalso. apply H. now left.
  - left. now apply compare_Gt.
Qed.

End SortMore.

(** X16.  What the sort achieves.  A list in which every event has a
    colour comes out ordered by colour and, within a colour, by start; a
    list in which no event has a colour comes out ordered by start. *)
Theorem sort_orders_uniform_lists (l : list Event) :
  (Forall (fun e => truthy (color e) = true) l ->
   StronglySorted byColorThenStart (sort compareEvents l))
  /\ (Forall (fun e => truthy (color e) = false) l ->
      StronglySorted byStart (sort compareEvents l)).
Proof.
  split; intros HP.
  - assert (HP' : Forall (fun e => truthy (color e) = true) (sort compareEvents l)).
    { apply Forall_forall. intros y Hy.
      apply (Permutation_in _ (Permutation_sym (SortFacts.sort_perm _ l))) in Hy.
      rewrite Forall_forall in HP. auto. }
    pose proof (SortMore.sort_sorted compareEvents
                  (fun e => truthy (color e) = true)) as S.
    specialize (S
      (fun a b Pa Pb H =>
         proj2 (SortMore.compareEvents_colored b a Pb Pa)
           (SortMore.byColorThenStart_total a b Pa Pb
              (fun K => H (proj2 (SortMore.compareEvents_colored a b Pa Pb) K))))
      (fun a b c Pa Pb Pc H1 H2 =>
         proj2 (SortMore.compareEvents_colored a c Pa Pc)
           (SortMore.byColorThenStart_trans a b c Pa Pb Pc
              (proj1 (SortMore.compareEvents_colored a b Pa Pb) H1)
              (proj1 (SortMore.compareEvents_colored b c Pb Pc) H2)))
      l HP).
    revert S HP'. generalize (sort compareEvents l). intros sl S.
    induction S as [| a sl' S IH Hall]; intros HP'; constructor.
    + apply IH. now inversion HP'.
    + inversion HP' as [| ? ? Pa Psl]; subst.
      rewrite Forall_forall in *. intros b Hb.
      exact (proj1 (SortMore.compareEvents_colored a b Pa (Psl b Hb)) (Hall b Hb)).
  - assert (HP' : Forall (fun e => truthy (color e) = false) (sort compareEvents l)).
    { apply Forall_forall. intros y Hy.
      apply (Permutation_in _ (Permutation_sym (SortFacts.sort_perm _ l))) in Hy.
      rewrite Forall_forall in HP. auto. }
    pose proof (SortMore.sort_sorted compareEvents
                  (fun e => truthy (color e) = false)) as S.
    specialize (S
      (fun a b Pa Pb H =>
         proj2 (SortMore.compareEvents_colorless b a Pb Pa)
           (Z.lt_le_incl _ _
              (proj1 (Z.nle_gt _ _)
                 (fun K => H (proj2 (SortMore.compareEvents_colorless a b Pa Pb) K)))))
      (fun a b c Pa Pb Pc H1 H2 =>
         proj2 (SortMore.compareEvents_colorless a c Pa Pc)
           (Z.le_trans _ _ _
              (proj1 (SortMore.compareEvents_colorless a b Pa Pb) H1)
              (proj1 (SortMore.compareEvents_colorless b c Pb Pc) H2)))
      l HP).
    revert S HP'. generalize (sort compareEvents l). intros sl S.
    induction S as [| a sl' S IH Hall]; intros HP'; constructor.
    + apply IH. now inversion HP'.
    + inversion HP' as [| ? ? Pa Psl]; subst.
      rewrite Forall_forall in *. intros b Hb.
      exact (proj1 (SortMore.compareEvents_colorless a b Pa (Psl b Hb)) (Hall b Hb)).
Qed.

Lemma sort_orders_uniform_lists_witness :
  let l := [ {| title := "x"; start := 5; end_ := None; color := Some "red"%string |};
             {| title := "y"; start := 9; end_ := None; color := Some "blue"%string |};
             {| title := "z"; start := 1; end_ := None; color := Some "red"%string |} ] in
  Forall (fun e => truthy (color e) = true) l
  /\ StronglySorted byColorThenStart (sort compareEvents l).
Proof.
  cbv zeta.
  assert (H : Forall (fun e => truthy (color e) = true)
                [ {| title := "x"; start := 5; end_ := None; color := Some "red"%string |};
                  {| title := "y"; start := 9; end_ := None; color := Some "blue"%string |};
                  {| title := "z"; start := 1; end_ := None; color := Some "red"%string |} ])
    by (repeat constructor).
  split; [exact H |].
  exact (proj1 (sort_orders_uniform_lists _) H).
Defined.

(** X17.  The comparator is not transitive once events with and without a
    colour are mixed: there are three events of which the first comes
    before the second, the second before the third and the third before
    the first, and no arrangement of the three is in the comparator's
    order. *)
Theorem comparator_not_transitive :
  exists a b c,
    compareEvents a b < 0 /\ compareEvents b c < 0 /\ compareEvents c a < 0
    /\ forall l, Permutation [a; b; c] l -> ~ StronglySorted notAfter l.
Proof.
  exists {| title := "a"; start := 1; end_ := None; color := Some "b"%string |},
         {| title := "b"; start := 2; end_ := None; color := None |},
         {| title := "c"; start := 3; end_ := None; color := Some "a"%string |}.
  split; [reflexivity |]. split; [reflexivity |]. split; [reflexivity |].
  intros l P S.
  destruct l as [| f tl].
  - apply Permutation_sym, Permutation_nil in P. discriminate.
  - apply StronglySorted_inv in S. destruct S as [_ Hall].
    rewrite Forall_forall in Hall.
    assert (Hin : forall x, In x [ {| title := "a"; start := 1; end_ := None;
                                      color := Some "b"%string |};
                                   {| title := "b"; start := 2; end_ := None;
                                      color := None |};
                                   {| title := "c"; start := 3; end_ := None;
                                      color := Some "a"%string |} ] ->
                            In x (f :: tl))
      by (intros x; apply Permutation_in; exact P).
    assert (Hf : In f [ {| title := "a"; start := 1; end_ := None;
                           color := Some "b"%string |};
                        {| title := "b"; start := 2; end_ := None;
                           color := None |};
                        {| title := "c"; start := 3; end_ := None;
                           color := Some "a"%string |} ])
      by (apply (Permutation_in _ (Permutation_sym P)); now left).
    destruct Hf as [<- | [<- | [<- | []]]].
    + destruct (Hin _ (or_intror (or_intror (or_introl eq_refl)))) as [E | Ht];
        [discriminate |].
      specialize (Hall _ Ht). vm_compute in Hall. now apply Hall.
    + destruct (Hin _ (or_introl eq_refl)) as [E | Ht]; [discriminate |].
      specialize (Hall _ Ht). vm_compute in Hall. now apply Hall.
    + destruct (Hin _ (or_intror (or_introl eq_refl))) as [E | Ht]; [discriminate |].
      specialize (Hall _ Ht). vm_compute in Hall. now apply Hall.
Qed.

(** ** Days *)


(** ** Matching *)

Module RegexFacts.
Import Regex.

Lemma reach_refl st : reach st st.
Proof. exists []. split; [reflexivity | cbn; lia]. Qed.

Lemma reach_trans a b c : reach a b -> reach b c -> reach a c.
Proof.
  intros (p1 & R1 & P1) (p2 & R2 & P2). exists (p1 ++ p2). split.
  - now rewrite R1, R2, app_assoc.
  - rewrite length_app. lia.
Qed.

Lemma reach_pos a b : reach a b -> (pos a <= pos b)%nat.
Proof. intros (p & _ & P). lia. Qed.

(** A match that succeeds has run its continuation, successfully, on a
    state further on in the input. *)
Lemma m_inv r : forall st k res,
  m r st k = Some res -> exists st', reach st st' /\ k st' = Some res.
Proof.
  induction r as [p | | | a IHa b IHb | a IHa b IHb | a IHa | n a IHa];
    intros st k res H; cbn [m] in H.
  - destruct (rest st) as [| c tl] eqn:E; [discriminate |].
    destruct (p c); [| discriminate].
    exists (advance st tl). split; [| exact H].
    exists [c]. cbn. split; [exact E | lia].
  - destruct (Nat.eqb (pos st) 0); [| discriminate].
    exists st. split; [apply reach_refl | exact H].
  - exists st. split; [apply reach_refl | exact H].
  - apply IHa in H. destruct H as (st1 & R1 & H).
    apply IHb in H. destruct H as (st2 & R2 & H).
    exists st2. split; [exact (reach_trans _ _ _ R1 R2) | exact H].
  - destruct (m a st k) as [res' |] eqn:E.
    + inversion H; subst. now apply IHa in E.
    + now apply IHb in H.
  - revert H. generalize (List.length (rest st)). intros n. revert st.
    induction n as [| n IHn]; intros st H.
    + exists st. split; [apply reach_refl | exact H].
    + match type of H with
      | match ?inner with _ => _ end = _ => destruct inner as [res' |] eqn:E
      end.
      * inversion H; subst. apply IHa in E. destruct E as (st1 & R1 & E).
        destruct (Nat.eqb (pos st1) (pos st)); [discriminate |].
        apply IHn in E. destruct E as (st2 & R2 & E).
        exists st2. split; [| exact E].
        exact (reach_trans _ _ _ R1 R2).
      * exists st. split; [apply reach_refl | exact H].
  - apply IHa in H. destruct H as (st1 & (pre & R & P) & H).
    eexists. split; [| exact H]. exists pre. now split.
Qed.

(** Past the start of the input, a consuming pattern runs its continuation
    strictly further on. *)
Lemma m_consuming r : forall st k res,
  consuming r = true -> (1 <= pos st)%nat ->
  m r st k = Some res ->
  exists st', reach st st' /\ (pos st < pos st')%nat /\ k st' = Some res.
Proof.
  induction r as [p | | | a IHa b IHb | a IHa b IHb | a IHa | n a IHa];
    intros st k res Hc Hpos H; cbn [m consuming] in *.
  - destruct (rest st) as [| c tl] eqn:E; [discriminate |].
    destruct (p c); [| discriminate].
    exists (advance st tl). split; [| split; [cbn; lia | exact H]].
    exists [c]. cbn. split; [exact E | lia].
  - destruct (Nat.eqb_spec (pos st) 0); [lia | discriminate].
  - discriminate.
  - destruct (consuming a) eqn:Ca.
    + apply IHa in H; [| reflexivity | exact Hpos].
      destruct H as (st1 & R1 & L1 & H).
      apply m_inv in H. destruct H as (st2 & R2 & H).
      exists st2. split; [exact (reach_trans _ _ _ R1 R2) |].
      split; [pose proof (reach_pos _ _ R2); lia | exact H].
    + apply m_inv in H. destruct H as (st1 & R1 & H).
      apply IHb in H; [| exact Hc | pose proof (reach_pos _ _ R1); lia].
      destruct H as (st2 & R2 & L2 & H).
      exists st2. split; [exact (reach_trans _ _ _ R1 R2) |].
      split; [pose proof (reach_pos _ _ R1); lia | exact H].
  - apply andb_prop in Hc. destruct Hc as [Ca Cb].
    destruct (m a st k) as [res' |] eqn:E.
    + inversion H; subst. now apply IHa in E.
    + now apply IHb in H.
  - discriminate.
  - apply IHa in H; [| exact Hc | exact Hpos].
    destruct H as (st1 & (pre & R & P) & L & H).
    eexists. split; [| split; [| exact H]]; [exists pre; now split | exact L].
Qed.

Lemma m_Grp n a st k :
  m (Grp n a) st k
  = m a st (fun st' => k (setCap n (firstn (pos st' - pos st) (rest st)) st')).
Proof. reflexivity. Qed.

Lemma m_Seq a b st k : m (Seq a b) st k = m a st (fun st' => m b st' k).
Proof. reflexivity. Qed.

Lemma m_Alt a b st k :
  m (Alt a b) st k
  = match m a st k with Some res => Some res | None => m b st k end.
Proof. reflexivity. Qed.

Lemma m_Chr p st k :
  m (Chr p) st k
  = match rest st with
    | c :: tl => if p c then k (advance st tl) else None
    | [] => None
    end.
Proof. reflexivity. Qed.

(** A repetition succeeds if what follows it succeeds where it starts. *)
Lemma star_succeeds a st k : k st <> None -> m (Star a) st k <> None.
Proof.
  intros Hk. cbn [m]. destruct (List.length (rest st)) as [| n]; [exact Hk |].
  match goal with
  | |- match ?inner with _ => _ end <> None => destruct inner
  end; [discriminate | exact Hk].
Qed.

Lemma alt_succeeds_r a b st k : m b st k <> None -> m (Alt a b) st k <> None.
Proof. intros H. cbn [m]. destruct (m a st k); [discriminate | exact H]. Qed.

(** The value part of the pattern never fails: a plain value may be
    empty. *)
Lemma value_succeeds st k :
  (forall st', k st' <> None) -> m (Alt quotedPattern plainPattern) st k <> None.
Proof.
  intros Hk. apply alt_succeeds_r. unfold plainPattern.
  rewrite m_Grp. apply star_succeeds. apply Hk.
Qed.

End RegexFacts.

(** ** CSVToArray: when the loop ends *)

Module CsvLoopFacts.
Import Regex RegexFacts.

Lemma execFrom_eq r i input :
  execFrom r i input
  = match m r {| pos := i; rest := input; caps := [] |} Some with
    | Some st => Some st
    | None =>
        match input with
        | [] => None
        | _ :: tl => execFrom r (S i) tl
        end
    end.
Proof. destruct input; reflexivity. Qed.

Lemma execFrom_bounds r : forall input i st,
  execFrom r i input = Some st ->
  (i <= pos st <= i + List.length input)%nat.
Proof.
  induction input as [| c tl IH]; intros i st H; rewrite execFrom_eq in H.
  - destruct (m r _ Some) as [st' |] eqn:E; [| discriminate].
    inversion H; subst. apply m_inv in E.
    destruct E as (st1 & (pre & R & P) & E). inversion E; subst.
    cbn in *. destruct pre; [cbn in *; lia | discriminate].
  - destruct (m r _ Some) as [st' |] eqn:E.
    + inversion H; subst. apply m_inv in E.
      destruct E as (st1 & (pre & R & P) & E). inversion E; subst.
      cbn [pos rest] in *.
      assert (L : (List.length pre <= List.length (c :: tl))%nat).
      { rewrite R, length_app. lia. }
      lia.
    + apply IH in H. cbn [List.length]. lia.
Qed.

Lemma exec_bounds r csv i st :
  exec r csv i = Some st -> (i <= pos st <= List.length csv)%nat.
Proof.
  unfold exec. destruct (Nat.ltb_spec (List.length csv) i) as [L | L];
    [discriminate |].
  intros H. apply execFrom_bounds in H. rewrite length_skipn in H. lia.
Qed.

Lemma consuming_objPattern : consuming objPattern = true.
Proof. reflexivity. Qed.

Lemma execFrom_progress : forall input i st,
  (1 <= i)%nat -> execFrom objPattern i input = Some st -> (i < pos st)%nat.
Proof.
  induction input as [| c tl IH]; intros i st Hi H; rewrite execFrom_eq in H.
  - destruct (m objPattern _ Some) as [st' |] eqn:E; [| discriminate].
    inversion H; subst.
    eapply m_consuming in E; [| reflexivity | exact Hi].
    destruct E as (st1 & _ & L & E). inversion E; subst. exact L.
  - destruct (m objPattern _ Some) as [st' |] eqn:E.
    + inversion H; subst.
      eapply m_consuming in E; [| reflexivity | exact Hi].
      destruct E as (st1 & _ & L & E). inversion E; subst. exact L.
    + apply IH in H; lia.
Qed.

(** After the first match every match moves [lastIndex] forward. *)
Lemma exec_progress csv i st :
  (1 <= i)%nat -> exec objPattern csv i = Some st -> (i < pos st)%nat.
Proof.
  unfold exec. destruct (Nat.ltb (List.length csv) i); [discriminate |].
  now apply execFrom_progress.
Qed.

(** The loop from a [lastIndex] past the start ends within as many rounds
    as there are characters left, and one more. *)
Lemma csvLoop_ends csv : forall n i front last,
  (1 <= i)%nat -> (List.length csv + 1 - i <= n)%nat ->
  exists rows, csvLoop (S n) csv i front last = Some rows.
Proof.
  induction n as [| n IH]; intros i front last Hi Hn; cbn [csvLoop].
  - destruct (exec objPattern csv i) as [st |] eqn:E.
    + pose proof (exec_bounds _ _ _ _ E). pose proof (exec_progress _ _ _ Hi E). lia.
    + now eexists.
  - destruct (exec objPattern csv i) as [st |] eqn:E.
    + pose proof (exec_bounds _ _ _ _ E). pose proof (exec_progress _ _ _ Hi E).
      cbv zeta. destruct (negb _ && negb _); apply IH; lia.
    + now eexists.
Qed.

End CsvLoopFacts.

Module StarFacts.
Import Regex RegexFacts.

Lemma m_Star a st k : m (Star a) st k = starLoop a k (List.length (rest st)) st.
Proof. reflexivity. Qed.

Lemma clearCaps_nil st : clearCaps [] st = st.
Proof.
  destruct st as [p r cs]. unfold clearCaps. cbn. f_equal.
  induction cs as [| c cs IH]; cbn; [reflexivity | now rewrite IH].
Qed.

(** A repetition of a character class steps over a character of the
    class, and gives it back if what follows fails. *)
Lemma star_chr_cons p st k c tl :
  rest st = c :: tl -> p c = true ->
  m (Star (Chr p)) st k
  = match m (Star (Chr p)) (advance st tl) k with
    | Some res => Some res
    | None => k st
    end.
Proof.
  intros Hr Hp. rewrite !m_Star. rewrite Hr. cbn [List.length starLoop groups].
  rewrite clearCaps_nil, m_Chr, Hr, Hp.
  assert (E : Nat.eqb (pos (advance st tl)) (pos st) = false)
    by (apply Nat.eqb_neq; cbn; lia).
  rewrite E. reflexivity.
Qed.

(** It stops at the end of the input and before a character that is not of
    the class. *)
Lemma star_chr_stop p st k :
  rest st = [] \/ (exists c tl, rest st = c :: tl /\ p c = false) ->
  m (Star (Chr p)) st k = k st.
Proof.
  intros [Hr | (c & tl & Hr & Hp)]; rewrite m_Star, Hr.
  - reflexivity.
  - cbn [List.length starLoop groups]. now rewrite clearCaps_nil, m_Chr, Hr, Hp.
Qed.

(** A repetition of a character class takes a whole run of characters of
    the class when what follows succeeds after the run. *)
Lemma star_chr_run p u : forall st k r,
  Forall (fun c => p c = true) u ->
  rest st = u ++ r ->
  r = [] \/ (exists c tl, r = c :: tl /\ p c = false) ->
  k {| pos := pos st + List.length u; rest := r; caps := caps st |} <> None ->
  m (Star (Chr p)) st k
  = k {| pos := pos st + List.length u; rest := r; caps := caps st |}.
Proof.
  induction u as [| c u IH]; intros st k r Hu Hr Hstop Hk.
  - cbn [app List.length] in *. rewrite Nat.add_0_r in *.
    rewrite star_chr_stop by (now rewrite Hr).
    destruct st; cbn in *; now subst.
  - inversion Hu as [| ? ? Hc Hu']; subst.
    rewrite (star_chr_cons p st k c (u ++ r) Hr Hc).
    assert (E : {| pos := pos (advance st (u ++ r)) + List.length u; rest := r;
                   caps := caps (advance st (u ++ r)) |}
                = {| pos := pos st + List.length (c :: u); rest := r;
                     caps := caps st |}).
    { cbn. f_equal. lia. }
    rewrite (IH (advance st (u ++ r)) k r Hu' eq_refl Hstop) by (now rewrite E).
    rewrite E. destruct (k _); [reflexivity | contradiction].
Qed.

End StarFacts.

Module FirstMatch.
Import Regex RegexFacts StarFacts.

Lemma isChar_refl c : isChar c c = true.
Proof. apply Ascii.eqb_refl. Qed.

Lemma isChar_neq a c : a <> c -> isChar a c = false.
Proof. intros H. now apply Ascii.eqb_neq. Qed.

Lemma isChar_true a c : isChar a c = true -> c = a.
Proof. intros H. apply Ascii.eqb_eq in H. now subst. Qed.

Lemma notQuote_spec c : isNot [dquote] c = true <-> c <> dquote.
Proof.
  unfold isNot. cbn. rewrite orb_false_r, negb_true_iff. apply Ascii.eqb_neq.
Qed.

(** The text up to the first double quote. *)
Lemma first_quote t :
  In dquote t ->
  exists u w, t = u ++ dquote :: w
              /\ Forall (fun c => isNot [dquote] c = true) u.
Proof.
  induction t as [| c t IH]; intros H; [destruct H |].
  destruct (Ascii.eqb_spec c dquote) as [-> | Hne].
  - exists [], t. split; [reflexivity | constructor].
  - destruct H as [-> | H]; [contradiction |].
    destruct (IH H) as (u & w & -> & Hu).
    exists (c :: u), w. split; [reflexivity |].
    constructor; [now apply notQuote_spec | exact Hu].
Qed.

(** An opening double quote that no double quote follows opens no quoted
    value. *)
Lemma quoted_fails st t k :
  rest st = dquote :: t -> ~ In dquote t -> m quotedPattern st k = None.
Proof.
  intros Hr Hno. destruct (m quotedPattern st k) as [res |] eqn:E; [| reflexivity].
  exfalso. unfold quotedPattern in E.
  rewrite m_Seq, m_Chr, Hr, isChar_refl, m_Seq in E.
  apply m_inv in E. destruct E as (st1 & (pre & R & _) & E).
  rewrite m_Chr in E. destruct (rest st1) as [| c tl] eqn:E1; [discriminate |].
  destruct (isChar dquote c) eqn:Ec; [| discriminate].
  apply isChar_true in Ec. subst c. apply Hno.
  cbn [rest advance] in R. rewrite R. apply in_or_app. right. now left.
Qed.

(** An opening double quote that a double quote follows opens a quoted
    value, whatever follows that succeeds. *)
Lemma quoted_succeeds st t k :
  rest st = dquote :: t -> In dquote t ->
  (forall st', k st' <> None) ->
  m quotedPattern st k <> None.
Proof.
  intros Hr Hin Hk. destruct (first_quote t Hin) as (u & w & -> & Hu).
  unfold quotedPattern.
  rewrite m_Seq, m_Chr, Hr, isChar_refl, m_Seq, m_Grp, m_Seq.
  rewrite (star_chr_run _ u (advance st (u ++ dquote :: w)) _ (dquote :: w)
             Hu eq_refl).
  - apply star_succeeds. rewrite m_Chr. cbn [rest setCap].
    rewrite isChar_refl. apply Hk.
  - right. exists dquote, w. split; [reflexivity |].
    destruct (isNot [dquote] dquote) eqn:E; [| reflexivity].
    apply notQuote_spec in E. contradiction.
  - apply star_succeeds. rewrite m_Chr. cbn [rest setCap].
    rewrite isChar_refl. apply Hk.
Qed.

(** A value never ends before it starts. *)
Lemma value_from st res :
  m (Alt quotedPattern plainPattern) st Some = Some res ->
  (pos st <= pos res)%nat.
Proof.
  intros H. apply m_inv in H. destruct H as (st' & R & E).
  inversion E; subst. now apply reach_pos.
Qed.

(** A quoted value ends after it starts. *)
Lemma quoted_from st res :
  m quotedPattern st Some = Some res -> (pos st < pos res)%nat.
Proof.
  unfold quotedPattern. rewrite m_Seq, m_Chr.
  destruct (rest st) as [| c tl]; [discriminate |].
  destruct (isChar dquote c); [| discriminate].
  intros H. apply m_inv in H. destruct H as (st' & R & E).
  inversion E; subst. apply reach_pos in R. cbn in R. lia.
Qed.

(** What group 1 does at the start of the input, by the first
    character. *)
Lemma delimiter_first c t k :
  (forall st', k st' <> None) ->
  exists st1,
    m (Grp 1 delimiterPattern) {| pos := 0; rest := c :: t; caps := [] |} k = k st1
    /\ (((c = comma \/ c = CR \/ c = LF) /\ (1 <= pos st1)%nat)
        \/ (c <> comma /\ c <> CR /\ c <> LF
            /\ pos st1 = 0%nat /\ rest st1 = c :: t
            /\ caps st1 = [(1%nat, [])])).
Proof.
  intros Hk.
  assert (Pick : forall st1 (rem : option mstate),
             match k st1 with Some res => Some res | None => rem end = k st1).
  { intros st1 rem. specialize (Hk st1). destruct (k st1); [reflexivity | contradiction]. }
  unfold delimiterPattern, Opt.
  destruct (Ascii.eqb_spec c comma) as [-> | Hcomma].
  - eexists. split; [| left].
    + rewrite m_Grp, m_Alt, m_Chr. cbn [rest]. rewrite isChar_refl. rewrite !Pick. reflexivity.
    + split; [auto | cbn; lia].
  - destruct (Ascii.eqb_spec c LF) as [-> | HLF].
    + eexists. split; [| left].
      * rewrite m_Grp, m_Alt, m_Chr. cbn [rest].
        rewrite (isChar_neq comma LF) by discriminate.
        rewrite m_Alt, m_Seq, m_Alt, m_Chr. cbn [rest].
        rewrite (isChar_neq CR LF) by discriminate.
        cbn [m rest]. rewrite isChar_refl. rewrite !Pick. reflexivity.
      * split; [auto | cbn; lia].
    + destruct (Ascii.eqb_spec c CR) as [-> | HCR].
      * destruct t as [| c2 t2];
          [| destruct (Ascii.eqb_spec c2 LF) as [-> | H2]].
        -- eexists. split; [| left].
           ++ rewrite m_Grp, m_Alt, m_Chr. cbn [rest].
              rewrite (isChar_neq comma CR) by discriminate.
              rewrite m_Alt, m_Seq, m_Alt, m_Chr. cbn [rest].
              rewrite isChar_refl. rewrite m_Chr. cbn [rest advance].
              cbn [m rest]. rewrite (isChar_neq LF CR) by discriminate.
              rewrite isChar_refl. rewrite !Pick. reflexivity.
           ++ split; [auto | cbn; lia].
        -- eexists. split; [| left].
           ++ rewrite m_Grp, m_Alt, m_Chr. cbn [rest].
              rewrite (isChar_neq comma CR) by discriminate.
              rewrite m_Alt, m_Seq, m_Alt, m_Chr. cbn [rest].
              rewrite isChar_refl. rewrite m_Chr. cbn [rest advance].
              rewrite isChar_refl. rewrite !Pick. reflexivity.
           ++ split; [auto | cbn; lia].
        -- eexists. split; [| left].
           ++ rewrite m_Grp, m_Alt, m_Chr. cbn [rest].
              rewrite (isChar_neq comma CR) by discriminate.
              rewrite m_Alt, m_Seq, m_Alt, m_Chr. cbn [rest].
              rewrite isChar_refl. rewrite m_Chr. cbn [rest advance].
              rewrite (isChar_neq LF c2) by congruence.
              cbn [m rest]. rewrite (isChar_neq LF CR) by discriminate.
              rewrite isChar_refl. rewrite !Pick. reflexivity.
           ++ split; [auto | cbn; lia].
      * eexists. split; [| right].
        -- rewrite m_Grp, m_Alt, m_Chr. cbn [rest].
           rewrite (isChar_neq comma c) by congruence.
           rewrite m_Alt, m_Seq, m_Alt, m_Chr. cbn [rest].
           rewrite (isChar_neq CR c) by congruence.
           cbn [m rest]. rewrite (isChar_neq LF c) by congruence.
           rewrite (isChar_neq CR c) by congruence.
           cbn [pos Nat.eqb]. reflexivity.
        -- repeat split; try assumption; reflexivity.
Qed.

End FirstMatch.

Module CsvEnds.
Import Regex RegexFacts StarFacts FirstMatch CsvLoopFacts.

Lemma plain_of_quote : isNot [dquote; comma; CR; LF] dquote = false.
Proof. reflexivity. Qed.

Lemma value_total st' : m (Alt quotedPattern plainPattern) st' Some <> None.
Proof. apply value_succeeds. discriminate. Qed.

(** On a stuck input the first match is empty. *)
Lemma first_match_stuck csv :
  stuck csv ->
  exists st,
    m objPattern {| pos := 0; rest := csv; caps := [] |} Some = Some st
    /\ pos st = 0%nat.
Proof.
  intros [-> | (t & -> & Hno)].
  - eexists. split; [vm_compute; reflexivity | reflexivity].
  - unfold objPattern. rewrite m_Seq.
    destruct (delimiter_first dquote t
                (fun st' => m (Alt quotedPattern plainPattern) st' Some) value_total)
      as (st1 & E & [[[C | [C | C]] _] | (_ & _ & _ & P1 & R1 & _)]);
      try discriminate.
    rewrite E, m_Alt, (quoted_fails st1 t Some R1 Hno).
    unfold plainPattern. rewrite m_Grp, star_chr_stop.
    + eexists. split; [reflexivity | exact P1].
    + right. exists dquote, t. split; [exact R1 | apply plain_of_quote].
Qed.

(** On any other input the first match is not empty. *)
Lemma first_match_progress c t st :
  ~ stuck (c :: t) ->
  m objPattern {| pos := 0; rest := c :: t; caps := [] |} Some = Some st ->
  (1 <= pos st)%nat.
Proof.
  intros Hns. unfold objPattern. rewrite m_Seq.
  destruct (delimiter_first c t
              (fun st' => m (Alt quotedPattern plainPattern) st' Some) value_total)
    as (st1 & E & [[_ P1] | (Hc1 & Hc2 & Hc3 & P1 & R1 & _)]); rewrite E; intros H.
  - apply value_from in H. lia.
  - rewrite m_Alt in H.
    destruct (m quotedPattern st1 Some) as [res |] eqn:Q.
    + inversion H; subst. apply quoted_from in Q. lia.
    + destruct (Ascii.eqb_spec c dquote) as [-> | Hq].
      * exfalso. apply (quoted_succeeds st1 t Some R1); [| discriminate | exact Q].
        destruct (in_dec Ascii.ascii_dec dquote t) as [Hin | Hno]; [exact Hin |].
        exfalso. apply Hns. right. now exists t.
      * unfold plainPattern in H. rewrite m_Grp in H.
        rewrite (star_chr_cons _ st1 _ c t R1) in H.
        -- match type of H with
           | match ?inner with _ => _ end = _ => destruct inner as [res |] eqn:I
           end.
           ++ inversion H; subst. apply m_inv in I.
              destruct I as (st2 & R & I). inversion I; subst.
              apply reach_pos in R. cbn in *. lia.
           ++ exfalso. revert I. apply star_succeeds. discriminate.
        -- unfold isNot. cbn [existsb].
           rewrite (proj2 (Ascii.eqb_neq c dquote) Hq),
                   (proj2 (Ascii.eqb_neq c comma) Hc1),
                   (proj2 (Ascii.eqb_neq c CR) Hc2),
                   (proj2 (Ascii.eqb_neq c LF) Hc3).
           reflexivity.
Qed.

Lemma exec_start csv :
  exec objPattern csv 0 = execFrom objPattern 0 csv.
Proof. reflexivity. Qed.

Lemma csvLoop_stuck csv :
  stuck csv -> forall fuel front last, csvLoop fuel csv 0 front last = None.
Proof.
  intros Hs. destruct (first_match_stuck csv Hs) as (st & E & P).
  assert (X : exec objPattern csv 0 = Some st).
  { rewrite exec_start, execFrom_eq, E. reflexivity. }
  induction fuel as [| fuel IH]; intros front last; cbn [csvLoop]; [reflexivity |].
  rewrite X. cbv zeta. rewrite P. destruct (negb _ && negb _); apply IH.
Qed.

Lemma csvLoop_not_stuck csv :
  ~ stuck csv ->
  exists rows, csvLoop (S (S (List.length csv + 1))) csv 0 [] [] = Some rows.
Proof.
  intros Hns. cbn [csvLoop].
  destruct (exec objPattern csv 0) as [st |] eqn:E; [| now eexists].
  assert (P : (1 <= pos st)%nat).
  { rewrite exec_start, execFrom_eq in E.
    destruct csv as [| c t]; [exfalso; apply Hns; now left |].
    destruct (m objPattern _ Some) as [st' |] eqn:M.
    - inversion E; subst. exact (first_match_progress c t st Hns M).
    - apply execFrom_bounds in E. lia. }
  cbv zeta. destruct (negb _ && negb _); apply csvLoop_ends; lia.
Qed.

End CsvEnds.

(** X20.  CSVToArray never returns on the empty text, nor on a text that
    starts with a double quote and holds no other double quote: the first
    match is empty, [lastIndex] stays 0, and the loop goes on for ever,
    however much fuel it is given. *)
Theorem CSVToArray_never_returns (csv : string) :
  stuck (list_ascii_of_string csv) ->
  forall fuel, CSVToArray fuel csv = None.
Proof.
  intros Hs fuel. unfold CSVToArray. now apply CsvEnds.csvLoop_stuck.
Qed.

Lemma CSVToArray_never_returns_witness :
  stuck (list_ascii_of_string "")
  /\ forall fuel, CSVToArray fuel "" = None.
Proof.
  assert (H : stuck (list_ascii_of_string "")) by (now left).
  split; [exact H | exact (CSVToArray_never_returns "" H)].
Defined.

(** X21.  On every other text CSVToArray returns: after a first match that
    is not empty every match moves [lastIndex] forward, so the loop ends
    within as many rounds as the text has characters, and three more. *)
Theorem CSVToArray_returns (csv : string) :
  ~ stuck (list_ascii_of_string csv) ->
  exists rows, CSVToArray (String.length csv + 3) csv = Some rows.
Proof.
  intros Hns. unfold CSVToArray.
  destruct (CsvEnds.csvLoop_not_stuck _ Hns) as (rows & E).
  exists rows. rewrite <- E. f_equal.
  rewrite <- (string_of_list_ascii_of_string csv) at 1.
  generalize (list_ascii_of_string csv). intros l.
  induction l as [| c l IH]; cbn; [reflexivity |]. cbn in IH. lia.
Qed.

Lemma CSVToArray_returns_witness :
  ~ stuck (list_ascii_of_string "a,b")
  /\ exists rows, CSVToArray (String.length "a,b" + 3) "a,b" = Some rows.
Proof.
  assert (H : ~ stuck (list_ascii_of_string "a,b")).
  { intros [H | (t & H & _)]; discriminate. }
  split; [exact H | exact (CSVToArray_returns "a,b" H)].
Defined.

(** ** CSVToArray: what it returns *)

Module CsvRows.

Lemma filled_result front last :
  filled front last ->
  front ++ [last] <> [] /\ Forall (fun row => row <> []) (tl (front ++ [last])).
Proof.
  intros H. split; [now destruct front |].
  destruct H as [-> | [HF HL]]; [constructor |].
  destruct front as [| r front]; cbn in *.
  - constructor.
  - apply Forall_app. split; [exact HF |]. constructor; [exact HL | constructor].
Qed.

Lemma csvLoop_filled csv : forall fuel i front last rows,
  filled front last ->
  csvLoop fuel csv i front last = Some rows ->
  rows <> [] /\ Forall (fun row => row <> []) (tl rows).
Proof.
  induction fuel as [| fuel IH]; intros i front last rows HF H;
    cbn [csvLoop] in H; [discriminate |].
  destruct (Regex.exec objPattern csv i) as [st |].
  - cbv zeta in H. destruct (negb _ && negb _).
    + refine (IH _ _ _ _ _ H). right. split; [| discriminate].
      destruct HF as [-> | [HF HL]]; [constructor |].
      destruct front as [| r front]; cbn in *; [constructor |].
      apply Forall_app. split; [exact HF |]. constructor; [exact HL | constructor].
    + refine (IH _ _ _ _ _ H).
      destruct HF as [-> | [HF HL]]; [now left | right].
      split; [exact HF | now destruct last].
  - inversion H; subst. now apply filled_result.
Qed.

End CsvRows.

(** X22.  Whatever CSVToArray returns has at least one row, and every row
    after the first holds at least one value. *)
Theorem CSVToArray_rows (fuel : nat) (csv : string) (rows : list Row) :
  CSVToArray fuel csv = Some rows ->
  rows <> [] /\ Forall (fun row => row <> []) (tl rows).
Proof.
  unfold CSVToArray. apply CsvRows.csvLoop_filled. now left.
Qed.

Lemma CSVToArray_rows_witness :
  exists rows,
    CSVToArray 9 "a,b" = Some rows
    /\ rows <> [] /\ Forall (fun row => row <> []) (tl rows).
Proof.
  eexists. split; [vm_compute; reflexivity |].
  apply (CSVToArray_rows 9 "a,b"). vm_compute; reflexivity.
Defined.

Module CsvCells.
Import Regex RegexFacts StarFacts FirstMatch CsvLoopFacts.

Lemma firstn_app_exact (A : Type) (l1 l2 : list A) :
  firstn (List.length l1) (l1 ++ l2) = l1.
Proof. induction l1 as [| a l1 IH]; cbn; [reflexivity | now rewrite IH]. Qed.

Lemma skipn_app_exact (A : Type) (l1 l2 : list A) :
  skipn (List.length l1) (l1 ++ l2) = l2.
Proof. induction l1 as [| a l1 IH]; cbn; [reflexivity | exact IH]. Qed.

Lemma plain_not c : isNot [dquote; comma; CR; LF] c = true ->
  c <> dquote /\ c <> comma /\ c <> CR /\ c <> LF.
Proof.
  unfold isNot. cbn [existsb]. rewrite negb_true_iff, !orb_false_iff.
  intros (H1 & H2 & H3 & H4 & _).
  repeat split; now apply Ascii.eqb_neq.
Qed.

(** Where a field ends no character of a plain field comes next, and no
    double quote. *)
Lemma fieldEnd_stop more :
  fieldEnd more ->
  more = [] \/ (exists c tl, more = c :: tl
                             /\ isNot [dquote; comma; CR; LF] c = false).
Proof.
  intros [-> | (tl & [-> | [-> | ->]])]; [now left | right | right | right].
  - exists comma, tl. now split.
  - exists LF, tl. now split.
  - exists CR, (LF :: tl). now split.
Qed.

Lemma fieldEnd_noquote more :
  fieldEnd more ->
  more = [] \/ (exists c tl, more = c :: tl /\ isChar dquote c = false).
Proof.
  intros [-> | (tl & [-> | [-> | ->]])]; [now left | right | right | right].
  - exists comma, tl. now split.
  - exists LF, tl. now split.
  - exists CR, (LF :: tl). now split.
Qed.

(** ** Quoting *)

Lemma unescape_escape body : unescape (escape body) = body.
Proof.
  induction body as [| c body IH]; [reflexivity |].
  cbn [escape]. destruct (isChar dquote c) eqn:E.
  - apply isChar_true in E. subst c. cbn [unescape].
    rewrite isChar_refl. cbn [andb]. now rewrite IH.
  - cbn [unescape]. destruct (escape body) as [| b tl] eqn:Eb.
    + destruct body as [| b' body']; [reflexivity |].
      cbn [escape] in Eb. destruct (isChar dquote b'); discriminate.
    + rewrite E. cbn [andb]. now rewrite IH.
Qed.

Lemma escape_nil body : escape body = [] -> body = [].
Proof.
  destruct body as [| c body]; [reflexivity |].
  cbn [escape]. destruct (isChar dquote c); discriminate.
Qed.

(** A text with its double quotes doubled is a run without double quote
    and then runs without double quote that two double quotes
    precede. *)
Lemma escape_runs body :
  exists u0 us,
    escape body = u0 ++ doubled us
    /\ Forall (fun c => isNot [dquote] c = true) u0
    /\ Forall (Forall (fun c => isNot [dquote] c = true)) us.
Proof.
  induction body as [| c body (u0 & us & E & H0 & Hus)].
  - exists [], []. repeat split; constructor.
  - cbn [escape]. destruct (isChar dquote c) eqn:Ec.
    + exists [], (u0 :: us). rewrite E. repeat split;
        [constructor | constructor; assumption].
    + exists (c :: u0), us. rewrite E. repeat split; [| exact Hus].
      constructor; [| exact H0]. apply notQuote_spec. intros ->.
      now rewrite isChar_refl in Ec.
Qed.

Lemma doubled_length us : (List.length us <= List.length (doubled us))%nat.
Proof.
  induction us as [| u us IH]; cbn [doubled List.length]; [lia |].
  rewrite length_app. lia.
Qed.

Lemma notQuote_quote : isNot [dquote] dquote = false.
Proof. reflexivity. Qed.

(** The repeated part of a quoted value takes the runs up to the closing
    double quote. *)
Lemma escapedRuns_loop k tail us : forall st n,
  rest st = doubled us ++ dquote :: tail ->
  Forall (Forall (fun c => isNot [dquote] c = true)) us ->
  tail = [] \/ (exists c tl, tail = c :: tl /\ isChar dquote c = false) ->
  (List.length us <= n)%nat ->
  k {| pos := pos st + List.length (doubled us); rest := dquote :: tail;
       caps := caps st |} <> None ->
  starLoop escapedRun k n st
  = k {| pos := pos st + List.length (doubled us); rest := dquote :: tail;
         caps := caps st |}.
Proof.
  induction us as [| u us IH]; intros st n Hr Hus Ht Hn Hk.
  - cbn [doubled app List.length] in *. rewrite Nat.add_0_r in *.
    assert (E : {| pos := pos st; rest := dquote :: tail; caps := caps st |} = st).
    { destruct st; cbn in *; now subst. }
    rewrite E. destruct n as [| n]; [reflexivity |].
    cbn [starLoop]. unfold escapedRun at 1 2. cbn [groups app].
    rewrite clearCaps_nil, m_Seq, m_Chr, Hr, isChar_refl, m_Seq, m_Chr.
    cbn [rest advance].
    destruct Ht as [-> | (c & tl & -> & Hc)]; [reflexivity | now rewrite Hc].
  - apply Forall_cons_iff in Hus. destruct Hus as [Hu Hus].
    destruct n as [| n]; [cbn in Hn; lia |].
    cbn [doubled app] in Hr. rewrite <- app_assoc in Hr.
    cbn [starLoop]. unfold escapedRun at 1 2. cbn [groups app].
    rewrite clearCaps_nil, m_Seq, m_Chr, Hr, isChar_refl, m_Seq, m_Chr.
    cbn [rest advance]. rewrite isChar_refl.
    set (st2 := {| pos := S (S (pos st));
                   rest := u ++ doubled us ++ dquote :: tail;
                   caps := caps st |}).
    set (st3 := {| pos := pos st2 + List.length u;
                   rest := doubled us ++ dquote :: tail;
                   caps := caps st2 |}).
    assert (Efin : {| pos := pos st3 + List.length (doubled us);
                      rest := dquote :: tail; caps := caps st3 |}
                   = {| pos := pos st + List.length (doubled (u :: us));
                        rest := dquote :: tail; caps := caps st |}).
    { cbn [doubled List.length pos caps st2 st3]. rewrite length_app.
      f_equal. unfold st3, st2. cbn [pos]. lia. }
    assert (Eloop : starLoop escapedRun k n st3
                    = k {| pos := pos st + List.length (doubled (u :: us));
                           rest := dquote :: tail; caps := caps st |}).
    { rewrite <- Efin. apply IH; [reflexivity | exact Hus | exact Ht | | ].
      - cbn [List.length] in Hn. lia.
      - now rewrite Efin. }
    assert (Epos : Nat.eqb (pos st3) (pos st) = false).
    { apply Nat.eqb_neq. unfold st3, st2. cbn [pos]. lia. }
    rewrite (star_chr_run (isNot [dquote]) u st2 _
               (doubled us ++ dquote :: tail) Hu eq_refl).
    + fold st3. rewrite Epos. fold escapedRun. rewrite Eloop.
      destruct (k _); [reflexivity | contradiction].
    + right. destruct us as [| u' us']; cbn [doubled app]; eauto using notQuote_quote.
    + fold st3. rewrite Epos. fold escapedRun. now rewrite Eloop.
Qed.

(** ** Values *)

(** No quoted value starts where a plain field or its end starts. *)
Lemma quoted_fails_plain st f more k :
  rest st = f ++ more -> plain f -> fieldEnd more ->
  m quotedPattern st k = None.
Proof.
  intros Hr Hf He. unfold quotedPattern. rewrite m_Seq, m_Chr, Hr.
  destruct f as [| c f]; cbn [app].
  - destruct He as [-> | (tl & [-> | [-> | ->]])]; reflexivity.
  - inversion Hf as [| ? ? Hc _]; subst. apply plain_not in Hc.
    now rewrite (isChar_neq dquote c) by (intros E; symmetry in E; tauto).
Qed.

(** The value matched where a plain field starts is that field, in
    group 3. *)
Lemma value_plain st f more :
  rest st = f ++ more -> plain f -> fieldEnd more ->
  m (Alt quotedPattern plainPattern) st Some
  = Some {| pos := pos st + List.length f; rest := more;
            caps := (3%nat, f) :: caps st |}.
Proof.
  intros Hr Hf He.
  rewrite m_Alt, (quoted_fails_plain st f more Some Hr Hf He).
  unfold plainPattern. rewrite m_Grp.
  rewrite (star_chr_run _ f st _ more Hf Hr (fieldEnd_stop more He))
    by discriminate.
  unfold setCap. cbn [pos rest caps].
  replace (pos st + List.length f - pos st)%nat with (List.length f)
    by lia.
  now rewrite Hr, firstn_app_exact.
Qed.

(** The value matched where a quoted field starts is the text between its
    double quotes, in group 2. *)
Lemma value_quoted st body more :
  rest st = cellText (QuotedCell body) ++ more -> fieldEnd more ->
  m (Alt quotedPattern plainPattern) st Some
  = Some {| pos := pos st + List.length (cellText (QuotedCell body));
            rest := more; caps := (2%nat, escape body) :: caps st |}.
Proof.
  intros Hr He. cbn [cellText app] in Hr. rewrite <- app_assoc in Hr.
  cbn [app] in Hr.
  destruct (escape_runs body) as (u0 & us & E & H0 & Hus).
  set (st1 := advance st (escape body ++ dquote :: more)).
  set (fin := {| pos := pos st1 + List.length (escape body);
                 rest := dquote :: more; caps := caps st1 |}).
  set (K := fun st' : mstate =>
              m (Chr (isChar dquote))
                (setCap 2 (firstn (pos st' - pos st1) (rest st1)) st') Some).
  assert (EK : K fin
               = Some {| pos := pos st + List.length (cellText (QuotedCell body));
                         rest := more; caps := (2%nat, escape body) :: caps st |}).
  { assert (D : (pos fin - pos st1)%nat = List.length (escape body))
      by (unfold fin; cbn [pos]; lia).
    unfold K. rewrite D.
    change (rest st1) with (escape body ++ dquote :: more).
    rewrite firstn_app_exact, m_Chr. unfold setCap, advance, fin, st1.
    cbn [pos rest caps]. rewrite isChar_refl. f_equal. f_equal.
    cbn [cellText List.length]. rewrite length_app. cbn [List.length advance pos]. lia. }
  assert (Efin : forall st2,
             pos st2 = (pos st1 + List.length u0)%nat -> caps st2 = caps st1 ->
             {| pos := pos st2 + List.length (doubled us);
                rest := dquote :: more; caps := caps st2 |} = fin).
  { intros st2 P C. unfold fin. rewrite P, C, E, length_app. f_equal. lia. }
  set (st2 := {| pos := pos st1 + List.length u0;
                 rest := doubled us ++ dquote :: more; caps := caps st1 |}).
  assert (Eloop : m (Star escapedRun) st2 K = K fin).
  { rewrite m_Star, <- (Efin st2 eq_refl eq_refl).
    apply escapedRuns_loop;
      [reflexivity | exact Hus | exact (fieldEnd_noquote more He) | |].
    - unfold st2. cbn [rest]. rewrite length_app.
      pose proof (doubled_length us). lia.
    - rewrite (Efin st2 eq_refl eq_refl), EK. discriminate. }
  rewrite m_Alt. unfold quotedPattern.
  rewrite m_Seq, m_Chr, Hr, isChar_refl, m_Seq, m_Grp, m_Seq.
  fold st1. fold escapedRun. fold K.
  rewrite (star_chr_run (isNot [dquote]) u0 st1 _
             (doubled us ++ dquote :: more) H0).
  - fold st2. now rewrite Eloop, EK.
  - unfold st1. cbn [rest advance]. now rewrite E, <- app_assoc.
  - right. destruct us as [| u' us']; cbn [doubled app]; eauto using notQuote_quote.
  - fold st2. rewrite Eloop, EK. discriminate.
Qed.

(** The value matched where a field starts, and the group that holds
    it. *)
Lemma value_cell st c more :
  rest st = cellText c ++ more -> wellFormed c -> fieldEnd more ->
  exists cap,
    m (Alt quotedPattern plainPattern) st Some
    = Some {| pos := pos st + List.length (cellText c); rest := more;
              caps := cap :: caps st |}
    /\ ((exists f, c = PlainCell f /\ cap = (3%nat, f))
        \/ (exists body, c = QuotedCell body /\ cap = (2%nat, escape body))).
Proof.
  intros Hr Hc He. destruct c as [f | body].
  - exists (3%nat, f). split; [exact (value_plain st f more Hr Hc He) |].
    left. eauto.
  - exists (2%nat, escape body). split; [exact (value_quoted st body more Hr He) |].
    right. eauto.
Qed.

(** What the loop pushes for the captures of a field. *)
Lemma pushed_value c cap d :
  (exists f, c = PlainCell f /\ cap = (3%nat, f))
  \/ (exists body, c = QuotedCell body /\ cap = (2%nat, escape body)) ->
  match getCap 2 [cap; (1%nat, d)] with
  | Some (a :: text) => Some (string_of_list_ascii (unescape (a :: text)))
  | _ => option_map string_of_list_ascii (getCap 3 [cap; (1%nat, d)])
  end = cellValue c.
Proof.
  intros [(f & -> & ->) | (body & -> & ->)]; cbn [getCap Nat.eqb].
  - reflexivity.
  - destruct (escape body) as [| a text] eqn:E.
    + apply escape_nil in E. now subst.
    + rewrite <- E, unescape_escape. destruct body; [discriminate | reflexivity].
Qed.

(** The delimiter that the loop reads beside the captures of a field. *)
Lemma read_delimiter c cap d :
  (exists f, c = PlainCell f /\ cap = (3%nat, f))
  \/ (exists body, c = QuotedCell body /\ cap = (2%nat, escape body)) ->
  getCap 1 [cap; (1%nat, d)] = Some d.
Proof. intros [(f & _ & ->) | (body & _ & ->)]; reflexivity. Qed.

(** ** Rounds of the loop *)

(** Group 1 on a comma and on a line end. *)
Lemma delimiter_sep st sep r k :
  rest st = sep ++ r -> sep = [comma] \/ lineEnd sep ->
  (forall st', k st' <> None) ->
  m (Grp 1 delimiterPattern) st k
  = k {| pos := pos st + List.length sep; rest := r;
         caps := (1%nat, sep) :: caps st |}.
Proof.
  intros Hr Hsep Hk.
  assert (Pick : forall st1 (rem : option mstate),
             match k st1 with Some res => Some res | None => rem end = k st1).
  { intros st1 rem. specialize (Hk st1). destruct (k st1); [reflexivity | contradiction]. }
  assert (One : forall a tl,
             rest st = a :: tl ->
             setCap 1 (firstn (pos (advance st tl) - pos st) (rest st))
               (advance st tl)
             = {| pos := pos st + 1; rest := tl;
                  caps := (1%nat, [a]) :: caps st |}).
  { intros a tl R. unfold setCap, advance. cbn [pos rest caps].
    replace (S (pos st) - pos st)%nat with 1%nat by lia. rewrite R.
    cbn [firstn]. f_equal. lia. }
  unfold delimiterPattern, Opt. rewrite m_Grp.
  destruct Hsep as [-> | [-> | ->]]; cbn [app List.length] in *.
  - rewrite m_Alt, m_Chr, Hr, isChar_refl, Pick, <- Hr.
    now rewrite (One comma r Hr).
  - rewrite m_Alt, m_Chr, Hr. rewrite (isChar_neq comma LF) by discriminate.
    rewrite m_Alt, m_Seq, m_Alt, m_Chr, Hr.
    rewrite (isChar_neq CR LF) by discriminate.
    cbn [m]. rewrite Hr, isChar_refl, !Pick, <- Hr.
    now rewrite (One LF r Hr).
  - rewrite m_Alt, m_Chr, Hr. rewrite (isChar_neq comma CR) by discriminate.
    rewrite m_Alt, m_Seq, m_Alt, m_Chr, Hr, isChar_refl, m_Chr.
    cbn [rest advance]. rewrite isChar_refl, !Pick.
    unfold setCap, advance. cbn [pos rest caps].
    replace (S (S (pos st)) - pos st)%nat with 2%nat by lia.
    cbn [firstn]. do 2 f_equal. lia.
Qed.

Lemma exec_at csv done tail :
  csv = done ++ tail ->
  exec objPattern csv (List.length done)
  = execFrom objPattern (List.length done) tail.
Proof.
  intros ->. unfold exec.
  destruct (Nat.ltb_spec (List.length (done ++ tail)) (List.length done)) as [L | L].
  - rewrite length_app in L. lia.
  - now rewrite skipn_app_exact.
Qed.

(** The match on a separator and the field after it. *)
Lemma exec_token csv done sep c more :
  csv = done ++ sep ++ cellText c ++ more ->
  sep = [comma] \/ lineEnd sep -> wellFormed c -> fieldEnd more ->
  exists cap,
    exec objPattern csv (List.length done)
    = Some {| pos := List.length (done ++ sep ++ cellText c); rest := more;
              caps := [cap; (1%nat, sep)] |}
    /\ ((exists f, c = PlainCell f /\ cap = (3%nat, f))
        \/ (exists body, c = QuotedCell body /\ cap = (2%nat, escape body))).
Proof.
  intros Hcsv Hsep Hc He.
  rewrite (exec_at csv done _ Hcsv), execFrom_eq.
  unfold objPattern. rewrite m_Seq.
  rewrite (delimiter_sep
             {| pos := List.length done; rest := sep ++ cellText c ++ more;
                caps := [] |}
             sep (cellText c ++ more) _ eq_refl Hsep CsvEnds.value_total).
  destruct (value_cell
              {| pos := List.length done + List.length sep;
                 rest := cellText c ++ more; caps := [(1%nat, sep)] |}
              c more eq_refl Hc He) as (cap & E & Hcap).
  cbn [pos caps]. cbn [pos caps] in E. rewrite E.
  exists cap. split; [| exact Hcap].
  rewrite !length_app. do 2 f_equal. lia.
Qed.

(** One round of the loop on a comma and the field after it. *)
Lemma comma_step csv done c more n front last :
  csv = done ++ comma :: cellText c ++ more ->
  wellFormed c -> fieldEnd more ->
  csvLoop (S n) csv (List.length done) front last
  = csvLoop n csv (List.length (done ++ comma :: cellText c))
      front (last ++ [cellValue c]).
Proof.
  intros Hcsv Hc He.
  destruct (exec_token csv done [comma] c more Hcsv (or_introl eq_refl) Hc He)
    as (cap & E & Hcap).
  cbn [csvLoop]. rewrite E. cbv zeta. cbn [pos caps].
  rewrite (pushed_value c cap [comma] Hcap), (read_delimiter c cap [comma] Hcap).
  reflexivity.
Qed.

(** One round of the loop on a line end and the field after it. *)
Lemma eol_step csv done eol c more n front last :
  csv = done ++ eol ++ cellText c ++ more ->
  lineEnd eol -> wellFormed c -> fieldEnd more ->
  csvLoop (S n) csv (List.length done) front last
  = csvLoop n csv (List.length (done ++ eol ++ cellText c))
      (front ++ [last]) [cellValue c].
Proof.
  intros Hcsv Heol Hc He.
  destruct (exec_token csv done eol c more Hcsv (or_intror Heol) Hc He)
    as (cap & E & Hcap).
  cbn [csvLoop]. rewrite E. cbv zeta. cbn [pos caps].
  rewrite (pushed_value c cap eol Hcap), (read_delimiter c cap eol Hcap).
  destruct Heol as [-> | ->]; reflexivity.
Qed.

Lemma cellText_head c a tl :
  cellText c = a :: tl -> wellFormed c -> a <> comma /\ a <> CR /\ a <> LF.
Proof.
  destruct c as [f | body]; cbn [cellText wellFormed]; intros E Hc.
  - subst f. inversion Hc as [| ? ? Ha _]; subst. apply plain_not in Ha. tauto.
  - inversion E; subst. repeat split; discriminate.
Qed.

(** The first round, on a text that starts with a field whose text is not
    empty. *)
Lemma first_step csv c more n :
  csv = cellText c ++ more -> cellText c <> [] -> wellFormed c ->
  fieldEnd more ->
  csvLoop (S n) csv 0 [] [] = csvLoop n csv (List.length (cellText c)) [] [cellValue c].
Proof.
  intros Hcsv Hne Hc He. cbn [csvLoop].
  rewrite CsvEnds.exec_start, execFrom_eq.
  destruct (cellText c) as [| a tl] eqn:Ec; [contradiction |].
  destruct (cellText_head c a tl Ec Hc) as (Ha1 & Ha2 & Ha3).
  unfold objPattern. rewrite m_Seq. subst csv. cbn [app].
  destruct (delimiter_first a (tl ++ more)
              (fun st' => m (Alt quotedPattern plainPattern) st' Some)
              CsvEnds.value_total)
    as (st1 & E & [[[C | [C | C]] _] | (_ & _ & _ & P1 & R1 & C1)]);
    try contradiction.
  rewrite E.
  assert (R1' : rest st1 = cellText c ++ more) by (now rewrite Ec).
  destruct (value_cell st1 c more R1' Hc He) as (cap & Ev & Hcap).
  rewrite Ev. cbv zeta. cbn [pos caps]. rewrite C1, P1, Ec.
  rewrite (pushed_value c cap [] Hcap), (read_delimiter c cap [] Hcap).
  reflexivity.
Qed.

Lemma moreLines_start eol rows :
  lineEnd eol ->
  moreLines eol rows = []
  \/ (exists tl, moreLines eol rows = LF :: tl
                 \/ moreLines eol rows = CR :: LF :: tl).
Proof.
  intros Heol. destruct rows as [| row rows]; [now left | right].
  cbn [moreLines]. destruct Heol as [-> | ->]; cbn [app]; eauto.
Qed.

Lemma moreFields_end cs tail :
  tail = [] \/ (exists tl, tail = LF :: tl \/ tail = CR :: LF :: tl) ->
  fieldEnd (moreFields cs ++ tail).
Proof.
  intros Ht. destruct cs as [| c cs]; cbn [moreFields app].
  - destruct Ht as [-> | (tl & [-> | ->])]; [now left | right | right]; eauto.
  - right. eauto.
Qed.

(** The rounds over the further fields of a line. *)
Lemma fields_loop csv cs : forall done tail front last n,
  csv = done ++ moreFields cs ++ tail ->
  Forall wellFormed cs ->
  tail = [] \/ (exists tl, tail = LF :: tl \/ tail = CR :: LF :: tl) ->
  csvLoop (List.length cs + n) csv (List.length done) front last
  = csvLoop n csv (List.length (done ++ moreFields cs)) front
      (last ++ map cellValue cs).
Proof.
  induction cs as [| c cs IH]; intros done tail front last n Hcsv Hcs Ht.
  - cbn. now rewrite !app_nil_r.
  - apply Forall_cons_iff in Hcs. destruct Hcs as [Hc Hcs'].
    cbn [moreFields app] in Hcsv. rewrite <- app_assoc in Hcsv.
    cbn [List.length Nat.add moreFields map].
    rewrite (comma_step csv done c (moreFields cs ++ tail) _ front last
               Hcsv Hc (moreFields_end cs tail Ht)).
    rewrite (IH (done ++ comma :: cellText c) tail front
               (last ++ [cellValue c]) n).
    + rewrite <- !app_assoc. reflexivity.
    + rewrite Hcsv, <- !app_assoc. reflexivity.
    + exact Hcs'.
    + exact Ht.
Qed.

(** At the end of a text that is not empty the pattern matches no more. *)
Lemma exec_end csv :
  csv <> [] -> exec objPattern csv (List.length csv) = None.
Proof.
  intros Hne. destruct (exec objPattern csv (List.length csv)) as [st |] eqn:E;
    [| reflexivity].
  assert (L : (1 <= List.length csv)%nat).
  { destruct csv; [contradiction | cbn; lia]. }
  pose proof (exec_bounds _ _ _ _ E). pose proof (exec_progress _ _ _ L E). lia.
Qed.

(** The rounds over the further lines of a text, to the end of the loop. *)
Lemma lines_loop csv eol rows : forall done front last n,
  csv = done ++ moreLines eol rows -> done <> [] -> lineEnd eol ->
  Forall (fun row => row <> [] /\ Forall wellFormed row) rows ->
  csvLoop (List.length (List.concat rows) + S n) csv (List.length done) front last
  = Some (front ++ last :: map (map cellValue) rows).
Proof.
  induction rows as [| row rows IH]; intros done front last n Hcsv Hdone Heol Hrows.
  - cbn [moreLines] in Hcsv. rewrite app_nil_r in Hcsv. subst csv.
    cbn [List.concat List.length Nat.add csvLoop map].
    now rewrite (exec_end done Hdone).
  - apply Forall_cons_iff in Hrows. destruct Hrows as [[Hne Hrow] Hrows].
    destruct row as [| c cs]; [contradiction |].
    apply Forall_cons_iff in Hrow. destruct Hrow as [Hc Hcs].
    cbn [moreLines line] in Hcsv. rewrite <- !app_assoc in Hcsv.
    cbn [List.concat app List.length]. rewrite length_app. cbn [Nat.add].
    rewrite (eol_step csv done eol c (moreFields cs ++ moreLines eol rows) _
               front last Hcsv Heol Hc
               (moreFields_end cs _ (moreLines_start eol rows Heol))).
    rewrite <- Nat.add_assoc.
    rewrite (fields_loop csv cs (done ++ eol ++ cellText c) (moreLines eol rows)
               (front ++ [last]) [cellValue c]);
      [| rewrite Hcsv, <- !app_assoc; reflexivity | exact Hcs
       | exact (moreLines_start eol rows Heol)].
    rewrite (IH ((done ++ eol ++ cellText c) ++ moreFields cs) (front ++ [last])
               ([cellValue c] ++ map cellValue cs) n).
    + cbn [map app]. rewrite <- app_assoc. reflexivity.
    + rewrite Hcsv, <- !app_assoc. reflexivity.
    + destruct done; [contradiction | discriminate].
    + exact Heol.
    + exact Hrows.
Qed.

End CsvCells.

(** X23.  A table written as a text - the fields of a row joined by commas,
    the rows by line feeds or by carriage returns with line feeds, a field
    either plain (no double quote, comma or line end in it) or any text
    between double quotes with its double quotes doubled - is parsed back
    into its rows of fields, provided that the text of the first field is
    not empty.  The loop takes one round a field, and one more.  The empty
    text between double quotes comes back as [undefined]. *)
Theorem CSVToArray_reads_table (eol : list ascii) (c1 : Cell) (cs1 : list Cell)
    (more : list (list Cell)) (n : nat) :
  lineEnd eol ->
  cellText c1 <> [] ->
  Forall wellFormed (c1 :: cs1) ->
  Forall (fun row => row <> [] /\ Forall wellFormed row) more ->
  CSVToArray (List.length (List.concat ((c1 :: cs1) :: more)) + S n)
    (string_of_list_ascii (csvText eol ((c1 :: cs1) :: more)))
  = Some (map (map cellValue) ((c1 :: cs1) :: more)).
Proof.
  intros Heol Hne Hrow Hmore. unfold CSVToArray.
  rewrite list_ascii_of_string_of_list_ascii.
  apply Forall_cons_iff in Hrow. destruct Hrow as [Hc Hcs].
  set (csv := csvText eol ((c1 :: cs1) :: more)).
  assert (Hcsv : csv = cellText c1 ++ moreFields cs1 ++ moreLines eol more).
  { unfold csv. cbn [csvText line]. now rewrite <- app_assoc. }
  cbn [List.concat app List.length]. rewrite length_app. cbn [Nat.add].
  rewrite <- Nat.add_assoc.
  rewrite (CsvCells.first_step csv c1 (moreFields cs1 ++ moreLines eol more) _
             Hcsv Hne Hc
             (CsvCells.moreFields_end cs1 _
                (CsvCells.moreLines_start eol more Heol))).
  rewrite (CsvCells.fields_loop csv cs1 (cellText c1) (moreLines eol more) []
             [cellValue c1] _ Hcsv Hcs
             (CsvCells.moreLines_start eol more Heol)).
  rewrite (CsvCells.lines_loop csv eol more (cellText c1 ++ moreFields cs1) []
             ([cellValue c1] ++ map cellValue cs1) n).
  - reflexivity.
  - rewrite Hcsv, <- app_assoc. reflexivity.
  - destruct (cellText c1); [contradiction | discriminate].
  - exact Heol.
  - exact Hmore.
Qed.

Lemma CSVToArray_reads_table_witness :
  CSVToArray 5
    (string_of_list_ascii
       (csvText [CR; LF]
          [[PlainCell ["a"%char; "b"%char];
            QuotedCell ["c"%char; ","%char; dquote; LF]];
           [PlainCell []; QuotedCell []]]))
  = Some [[Some "ab"%string;
           Some (string_of_list_ascii ["c"%char; ","%char; dquote; LF])];
          [Some EmptyString; None]].
Proof.
  refine (CSVToArray_reads_table [CR; LF] (PlainCell ["a"%char; "b"%char])
            [QuotedCell ["c"%char; ","%char; dquote; LF]]
            [[PlainCell []; QuotedCell []]] 0 _ _ _ _).
  - now right.
  - discriminate.
  - repeat constructor.
  - repeat constructor; discriminate.
Defined.

(** X24.  The empty plain field at the start of a text is lost: a table
    whose first row starts with it and holds more fields is parsed into the
    table without that field. *)
Theorem CSVToArray_drops_empty_first_field (eol : list ascii) (c2 : Cell)
    (cs : list Cell) (more : list (list Cell)) (n : nat) :
  lineEnd eol ->
  Forall wellFormed (c2 :: cs) ->
  Forall (fun row => row <> [] /\ Forall wellFormed row) more ->
  CSVToArray (List.length (List.concat ((c2 :: cs) :: more)) + S n)
    (string_of_list_ascii (csvText eol ((PlainCell [] :: c2 :: cs) :: more)))
  = Some (map (map cellValue) ((c2 :: cs) :: more)).
Proof.
  intros Heol Hrow Hmore. unfold CSVToArray.
  rewrite list_ascii_of_string_of_list_ascii.
  apply Forall_cons_iff in Hrow. destruct Hrow as [Hc Hcs].
  set (csv := csvText eol ((PlainCell [] :: c2 :: cs) :: more)).
  assert (Hcsv : csv = [] ++ comma :: cellText c2
                         ++ moreFields cs ++ moreLines eol more).
  { unfold csv. cbn [csvText line moreFields cellText app].
    now rewrite <- !app_assoc. }
  cbn [List.concat app List.length]. rewrite length_app. cbn [Nat.add].
  rewrite <- Nat.add_assoc.
  change 0%nat with (@List.length ascii []) at 1.
  rewrite (CsvCells.comma_step csv [] c2 (moreFields cs ++ moreLines eol more) _
             [] [] Hcsv Hc
             (CsvCells.moreFields_end cs _
                (CsvCells.moreLines_start eol more Heol))).
  rewrite (CsvCells.fields_loop csv cs ([] ++ comma :: cellText c2)
             (moreLines eol more) [] ([] ++ [cellValue c2]) _ Hcsv Hcs
             (CsvCells.moreLines_start eol more Heol)).
  rewrite (CsvCells.lines_loop csv eol more
             (([] ++ comma :: cellText c2) ++ moreFields cs) []
             (([] ++ [cellValue c2]) ++ map cellValue cs) n).
  - reflexivity.
  - rewrite Hcsv. cbn [app]. now rewrite <- app_assoc.
  - discriminate.
  - exact Heol.
  - exact Hmore.
Qed.

Lemma CSVToArray_drops_empty_first_field_witness :
  CSVToArray 3
    (string_of_list_ascii
       (csvText [LF] [[PlainCell []; PlainCell ["a"%char]]; [PlainCell ["b"%char]]]))
  = Some [[Some "a"%string]; [Some "b"%string]].
Proof.
  refine (CSVToArray_drops_empty_first_field [LF] (PlainCell ["a"%char]) []
            [[PlainCell ["b"%char]]] 0 _ _ _).
  - now left.
  - repeat constructor.
  - repeat constructor; discriminate.
Defined.

(** X25.  So is the empty first row: a table whose first row is the empty
    plain field alone, with more rows after it, is parsed into a first row
    without any value and the further rows. *)
Theorem CSVToArray_empties_first_row (eol : list ascii) (c : Cell)
    (cs : list Cell) (more : list (list Cell)) (n : nat) :
  lineEnd eol ->
  Forall wellFormed (c :: cs) ->
  Forall (fun row => row <> [] /\ Forall wellFormed row) more ->
  CSVToArray (List.length (List.concat ((c :: cs) :: more)) + S n)
    (string_of_list_ascii (csvText eol ([PlainCell []] :: (c :: cs) :: more)))
  = Some ([] :: map (map cellValue) ((c :: cs) :: more)).
Proof.
  intros Heol Hrow Hmore. unfold CSVToArray.
  rewrite list_ascii_of_string_of_list_ascii.
  apply Forall_cons_iff in Hrow. destruct Hrow as [Hc Hcs].
  set (csv := csvText eol ([PlainCell []] :: (c :: cs) :: more)).
  assert (Hcsv : csv = [] ++ eol ++ cellText c
                         ++ moreFields cs ++ moreLines eol more).
  { unfold csv. cbn [csvText line moreLines moreFields cellText app].
    now rewrite <- !app_assoc. }
  cbn [List.concat app List.length]. rewrite length_app. cbn [Nat.add].
  rewrite <- Nat.add_assoc.
  change 0%nat with (@List.length ascii []) at 1.
  rewrite (CsvCells.eol_step csv [] eol c (moreFields cs ++ moreLines eol more) _
             [] [] Hcsv Heol Hc
             (CsvCells.moreFields_end cs _
                (CsvCells.moreLines_start eol more Heol))).
  assert (Hcsv2 : csv = ([] ++ eol ++ cellText c)
                          ++ moreFields cs ++ moreLines eol more).
  { rewrite Hcsv. cbn [app]. now rewrite <- !app_assoc. }
  rewrite (CsvCells.fields_loop csv cs ([] ++ eol ++ cellText c)
             (moreLines eol more) ([] ++ [[]]) [cellValue c] _ Hcsv2 Hcs
             (CsvCells.moreLines_start eol more Heol)).
  rewrite (CsvCells.lines_loop csv eol more
             (([] ++ eol ++ cellText c) ++ moreFields cs) ([] ++ [[]])
             ([cellValue c] ++ map cellValue cs) n).
  - reflexivity.
  - rewrite Hcsv. cbn [app]. now rewrite <- !app_assoc.
  - destruct Heol as [-> | ->]; discriminate.
  - exact Heol.
  - exact Hmore.
Qed.

Lemma CSVToArray_empties_first_row_witness :
  CSVToArray 2
    (string_of_list_ascii
       (csvText [LF] [[PlainCell []]; [PlainCell ["a"%char]]]))
  = Some [[]; [Some "a"%string]].
Proof.
  refine (CSVToArray_empties_first_row [LF] (PlainCell ["a"%char]) [] [] 0 _ _ _).
  - now left.
  - repeat constructor.
  - constructor.
Defined.
